(** * Bank simulation: event queue, waiting line and event loop

    A shallow embedding of the C++ sources of the single-teller bank
    simulation (Event.cpp, BinaryHeap.cpp, PriorityQueue.cpp, Queue.cpp and
    BankSimApp.cpp) together with the properties that its specification
    states about them.

    Conventions of the embedding:
    - [unsigned int] values are integers in [0, 2^32) and their arithmetic
      wraps around ([wrap]);
    - [int] values are integers in [INT_MIN, INT_MAX]; signed overflow is
      undefined behaviour ([Undefined]);
    - a member function that mutates its object is a computation in the
      state-and-exception monad [M], whose outcomes are a normal return, a
      thrown [EmptyDataCollectionException] (with the state at the throw),
      undefined behaviour, or an exhausted iteration budget for the loops
      and recursions that the embedding unrolls with fuel. *)

From Stdlib Require Import ZArith Lia Bool.
From Stdlib Require Import Sorting.Sorted.
From Stdlib Require Import Floats.SpecFloat.
From stdpp Require Import base option list gmap.

Ltac Zify.zify_post_hook ::= Z.div_mod_to_equations.

Local Open Scope Z_scope.

(** ** Machine integers *)

Definition UINT_MODULUS : Z := 2 ^ 32.
Definition INT_MAX : Z := 2 ^ 31 - 1.
Definition INT_MIN : Z := - 2 ^ 31.

(** Reduction of an [unsigned int] result. *)
Definition wrap (z : Z) : Z := z mod UINT_MODULUS.

Definition in_int (z : Z) : bool := (INT_MIN <=? z) && (z <=? INT_MAX).

(** ** Outcomes of a call *)

Inductive exn : Type := EmptyDataCollectionException.

Inductive outcome (S A : Type) : Type :=
| Ret (a : A) (s : S)
| Throw (e : exn) (s : S)
| Undefined
| OutOfFuel.

Arguments Ret {S A} a s.
Arguments Throw {S A} e s.
Arguments Undefined {S A}.
Arguments OutOfFuel {S A}.

Definition M (S A : Type) : Type := S → outcome S A.

Definition ret {S A} (a : A) : M S A := λ s, Ret a s.

Definition bind {S A B} (m : M S A) (f : A → M S B) : M S B :=
  λ s, match m s with
       | Ret a s' => f a s'
       | Throw e s' => Throw e s'
       | Undefined => Undefined
       | OutOfFuel => OutOfFuel
       end.

Definition throw {S A} (e : exn) : M S A := λ s, Throw e s.
Definition undefined {S A} : M S A := λ _, Undefined.
Definition out_of_fuel {S A} : M S A := λ _, OutOfFuel.
Definition gets {S A} (f : S → A) : M S A := λ s, Ret (f s) s.
Definition modify {S} (f : S → S) : M S unit := λ s, Ret tt (f s).

(** Run a computation on a component [proj s] of the state and store the
    component back with [upd]. *)
Definition zoom {S U A} (proj : S → U) (upd : U → S → S) (m : M U A) : M S A :=
  λ s, match m (proj s) with
       | Ret a u => Ret a (upd u s)
       | Throw e u => Throw e (upd u s)
       | Undefined => Undefined
       | OutOfFuel => OutOfFuel
       end.

Declare Scope monad_scope.
Delimit Scope monad_scope with M.
Notation "'let*' x := m 'in' k" := (bind m (λ x, k))
  (at level 10, x name, m at level 100, k at level 200,
   format "'[v' 'let*'  x  :=  m  'in' '/' k ']'") : monad_scope.
Notation "m ;; k" := (bind m (λ _, k))
  (at level 100, k at level 200, right associativity) : monad_scope.
Local Open Scope monad_scope.

(** [int] arithmetic: the result when it is representable. *)
Definition int_op {S} (z : Z) : M S Z :=
  if in_int z then ret z else undefined.

(** ** Event.cpp *)

Module Event.

Inductive EventType : Type := ARRIVAL | DEPARTURE.

Definition EventType_eqb (a b : EventType) : bool :=
  match a, b with
  | ARRIVAL, ARRIVAL | DEPARTURE, DEPARTURE => true
  | _, _ => false
  end.

Record Event : Type := mk { type : EventType; time : Z; length : Z }.

(** [Event::Event()] *)
Definition Event0 : Event := mk ARRIVAL 0 0.

(** [Event::Event(EventType aType, int aTime)] *)
Definition Event2 (aType : EventType) (aTime : Z) : Event := mk aType aTime 0.

(** [Event::Event(EventType aType, int aTime, int aLength)] *)
Definition Event3 (aType : EventType) (aTime aLength : Z) : Event :=
  mk aType aTime (if EventType_eqb aType ARRIVAL then aLength else 0).

Definition getType (e : Event) : EventType := type e.
Definition getTime (e : Event) : Z := time e.
Definition getLength (e : Event) : Z := length e.

Definition setType (aType : EventType) (e : Event) : Event :=
  mk aType (time e) (length e).

Definition setTime (aTime : Z) (e : Event) : Event :=
  mk (type e) aTime (length e).

Definition setLength (aLength : Z) (e : Event) : Event :=
  mk (type e) (time e) (if EventType_eqb (type e) ARRIVAL then aLength else 0).

Definition isArrival (e : Event) : bool := EventType_eqb (type e) ARRIVAL.

(** [Event::operator<=] *)
Definition operator_le (this rhs : Event) : bool :=
  if time this =? getTime rhs then
    EventType_eqb (type this) (getType rhs)
    || (EventType_eqb (type this) ARRIVAL && EventType_eqb (getType rhs) DEPARTURE)
  else time this <? getTime rhs.

(** [Event::operator<] *)
Definition operator_lt (this other : Event) : bool := time this <? time other.

(** [Event::operator>] *)
Definition operator_gt (this other : Event) : bool := time this >? time other.

(** The data-model invariant: only an arrival carries a service length. *)
Definition length_invariant (e : Event) : Prop :=
  type e = DEPARTURE → length e = 0.

(** The setters of the class, as a command language. *)
Inductive setter : Type :=
| SetType (aType : EventType)
| SetTime (aTime : Z)
| SetLength (aLength : Z).

Definition apply_setter (c : setter) (e : Event) : Event :=
  match c with
  | SetType k => setType k e
  | SetTime t => setTime t e
  | SetLength l => setLength l e
  end.

Definition apply_setters (cs : list setter) (e : Event) : Event :=
  foldl (λ e c, apply_setter c e) e cs.

End Event.

Abbreviation Event := Event.Event.
Abbreviation ARRIVAL := Event.ARRIVAL.
Abbreviation DEPARTURE := Event.DEPARTURE.

(** ** The element interface of the templated containers

    [BinaryHeap<ElementType>] needs a default constructor (for
    [new ElementType[n]]), [operator<] and [operator>]. *)

Class ElementType (T : Type) : Type := {
  default_init : T;
  op_lt : T → T → bool;
  op_gt : T → T → bool
}.

(** Reading a slot of an array of elements is total on the model; the
    bounds are checked where the array is accessed. *)
#[export] Instance ElementType_inhabited {T : Type} `{!ElementType T}
  : Inhabited T := populate default_init.

#[export] Instance Event_ElementType : ElementType Event := {|
  default_init := Event.Event0;
  op_lt := Event.operator_lt;
  op_gt := Event.operator_gt
|}.

(** What the heap needs of the comparisons: [operator>] is [operator<] with
    the operands exchanged, and [operator<] is a strict weak order. *)
Class ElementOrder (T : Type) `{!ElementType T} : Prop := {
  op_gt_lt (a b : T) : op_gt a b = op_lt b a;
  op_lt_irrefl (a : T) : op_lt a a = false;
  op_lt_trans (a b c : T) : op_lt a b = true → op_lt b c = true → op_lt a c = true;
  op_lt_cotrans (a b c : T) :
    op_lt a b = true → op_lt a c = true ∨ op_lt c b = true
}.

(** ** BinaryHeap.cpp *)

Module BinaryHeap.
Section BinaryHeap.
Context {T : Type} `{!ElementType T}.

Record BinaryHeap : Type := mk {
  elements : list T;    (* the dynamic array; its length is its allocated size *)
  capacity : Z;         (* unsigned int *)
  elementCount : Z      (* unsigned int *)
}.

Definition set_elements (a : list T) (h : BinaryHeap) : BinaryHeap :=
  mk a (capacity h) (elementCount h).
Definition set_capacity (c : Z) (h : BinaryHeap) : BinaryHeap :=
  mk (elements h) c (elementCount h).
Definition set_elementCount (n : Z) (h : BinaryHeap) : BinaryHeap :=
  mk (elements h) (capacity h) n.

(** [new ElementType[n]] *)
Definition new_array (n : Z) : list T := replicate (Z.to_nat n) default_init.

(** [BinaryHeap(unsigned int capacity)] *)
Definition BinaryHeap1 (capacity : Z) : BinaryHeap :=
  mk (new_array capacity) capacity 0.

Definition in_bounds (i : Z) (a : list T) : bool :=
  (0 <=? i) && (i <? Z.of_nat (length a)).

(** [elements[i]] as an rvalue: outside the array it is undefined. *)
Definition read (i : Z) : M BinaryHeap T :=
  λ h, if in_bounds i (elements h)
       then Ret (elements h !!! Z.to_nat i) h
       else Undefined.

(** [elements[i] = x] *)
Definition write (i : Z) (x : T) : M BinaryHeap unit :=
  λ h, if in_bounds i (elements h)
       then Ret tt (set_elements (<[Z.to_nat i := x]> (elements h)) h)
       else Undefined.

(** [std::swap(elements[i], elements[j])] *)
Definition swap (i j : Z) : M BinaryHeap unit :=
  let* a := read i in
  let* b := read j in
  write i b;;
  write j a.

(** The array after exchanging the slots [i] and [j]. *)
Definition swapped (a : list T) (i j : Z) : list T :=
  <[Z.to_nat j := a !!! Z.to_nat i]> (<[Z.to_nat i := a !!! Z.to_nat j]> a).

Definition getElementCount : M BinaryHeap Z := gets elementCount.

Definition expandHeap : M BinaryHeap unit :=
  modify (λ h, set_capacity (wrap (capacity h * 2)) h);;
  let* cap := gets capacity in
  let newHeap := new_array cap in
  let* n := gets elementCount in
  let* old := gets elements in
  (* std::copy(elements, elements + elementCount, newHeap) *)
  if (n <=? Z.of_nat (length old)) && (n <=? Z.of_nat (length newHeap)) then
    modify (set_elements (take (Z.to_nat n) old ++ drop (Z.to_nat n) newHeap))
  else undefined.

(** The [while] loop of [reHeapUp]; [fuel] bounds the number of tests of its
    condition. The child index decreases with every iteration, so
    [S indexOfChild] tests are enough. *)
Fixpoint reHeapUp_loop (fuel : nat) (indexOfChild indexOfParent : Z)
  : M BinaryHeap unit :=
  match fuel with
  | O => out_of_fuel
  | S fuel' =>
      if 0 <? indexOfChild then
        let* p := read indexOfParent in
        let* c := read indexOfChild in
        if op_gt p c then
          swap indexOfChild indexOfParent;;
          let indexOfChild' := indexOfParent in
          let indexOfParent' := wrap (indexOfChild' - 1) / 2 in
          reHeapUp_loop fuel' indexOfChild' indexOfParent'
        else ret tt
      else ret tt
  end.

Definition reHeapUp (indexOfChild : Z) : M BinaryHeap unit :=
  let indexOfParent := wrap (indexOfChild - 1) / 2 in
  reHeapUp_loop (S (Z.to_nat indexOfChild)) indexOfChild indexOfParent.

(** [i < elementCount && elements[i] < elements[j]] *)
Definition child_is_less (i j : Z) : M BinaryHeap bool :=
  let* n := gets elementCount in
  if i <? n then
    let* a := read i in
    let* b := read j in
    ret (op_lt a b)
  else ret false.

(** [reHeapDown], with [fuel] bounding the depth of the recursion. The root
    index increases with every call and stays below [elementCount]. *)
Fixpoint reHeapDown_rec (fuel : nat) (indexOfRoot : Z) : M BinaryHeap unit :=
  match fuel with
  | O => out_of_fuel
  | S fuel' =>
      let indexOfMinChild := indexOfRoot in
      let indexOfLeftChild := wrap (2 * indexOfRoot + 1) in
      let indexOfRightChild := wrap (2 * indexOfRoot + 2) in
      let* l := child_is_less indexOfLeftChild indexOfMinChild in
      let indexOfMinChild := if l then indexOfLeftChild else indexOfMinChild in
      let* r := child_is_less indexOfRightChild indexOfMinChild in
      let indexOfMinChild := if r then indexOfRightChild else indexOfMinChild in
      if negb (indexOfMinChild =? indexOfRoot) then
        swap indexOfRoot indexOfMinChild;;
        reHeapDown_rec fuel' indexOfMinChild
      else ret tt
  end.

Definition reHeapDown (indexOfRoot : Z) : M BinaryHeap unit :=
  let* n := gets elementCount in
  reHeapDown_rec (S (Z.to_nat n)) indexOfRoot.

Definition insert (newElement : T) : M BinaryHeap bool :=
  let* n := gets elementCount in
  let* cap := gets capacity in
  (if n =? cap then expandHeap else ret tt);;
  let* n := gets elementCount in
  write n newElement;;
  reHeapUp n;;
  modify (λ h, set_elementCount (wrap (elementCount h + 1)) h);;
  ret true.

Definition retrieve : M BinaryHeap T :=
  let* n := gets elementCount in
  if n =? 0 then throw EmptyDataCollectionException
  else read 0.

Definition remove : M BinaryHeap unit :=
  let* n := gets elementCount in
  if n =? 0 then throw EmptyDataCollectionException
  else
    let* last := read (wrap (n - 1)) in
    write 0 last;;
    modify (λ h, set_elementCount (wrap (elementCount h - 1)) h);;
    let* n := gets elementCount in
    if 0 <? n then reHeapDown 0 else ret tt.

(** *** Client loops over the heap *)

Fixpoint insert_all (xs : list T) : M BinaryHeap unit :=
  match xs with
  | [] => ret tt
  | x :: xs' => insert x;; insert_all xs'
  end.

(** [while (getElementCount() != 0) { out.push_back(retrieve()); remove(); }] *)
Fixpoint drain_loop (fuel : nat) (out : list T) : M BinaryHeap (list T) :=
  match fuel with
  | O => out_of_fuel
  | S fuel' =>
      let* n := getElementCount in
      if n =? 0 then ret out
      else
        let* x := retrieve in
        remove;;
        drain_loop fuel' (out ++ [x])
  end.

Definition drain : M BinaryHeap (list T) :=
  let* n := getElementCount in
  drain_loop (S (Z.to_nat n)) [].

Inductive op : Type := Insert (x : T) | Remove.

Definition run_op (o : op) : M BinaryHeap unit :=
  match o with
  | Insert x => insert x;; ret tt
  | Remove => remove
  end.

Fixpoint run_ops (ops : list op) : M BinaryHeap unit :=
  match ops with
  | [] => ret tt
  | o :: ops' => run_op o;; run_ops ops'
  end.

(** No [Remove] of [ops] meets an empty heap, starting from [n] elements. *)
Fixpoint removes_nonempty (n : nat) (ops : list op) : bool :=
  match ops with
  | [] => true
  | Insert _ :: ops' => removes_nonempty (S n) ops'
  | Remove :: ops' =>
      match n with
      | O => false
      | S n' => removes_nonempty n' ops'
      end
  end.

(** The change of the element count that [ops] make. *)
Fixpoint net (ops : list op) : Z :=
  match ops with
  | [] => 0
  | Insert _ :: ops' => 1 + net ops'
  | Remove :: ops' => net ops' - 1
  end.

(** The largest element count that is reached while [ops] run on a heap of
    [n] elements. *)
Fixpoint peak (n : Z) (ops : list op) : Z :=
  match ops with
  | [] => n
  | Insert _ :: ops' => Z.max n (peak (n + 1) ops')
  | Remove :: ops' => Z.max n (peak (n - 1) ops')
  end.

(** *** Abstraction and invariants *)

(** The elements currently stored. *)
Definition contents (h : BinaryHeap) : list T :=
  take (Z.to_nat (elementCount h)) (elements h).

(** [a ≤ b] in the order the heap compares with: [b] is not less than [a]. *)
Definition le (a b : T) : Prop := op_lt b a = false.

(** Weak heap order on the first [n] slots of [a], at every index but
    the ones [skip] names. *)
Definition ordered_except (skip : Z → Prop) (a : list T) (n : Z) : Prop :=
  ∀ j, 0 < j < n → ¬ skip j →
       le (a !!! Z.to_nat ((j - 1) / 2)) (a !!! Z.to_nat j).

Definition ordered (a : list T) (n : Z) : Prop :=
  ordered_except (λ _, False) a n.

Definition heap_ordered (h : BinaryHeap) : Prop :=
  ordered (elements h) (elementCount h).

(** The state of the array while [reHeapUp] is at index [i]: only [i] may
    be smaller than its parent, and the children of [i] respect the parent
    of [i]. *)
Definition up_inv (a : list T) (n i : Z) : Prop :=
  ordered_except (λ j, j = i) a n
  ∧ (0 < i → ∀ j, 0 < j < n → (j - 1) / 2 = i →
             le (a !!! Z.to_nat ((i - 1) / 2)) (a !!! Z.to_nat j)).

(** The state of the array while [reHeapDown] is at index [i]: only the
    children of [i] may be smaller than their parent, and they respect the
    parent of [i]. *)
Definition down_inv (a : list T) (n i : Z) : Prop :=
  ordered_except (λ j, (j - 1) / 2 = i) a n
  ∧ (0 < i → ∀ j, 0 < j < n → (j - 1) / 2 = i →
             le (a !!! Z.to_nat ((i - 1) / 2)) (a !!! Z.to_nat j)).

Definition min_at_root (h : BinaryHeap) : Prop :=
  ∀ x, x ∈ contents h → le (elements h !!! 0%nat) x.

(** Representation invariant of the class. *)
Record wf (h : BinaryHeap) : Prop := {
  wf_length : Z.of_nat (length (elements h)) = capacity h;
  wf_count : 0 ≤ elementCount h ≤ capacity h;
  wf_capacity : 0 < capacity h < UINT_MODULUS
}.

End BinaryHeap.
End BinaryHeap.

Arguments BinaryHeap.BinaryHeap T : clear implicits.

(** ** PriorityQueue.cpp *)

Module PriorityQueue.
Section PriorityQueue.
Context {T : Type} `{!ElementType T}.

Record PriorityQueue : Type := mk { minheap : BinaryHeap.BinaryHeap T }.

(** A call on the member [minheap]. *)
Definition on_minheap {A} (m : M (BinaryHeap.BinaryHeap T) A) : M PriorityQueue A :=
  zoom minheap (λ h _, mk h) m.

(** [PriorityQueue() : minheap(2)] *)
Definition PriorityQueue0 : PriorityQueue := mk (BinaryHeap.BinaryHeap1 2).

Definition isEmpty : M PriorityQueue bool :=
  let* n := on_minheap BinaryHeap.getElementCount in
  ret (n =? 0).

Definition enqueue (newElement : T) : M PriorityQueue bool :=
  on_minheap (BinaryHeap.insert newElement).

Definition dequeue : M PriorityQueue unit :=
  let* e := isEmpty in
  if e then throw EmptyDataCollectionException
  else on_minheap BinaryHeap.remove.

Definition peek : M PriorityQueue T :=
  let* e := isEmpty in
  if e then throw EmptyDataCollectionException
  else on_minheap BinaryHeap.retrieve.

(** *** Client loops over the priority queue *)

Fixpoint enqueue_all (xs : list T) : M PriorityQueue unit :=
  match xs with
  | [] => ret tt
  | x :: xs' => enqueue x;; enqueue_all xs'
  end.

(** [while (!isEmpty()) { out.push_back(peek()); dequeue(); }], the way the
    event loop of the simulation consumes the queue. *)
Fixpoint drain_loop (fuel : nat) (out : list T) : M PriorityQueue (list T) :=
  match fuel with
  | O => out_of_fuel
  | S fuel' =>
      let* e := isEmpty in
      if e then ret out
      else
        let* x := peek in
        dequeue;;
        drain_loop fuel' (out ++ [x])
  end.

Definition drain : M PriorityQueue (list T) :=
  let* n := on_minheap BinaryHeap.getElementCount in
  drain_loop (S (Z.to_nat n)) [].

Definition contents (q : PriorityQueue) : list T :=
  BinaryHeap.contents (minheap q).

End PriorityQueue.
End PriorityQueue.

Arguments PriorityQueue.PriorityQueue T : clear implicits.

(** ** Queue.cpp

    The nodes of the linked list live in a free store that maps addresses to
    nodes; [nullptr] is [None]. *)

Module Queue.
Section Queue.
Context {T : Type}.

Definition ptr : Type := option positive.

Record Node : Type := mkNode { data : T; next : ptr }.

Record Queue : Type := mk {
  size : Z;                    (* int *)
  head : ptr;
  tail : ptr;
  store : gmap positive Node   (* the nodes allocated by this queue *)
}.

Definition set_size (n : Z) (q : Queue) : Queue := mk n (head q) (tail q) (store q).
Definition set_head (p : ptr) (q : Queue) : Queue := mk (size q) p (tail q) (store q).
Definition set_tail (p : ptr) (q : Queue) : Queue := mk (size q) (head q) p (store q).
Definition set_store (m : gmap positive Node) (q : Queue) : Queue :=
  mk (size q) (head q) (tail q) m.

(** [Queue() : size(0), head(nullptr), tail(nullptr)] *)
Definition Queue0 : Queue := mk 0 None None ∅.

(** [new Node(newData)]: a node at an address that is not in use. *)
Definition new_Node (newData : T) : M Queue ptr :=
  λ q, let a := fresh (dom (store q)) in
       Ret (Some a) (set_store (<[a := mkNode newData None]> (store q)) q).

(** [*p]: dereferencing a null or dangling pointer is undefined. *)
Definition deref (p : ptr) : M Queue Node :=
  λ q, match p with
       | Some a => match store q !! a with
                   | Some nd => Ret nd q
                   | None => Undefined
                   end
       | None => Undefined
       end.

(** [p->next = nx] *)
Definition assign_next (p nx : ptr) : M Queue unit :=
  let* nd := deref p in
  match p with
  | Some a => modify (λ q, set_store (<[a := mkNode (data nd) nx]> (store q)) q)
  | None => undefined
  end.

(** [delete p] *)
Definition delete_Node (p : ptr) : M Queue unit :=
  match p with
  | None => ret tt
  | Some a => deref p;; modify (λ q, set_store (delete a (store q)) q)
  end.

Definition isEmpty : M Queue bool := gets (λ q, size q =? 0).

Definition enqueue (newElement : T) : M Queue bool :=
  let* myNode := new_Node newElement in
  let* e := isEmpty in
  (if e then
     modify (set_tail myNode);;
     modify (set_head myNode)
   else
     let* t := gets tail in
     assign_next t myNode;;
     modify (set_tail myNode));;
  let* n := gets size in
  let* n' := int_op (n + 1) in
  modify (set_size n');;
  ret true.

Definition dequeue : M Queue unit :=
  let* e := isEmpty in
  if e then throw EmptyDataCollectionException
  else
    let* temp := gets head in
    let* nd := deref temp in
    modify (set_head (next nd));;
    delete_Node temp;;
    let* n := gets size in
    let* n' := int_op (n - 1) in
    modify (set_size n');;
    let* e := isEmpty in
    if e then modify (set_tail None) else ret tt.

Definition peek : M Queue T :=
  let* e := isEmpty in
  if e then throw EmptyDataCollectionException
  else
    let* h := gets head in
    let* nd := deref h in
    ret (data nd).

(** *** Client loops over the queue *)

Fixpoint enqueue_all (xs : list T) : M Queue unit :=
  match xs with
  | [] => ret tt
  | x :: xs' => enqueue x;; enqueue_all xs'
  end.

(** [n] times: [out.push_back(peek()); dequeue();] *)
Fixpoint dequeue_n (n : nat) (out : list T) : M Queue (list T) :=
  match n with
  | O => ret out
  | S n' =>
      let* x := peek in
      dequeue;;
      dequeue_n n' (out ++ [x])
  end.

(** [~Queue()]: [while (!isEmpty()) dequeue();], with [fuel] bounding the
    number of tests of the condition. *)
Fixpoint destructor_loop (fuel : nat) : M Queue unit :=
  match fuel with
  | O => out_of_fuel
  | S fuel' =>
      let* e := isEmpty in
      if e then ret tt
      else dequeue;; destructor_loop fuel'
  end.

Definition destructor : M Queue unit :=
  let* n := gets size in
  destructor_loop (S (Z.to_nat n)).

(** A client of the queue: [Enqueue x] calls [enqueue(x)], and [Dequeue]
    reads the front with [peek()] and then calls [dequeue()]. *)
Inductive op : Type := Enqueue (x : T) | Dequeue.

(** [run_ops ops out] returns [out] followed by the elements that the
    [Dequeue]s of [ops] read. *)
Fixpoint run_ops (ops : list op) (out : list T) : M Queue (list T) :=
  match ops with
  | [] => ret out
  | Enqueue x :: ops' => enqueue x;; run_ops ops' out
  | Dequeue :: ops' =>
      let* x := peek in
      dequeue;;
      run_ops ops' (out ++ [x])
  end.

(** The same client on a list that holds the elements oldest first; [None]
    when a [Dequeue] meets the empty list. *)
Fixpoint list_ops (ops : list op) (l out : list T) : option (list T * list T) :=
  match ops with
  | [] => Some (l, out)
  | Enqueue x :: ops' => list_ops ops' (l ++ [x]) out
  | Dequeue :: ops' =>
      match l with
      | [] => None
      | x :: l' => list_ops ops' l' (out ++ [x])
      end
  end.

(** *** Abstraction *)

(** [q] holds the elements [l], oldest first, in the nodes at [addrs]. *)
Record represents (q : Queue) (addrs : list positive) (l : list T) : Prop := {
  rep_size : size q = Z.of_nat (length l);
  rep_int : size q ≤ INT_MAX;
  rep_addrs : length addrs = length l;
  rep_dom : dom (store q) = list_to_set addrs;
  rep_nodup : NoDup addrs;
  rep_head : head q = addrs !! 0%nat;
  rep_tail : tail q = last addrs;
  rep_nodes : ∀ i a, addrs !! i = Some a →
                     ∃ x, l !! i = Some x ∧
                          store q !! a = Some (mkNode x (addrs !! S i))
}.

Definition is_queue (q : Queue) (l : list T) : Prop :=
  ∃ addrs, represents q addrs l.

(** The elements reachable from [p], oldest first, following at most
    [fuel] links. *)
Fixpoint walk (fuel : nat) (m : gmap positive Node) (p : ptr) : list T :=
  match fuel, p with
  | S fuel', Some a =>
      match m !! a with
      | Some nd => data nd :: walk fuel' m (next nd)
      | None => []
      end
  | _, _ => []
  end.

Definition to_list (q : Queue) : list T :=
  walk (Z.to_nat (size q)) (store q) (head q).

End Queue.
End Queue.

Arguments Queue.Queue T : clear implicits.
Arguments Queue.Node T : clear implicits.

(** ** BankSimApp.cpp *)

(** [float] is IEEE 754 binary32. *)
Definition float_of_int (z : Z) : spec_float := binary_normalize 24 128 z 0 false.
Definition float_div (x y : spec_float) : spec_float := SFdiv 24 128 x y.

Module BankSimApp.

(** What the program writes to [cout], line by line. *)
Inductive output : Type :=
| SimulationBegins
| Processing (kind : Event.EventType) (time : Z)
| SimulationEnds
| TotalProcessed (customerCount : Z)
| AverageWait (averageWaitTime : spec_float).

(** The local variables of [main]. *)
Record state : Type := mk {
  bankLine : Queue.Queue Event;
  eventPriorityQueue : PriorityQueue.PriorityQueue Event;
  tellerAvailable : bool;
  simulationTime : Z;
  customerCount : Z;
  cumulativeWaitTime : Z;
  cout : list output
}.

Definition set_bankLine (q : Queue.Queue Event) (s : state) : state :=
  mk q (eventPriorityQueue s) (tellerAvailable s) (simulationTime s)
     (customerCount s) (cumulativeWaitTime s) (cout s).
Definition set_eventPriorityQueue (q : PriorityQueue.PriorityQueue Event)
  (s : state) : state :=
  mk (bankLine s) q (tellerAvailable s) (simulationTime s)
     (customerCount s) (cumulativeWaitTime s) (cout s).
Definition set_tellerAvailable (b : bool) (s : state) : state :=
  mk (bankLine s) (eventPriorityQueue s) b (simulationTime s)
     (customerCount s) (cumulativeWaitTime s) (cout s).
Definition set_simulationTime (t : Z) (s : state) : state :=
  mk (bankLine s) (eventPriorityQueue s) (tellerAvailable s) t
     (customerCount s) (cumulativeWaitTime s) (cout s).
Definition set_customerCount (n : Z) (s : state) : state :=
  mk (bankLine s) (eventPriorityQueue s) (tellerAvailable s) (simulationTime s)
     n (cumulativeWaitTime s) (cout s).
Definition set_cumulativeWaitTime (w : Z) (s : state) : state :=
  mk (bankLine s) (eventPriorityQueue s) (tellerAvailable s) (simulationTime s)
     (customerCount s) w (cout s).
Definition print (o : output) : M state unit :=
  modify (λ s, mk (bankLine s) (eventPriorityQueue s) (tellerAvailable s)
                  (simulationTime s) (customerCount s) (cumulativeWaitTime s)
                  (cout s ++ [o])).

Definition on_bankLine {A} (m : M (Queue.Queue Event) A) : M state A :=
  zoom bankLine set_bankLine m.
Definition on_eventPriorityQueue {A}
  (m : M (PriorityQueue.PriorityQueue Event) A) : M state A :=
  zoom eventPriorityQueue set_eventPriorityQueue m.

Definition processArrival (newEvent : Event) : M state unit :=
  on_eventPriorityQueue PriorityQueue.dequeue;;
  let* lineEmpty := on_bankLine Queue.isEmpty in
  let* free := gets tellerAvailable in
  if lineEmpty && free then
    let* now := gets simulationTime in
    let* departureTime := int_op (now + Event.getLength newEvent) in
    let newDepartureEvent := Event.Event2 DEPARTURE departureTime in
    on_eventPriorityQueue (PriorityQueue.enqueue newDepartureEvent);;
    modify (set_tellerAvailable false)
  else
    on_bankLine (Queue.enqueue newEvent);;
    ret tt.

Definition processDeparture (newEvent : Event) : M state unit :=
  on_eventPriorityQueue PriorityQueue.dequeue;;
  let* lineEmpty := on_bankLine Queue.isEmpty in
  if negb lineEmpty then
    let* customer := on_bankLine Queue.peek in
    on_bankLine Queue.dequeue;;
    let* now := gets simulationTime in
    let* waitTime := int_op (now - Event.getTime customer) in
    let* total := gets cumulativeWaitTime in
    let* total' := int_op (total + waitTime) in
    modify (set_cumulativeWaitTime total');;
    let* departureTime := int_op (now + Event.getLength customer) in
    let newDepartureEvent := Event.Event2 DEPARTURE departureTime in
    on_eventPriorityQueue (PriorityQueue.enqueue newDepartureEvent);;
    ret tt
  else
    modify (set_tellerAvailable true).

(** [outputEventProcessing(event, "arrival")] and
    [outputEventProcessing(event, "departure")] *)
Definition outputEventProcessing (event : Event) (kind : Event.EventType)
  : M state unit :=
  print (Processing kind (Event.getTime event)).

(** The extraction loop [while (cin >> arriveTime >> processTime)]:
    [input] is the sequence of integer pairs on the stream; extraction
    fails, and the loop ends, at the first value that is not an [int]. *)
Fixpoint read_customers (input : list (Z * Z)) : M state unit :=
  match input with
  | [] => ret tt
  | (arriveTime, processTime) :: rest =>
      if in_int arriveTime && in_int processTime then
        let newArrivalEvent := Event.Event3 ARRIVAL arriveTime processTime in
        on_eventPriorityQueue (PriorityQueue.enqueue newArrivalEvent);;
        let* n := gets customerCount in
        let* n' := int_op (n + 1) in
        modify (set_customerCount n');;
        read_customers rest
      else ret tt
  end.

(** One iteration of [while (!eventPriorityQueue.isEmpty())]. *)
Definition loop_body : M state unit :=
  let* newEvent := on_eventPriorityQueue PriorityQueue.peek in
  modify (set_simulationTime (Event.getTime newEvent));;
  if Event.isArrival newEvent then
    outputEventProcessing newEvent ARRIVAL;;
    processArrival newEvent
  else
    outputEventProcessing newEvent DEPARTURE;;
    processDeparture newEvent.

(** [while (!eventPriorityQueue.isEmpty())], with [fuel] bounding the number
    of tests of the condition. *)
Fixpoint event_loop (fuel : nat) : M state unit :=
  match fuel with
  | O => out_of_fuel
  | S fuel' =>
      let* e := on_eventPriorityQueue PriorityQueue.isEmpty in
      if e then ret tt
      else loop_body;; event_loop fuel'
  end.

Definition initial_state : state :=
  mk Queue.Queue0 PriorityQueue.PriorityQueue0 true 0 0 0 [].

(** The part of [main] before the event loop. *)
Definition setup (input : list (Z * Z)) : M state unit :=
  print SimulationBegins;;
  read_customers input.

(** The part of [main] after the event loop. *)
Definition report : M state Z :=
  let* total := gets cumulativeWaitTime in
  let* n := gets customerCount in
  let averageWaitTime := float_div (float_of_int total) (float_of_int n) in
  print SimulationEnds;;
  print (TotalProcessed n);;
  print (AverageWait averageWaitTime);;
  ret 0.

(** Every customer is processed twice, once on arrival and once on
    departure. *)
Definition loop_budget (s : state) : nat := S (2 * Z.to_nat (customerCount s)).

Definition main_from (input : list (Z * Z)) : M state Z :=
  setup input;;
  let* fuel := gets loop_budget in
  event_loop fuel;;
  report.

Definition main (input : list (Z * Z)) : outcome state Z :=
  main_from input initial_state.

(** *** Observations on the state *)

Definition agenda (s : state) : list Event :=
  PriorityQueue.contents (eventPriorityQueue s).

Definition waiting (s : state) : list Event := Queue.to_list (bankLine s).

Definition line_empty (s : state) : bool := Queue.size (bankLine s) =? 0.

(** A customer is in service from the moment their departure is scheduled
    until that departure event is processed. *)
Definition in_service (s : state) : bool :=
  existsb (λ e, negb (Event.isArrival e)) (agenda s).

(** The states at the head of the event loop. *)
Inductive reachable (input : list (Z * Z)) : state → Prop :=
| reachable_start s :
    setup input initial_state = Ret tt s → reachable input s
| reachable_step s s' :
    reachable input s →
    on_eventPriorityQueue PriorityQueue.isEmpty s = Ret false s →
    loop_body s = Ret tt s' →
    reachable input s'.

(** The state after [k] iterations of the loop body. *)
Fixpoint iterate (k : nat) : M state unit :=
  match k with
  | O => ret tt
  | S k' => loop_body;; iterate k'
  end.

(** A summary of a state: time, teller flag, total wait, pending events and
    waiting customers. *)
Definition snapshot (s : state)
  : Z * bool * Z * list Event * list Event :=
  (simulationTime s, tellerAvailable s, cumulativeWaitTime s, agenda s, waiting s).

(** The summary of the state in which [m] ends when started from the
    initial state. *)
Definition observe {A} (m : M state A)
  : option (Z * bool * Z * list Event * list Event) :=
  match m initial_state with
  | Ret _ s => Some (snapshot s)
  | _ => None
  end.

(** The state at the head of the loop after [k] iterations on [input]. *)
Definition state_after (input : list (Z * Z)) (k : nat) : state :=
  match (setup input;; iterate k) initial_state with
  | Ret _ s => s
  | _ => initial_state
  end.

(** A bound on every time that the run computes: the latest arrival plus
    all the service lengths. *)
Definition latest_arrival (input : list (Z * Z)) : Z :=
  foldr (λ c m, Z.max c.1 m) 0 input.
Definition total_service (input : list (Z * Z)) : Z :=
  foldr (λ c m, c.2 + m) 0 input.
Definition horizon (input : list (Z * Z)) : Z :=
  latest_arrival input + total_service input.

(** The inputs of non-negative times and lengths on which no [int] of the
    run overflows. *)
Definition input_ok (input : list (Z * Z)) : Prop :=
  Forall (λ c, 0 ≤ c.1 ∧ 0 ≤ c.2) input
  ∧ Z.of_nat (length input) ≤ INT_MAX
  ∧ Z.of_nat (length input) * horizon input ≤ INT_MAX.

(** *** Invariants of the event loop *)

(** The array-backed heap inside the event queue, and its replacement. *)
Definition heap (s : state) : BinaryHeap.BinaryHeap Event :=
  PriorityQueue.minheap (eventPriorityQueue s).
Definition set_heap (h : BinaryHeap.BinaryHeap Event) (s : state) : state :=
  set_eventPriorityQueue (PriorityQueue.mk h) s.

(** The event that [peek] returns. *)
Definition next_event (s : state) : Event :=
  BinaryHeap.elements (heap s) !!! 0%nat.

(** The containers are well formed, the waiting line holds [ws], and the
    events and waiting customers together are no more than the customers
    counted. *)
Record shape_inv (s : state) (ws : list Event) : Prop := {
  shape_heap : BinaryHeap.wf (heap s);
  shape_order : BinaryHeap.heap_ordered (heap s);
  shape_line : Queue.is_queue (bankLine s) ws;
  shape_count :
    BinaryHeap.elementCount (heap s) + Z.of_nat (length ws) ≤ customerCount s;
  shape_customers : customerCount s ≤ INT_MAX
}.

(** One iteration of the event loop, on the events [agenda s] and the waiting
    line [ws]. *)
Inductive step_rel (s : state) (ws : list Event) (s' : state)
  : list Event → Prop :=
| step_arrival_served rest :
    let e := next_event s in
    e :: rest ≡ₚ agenda s →
    Event.isArrival e = true →
    ws = [] → tellerAvailable s = true →
    in_int (Event.time e + Event.length e) = true →
    agenda s' ≡ₚ Event.Event2 DEPARTURE (Event.time e + Event.length e) :: rest →
    tellerAvailable s' = false →
    simulationTime s' = Event.time e →
    cumulativeWaitTime s' = cumulativeWaitTime s →
    step_rel s ws s' []
| step_arrival_waits rest :
    let e := next_event s in
    e :: rest ≡ₚ agenda s →
    Event.isArrival e = true →
    ws ≠ [] ∨ tellerAvailable s = false →
    agenda s' ≡ₚ rest →
    tellerAvailable s' = tellerAvailable s →
    simulationTime s' = Event.time e →
    cumulativeWaitTime s' = cumulativeWaitTime s →
    step_rel s ws s' (ws ++ [e])
| step_departure_next rest customer ws' :
    let e := next_event s in
    let waitTime := Event.time e - Event.time customer in
    e :: rest ≡ₚ agenda s →
    Event.isArrival e = false →
    ws = customer :: ws' →
    in_int waitTime = true →
    in_int (cumulativeWaitTime s + waitTime) = true →
    in_int (Event.time e + Event.length customer) = true →
    agenda s' ≡ₚ Event.Event2 DEPARTURE (Event.time e + Event.length customer) :: rest →
    tellerAvailable s' = tellerAvailable s →
    simulationTime s' = Event.time e →
    cumulativeWaitTime s' = cumulativeWaitTime s + waitTime →
    step_rel s ws s' ws'
| step_departure_idle rest :
    let e := next_event s in
    e :: rest ≡ₚ agenda s →
    Event.isArrival e = false →
    ws = [] →
    agenda s' ≡ₚ rest →
    tellerAvailable s' = true →
    simulationTime s' = Event.time e →
    cumulativeWaitTime s' = cumulativeWaitTime s →
    step_rel s ws s' [].

(** The iteration from [s] leaves the range of [int]. *)
Definition overflows (s : state) (ws : list Event) : Prop :=
  let e := next_event s in
  if Event.isArrival e then
    ws = [] ∧ tellerAvailable s = true
    ∧ in_int (Event.time e + Event.length e) = false
  else
    ∃ customer ws',
      ws = customer :: ws'
      ∧ in_int (Event.time e - Event.time customer)
        && in_int (cumulativeWaitTime s + (Event.time e - Event.time customer))
        && in_int (Event.time e + Event.length customer) = false.

(** The arrival events of the pairs that the extraction loop reads. *)
Fixpoint arrivals (input : list (Z * Z)) : list Event :=
  match input with
  | [] => []
  | (arriveTime, processTime) :: rest =>
      if in_int arriveTime && in_int processTime
      then Event.Event3 ARRIVAL arriveTime processTime :: arrivals rest
      else []
  end.

Definition departures (l : list Event) : list Event :=
  filter (λ e, Event.isArrival e = false) l.

(** The teller is free exactly when no departure is pending, and then nobody
    waits; while the teller is busy exactly one departure is pending. *)
Definition teller_inv (s : state) (ws : list Event) : Prop :=
  if tellerAvailable s
  then ws = [] ∧ departures (agenda s) = []
  else length (departures (agenda s)) = 1%nat.

(** The number of iterations that remain: two for an arrival that is still
    to be processed, one for a pending departure or a waiting customer. *)
Definition remaining (s : state) (ws : list Event) : nat :=
  (2 * length (filter (λ e, Event.isArrival e = true) (agenda s))
   + length (departures (agenda s)) + length ws)%nat.

Definition service (l : list Event) : Z :=
  foldr (λ e m, Event.length e + m) 0 l.

Definition pending_service (s : state) (ws : list Event) : Z :=
  service (agenda s ++ ws).

(** The times of a run on an input of non-negative times and lengths, whose
    [horizon] is [H]. *)
Record order_inv (s : state) (ws : list Event) : Prop := {
  time_now : 0 ≤ simulationTime s;
  time_agenda : ∀ e, e ∈ agenda s → simulationTime s ≤ Event.time e;
  time_waiting : ∀ c, c ∈ ws → 0 ≤ Event.time c ≤ simulationTime s;
  time_lengths : ∀ e, e ∈ agenda s ++ ws → 0 ≤ Event.length e
}.

(** With that order, every time of the run stays below the horizon [H] of
    the input, and the total wait below [H] for each customer. *)
Record time_inv (H : Z) (s : state) (ws : list Event) : Prop := {
  time_order : order_inv s ws;
  time_budget : ∀ e, e ∈ agenda s → Event.time e + pending_service s ws ≤ H;
  time_total :
    0 ≤ cumulativeWaitTime s
    ∧ cumulativeWaitTime s
      + (BinaryHeap.elementCount (heap s) + Z.of_nat (length ws)) * H
      ≤ customerCount s * H
}.

(** *** The log of processed events *)

(** The lines [Processing <kind> event at time: <t>] of the output, in the
    order in which they were written. *)
Definition processed (out : list output) : list (Event.EventType * Z) :=
  omap (λ o, match o with Processing k t => Some (k, t) | _ => None end) out.

Definition log (s : state) : list (Event.EventType * Z) := processed (cout s).

(** The times of the lines of kind [k]. *)
Definition times_of (k : Event.EventType) (l : list (Event.EventType * Z))
  : list Z :=
  (filter (λ p, Event.EventType_eqb p.1 k = true) l).*2.

Definition sum (l : list Z) : Z := foldr Z.add 0 l.

(** The time at which the service of [e] ends when it starts at the time
    of [e], summed over [l]. *)
Definition weight (l : list Event) : Z :=
  foldr (λ e m, Event.time e + Event.length e + m) 0 l.

(** The customers of the input are all accounted for: an arrival is pending
    or logged; a logged arrival waits, is in service or has departed; and the
    total wait is what the logged and pending departures leave after the
    arrival times and service lengths of the customers that left the line. *)
Record account_inv (input : list (Z * Z)) (s : state) (ws : list Event)
  : Prop := {
  account_cout :
    cout s = SimulationBegins :: ((λ p, Processing p.1 p.2) <$> log s);
  account_arrivals :
    (Event.time <$> filter (λ e, Event.isArrival e = true) (agenda s))
      ++ times_of ARRIVAL (log s)
    ≡ₚ Event.time <$> arrivals input;
  account_departures :
    (length (departures (agenda s)) + length ws
     + length (times_of DEPARTURE (log s)))%nat
    = length (times_of ARRIVAL (log s));
  account_lengths : ∀ e, e ∈ agenda s → Event.length_invariant e;
  account_wait :
    cumulativeWaitTime s + weight (arrivals input)
    = sum (times_of DEPARTURE (log s)) + weight (agenda s) + weight ws
}.

(** What [processArrival] leaves alone: the clock, the customer count, the
    total wait and the output; and it never frees the teller. *)
Definition arrival_frame (s s' : state) : Prop :=
  simulationTime s' = simulationTime s
  ∧ customerCount s' = customerCount s
  ∧ cumulativeWaitTime s' = cumulativeWaitTime s
  ∧ cout s' = cout s
  ∧ (tellerAvailable s' = true → tellerAvailable s = true).

(** What [processDeparture] leaves alone: the clock, the customer count and
    the output; and it never takes the teller. *)
Definition departure_frame (s s' : state) : Prop :=
  simulationTime s' = simulationTime s
  ∧ customerCount s' = customerCount s
  ∧ cout s' = cout s
  ∧ (tellerAvailable s = true → tellerAvailable s' = true).

(** The log is in chronological order and ends no later than the clock. *)
Definition chronological (s : state) : Prop :=
  StronglySorted Z.le (log s).*2
  ∧ ∀ t, t ∈ (log s).*2 → t ≤ simulationTime s.

End BankSimApp.

(** ** Predicates on computations *)

(** The call of [m] in state [s] ends in an exception. *)
Definition throws {S A} (m : M S A) (s : S) : Prop :=
  ∃ e s', m s = Throw e s'.

(** No call of [m] ends in an exception. *)
Definition never_throws {S A} (m : M S A) : Prop :=
  ∀ s, ¬ throws m s.

(** Every call of [m] that returns relates the state before to the state
    after by [R]. *)
Definition stable {S A} (R : S → S → Prop) (m : M S A) : Prop :=
  ∀ s a s', m s = Ret a s' → R s s'.

(** Every value that a call of [m] returns satisfies [P]. *)
Definition returns {S A} (P : A → Prop) (m : M S A) : Prop :=
  ∀ s a s', m s = Ret a s' → P a.

(** A call of [m] leaves the object as it was, whether it returns or
    throws. *)
Definition read_only {S A} (m : M S A) : Prop :=
  ∀ s, match m s with
       | Ret _ s' | Throw _ s' => s' = s
       | Undefined | OutOfFuel => True
       end.

(** * Properties *)

(** ** Reasoning about outcomes *)

Section Outcomes.
Context {S A B : Type}.
Implicit Types (m : M S A) (f : A → M S B).

Lemma bind_ret_step m f s a s' :
  m s = Ret a s' → bind m f s = f a s'.
Proof. unfold bind. by intros ->. Qed.

Lemma bind_throw_step m f s e s' :
  m s = Throw e s' → bind m f s = Throw e s'.
Proof. unfold bind. by intros ->. Qed.

End Outcomes.

Lemma int_op_ret {S} (z : Z) (s : S) :
  INT_MIN ≤ z ≤ INT_MAX → int_op z s = Ret z s.
Proof.
  intros Hz. unfold int_op, in_int.
  destruct (Z.leb_spec INT_MIN z), (Z.leb_spec z INT_MAX); simpl; auto; lia.
Qed.

(** ** Event *)

Lemma Event3_length_invariant k t l : Event.length_invariant (Event.Event3 k t l).
Proof. by destruct k. Qed.

Lemma Event2_length_invariant k t : Event.length_invariant (Event.Event2 k t).
Proof. done. Qed.

Lemma setTime_length_invariant t e :
  Event.length_invariant e → Event.length_invariant (Event.setTime t e).
Proof. done. Qed.

Lemma setLength_length_invariant l e : Event.length_invariant (Event.setLength l e).
Proof. unfold Event.length_invariant. simpl. by intros ->. Qed.

Lemma setType_ARRIVAL_length_invariant e :
  Event.length_invariant (Event.setType ARRIVAL e).
Proof. done. Qed.

Lemma operator_le_ties_arrival_first t l :
  Event.operator_le (Event.Event3 ARRIVAL t l) (Event.Event2 DEPARTURE t) = true
  ∧ Event.operator_le (Event.Event2 DEPARTURE t) (Event.Event3 ARRIVAL t l) = false.
Proof.
  unfold Event.operator_le. simpl. by rewrite Z.eqb_refl.
Qed.

(** C1. [Event::operator<] and [Event::operator>], the comparisons that the
    binary heap orders events with, look at the time only: at equal times an
    arrival is not less than a departure, and a departure is not greater than
    an arrival. The tie is not broken arrival-before-departure. *)
Theorem operator_lt_ignores_kind (t l : Z) :
  Event.operator_lt (Event.Event3 ARRIVAL t l) (Event.Event2 DEPARTURE t) = false
  ∧ Event.operator_gt (Event.Event2 DEPARTURE t) (Event.Event3 ARRIVAL t l) = false.
Proof.
  unfold Event.operator_lt, Event.operator_gt. simpl.
  rewrite Z.ltb_irrefl, Z.gtb_ltb, Z.ltb_irrefl. done.
Qed.

Lemma apply_setters_snoc cs c e :
  Event.apply_setters (cs ++ [c]) e
  = Event.apply_setter c (Event.apply_setters cs e).
Proof. unfold Event.apply_setters. by rewrite foldl_app. Qed.

(** Every sequence of setter calls without [setType(DEPARTURE)] keeps the
    length invariant after each call. *)
Lemma setters_keep_length_invariant cs e :
  Event.length_invariant e →
  Event.SetType DEPARTURE ∉ cs →
  Event.length_invariant (Event.apply_setters cs e).
Proof.
  intros He. induction cs as [|c cs IH] using rev_ind; intros Hcs; [done|].
  rewrite apply_setters_snoc.
  assert (Event.length_invariant (Event.apply_setters cs e)) as IH'.
  { apply IH. intros Hin. apply Hcs, elem_of_app. by left. }
  destruct c as [[|]|t|l]; simpl.
  - apply setType_ARRIVAL_length_invariant.
  - exfalso. apply Hcs, elem_of_app. right. by left.
  - by apply setTime_length_invariant.
  - apply setLength_length_invariant.
Qed.

(** C3. [setType] stores the new kind and leaves the length alone: calling
    [setType(DEPARTURE)] on the arrival of length 5 (which satisfies the
    invariant) yields a departure whose length is still 5, so the invariant
    "a departure has length 0" does not hold after this setter call.
    [setLength] on a departure does store 0. *)
Theorem setType_keeps_length :
  let e0 := Event.Event3 ARRIVAL 0 5 in
  let e := Event.apply_setters [Event.SetType DEPARTURE] e0 in
  Event.length_invariant e0
  ∧ Event.getType e = DEPARTURE
  ∧ Event.getLength e = 5
  ∧ ¬ Event.length_invariant e
  ∧ Event.getLength (Event.apply_setters [Event.SetLength 7] e) = 0.
Proof.
  simpl. split_and!; try done.
  unfold Event.length_invariant. simpl. intros H. by specialize (H eq_refl).
Qed.

(** C10. The default-constructed event is an arrival at time 0 of length 0;
    it satisfies the length invariant, and every slot of a freshly allocated
    array of events holds it. *)
Theorem default_event_is_arrival :
  Event.getType Event.Event0 = ARRIVAL
  ∧ Event.getTime Event.Event0 = 0
  ∧ Event.getLength Event.Event0 = 0
  ∧ Event.isArrival Event.Event0 = true
  ∧ Event.length_invariant Event.Event0
  ∧ ∀ (n : Z) (e : Event),
      e ∈ BinaryHeap.new_array n → e = Event.mk ARRIVAL 0 0.
Proof.
  split_and!; try done.
  intros n e He. unfold BinaryHeap.new_array in He.
  by apply elem_of_replicate in He as [-> _].
Qed.

(** ** BinaryHeap *)

Section HeapFacts.
Context {T : Type} `{!ElementType T} `{!ElementOrder T}.
Import BinaryHeap.
Implicit Types (h : BinaryHeap T) (a : list T) (x y z : T).

Notation "a @ i" := (a !!! Z.to_nat i) (at level 20, only parsing).

(** *** The order *)

Lemma le_refl x : le x x.
Proof. apply op_lt_irrefl. Qed.

Lemma le_trans x y z : le x y → le y z → le x z.
Proof.
  unfold le. intros Hxy Hyz.
  destruct (op_lt z x) eqn:Hzx; [|done].
  destruct (op_lt_cotrans z x y Hzx); congruence.
Qed.

Lemma lt_le x y : op_lt x y = true → le x y.
Proof.
  unfold le. intros Hxy. destruct (op_lt y x) eqn:Hyx; [|done].
  pose proof (op_lt_trans _ _ _ Hxy Hyx) as Hxx.
  by rewrite op_lt_irrefl in Hxx.
Qed.

Lemma lt_le_trans x y z : op_lt x y = true → le y z → le x z.
Proof. intros Hxy. apply le_trans. by apply lt_le. Qed.

(** *** The array *)

Lemma wrap_small (z : Z) : 0 ≤ z < UINT_MODULUS → wrap z = z.
Proof. unfold wrap. apply Z.mod_small. Qed.

Lemma in_bounds_true i a :
  0 ≤ i < Z.of_nat (length a) → in_bounds i a = true.
Proof. unfold in_bounds. intros. apply andb_true_intro. split; lia. Qed.

Lemma sel_insert a i j x :
  0 ≤ i < Z.of_nat (length a) → 0 ≤ j →
  <[Z.to_nat i := x]> a @ j = if decide (i = j) then x else a @ j.
Proof.
  intros Hi Hj. case_decide as Hij.
  - subst j. apply list_lookup_total_insert_eq. lia.
  - apply list_lookup_total_insert_ne. lia.
Qed.

Lemma read_ok i h :
  0 ≤ i < Z.of_nat (length (elements h)) →
  read i h = Ret (elements h @ i) h.
Proof. intros Hi. unfold read. by rewrite in_bounds_true. Qed.

Lemma write_ok i x h :
  0 ≤ i < Z.of_nat (length (elements h)) →
  write i x h = Ret tt (set_elements (<[Z.to_nat i := x]> (elements h)) h).
Proof. intros Hi. unfold write. by rewrite in_bounds_true. Qed.

Lemma swap_ok i j h :
  0 ≤ i < Z.of_nat (length (elements h)) →
  0 ≤ j < Z.of_nat (length (elements h)) →
  swap i j h = Ret tt (set_elements (swapped (elements h) i j) h).
Proof.
  intros Hi Hj. unfold swap.
  rewrite (bind_ret_step _ _ _ _ _ (read_ok i h Hi)).
  rewrite (bind_ret_step _ _ _ _ _ (read_ok j h Hj)).
  rewrite (bind_ret_step _ _ _ _ _ (write_ok i _ h Hi)).
  rewrite write_ok; simpl; [done|]. rewrite length_insert. lia.
Qed.

Lemma length_swapped a i j : length (swapped a i j) = length a.
Proof. unfold swapped. by rewrite !length_insert. Qed.

Lemma sel_swapped a i j k :
  0 ≤ i < Z.of_nat (length a) → 0 ≤ j < Z.of_nat (length a) → 0 ≤ k →
  swapped a i j @ k =
    if decide (j = k) then a @ i else if decide (i = k) then a @ j else a @ k.
Proof.
  intros Hi Hj Hk. unfold swapped.
  rewrite sel_insert by (rewrite ?length_insert; lia).
  case_decide; [done|]. by rewrite sel_insert by lia.
Qed.

Lemma lookup_sel a i :
  0 ≤ i < Z.of_nat (length a) → a !! Z.to_nat i = Some (a @ i).
Proof. intros Hi. apply list_lookup_lookup_total_lt. lia. Qed.

Lemma take_swapped a i j n :
  0 ≤ i < n → 0 ≤ j < n → n ≤ Z.of_nat (length a) →
  take (Z.to_nat n) (swapped a i j) ≡ₚ take (Z.to_nat n) a.
Proof.
  intros Hi Hj Hn. unfold swapped.
  rewrite !take_insert_lt by lia.
  apply Permutation_insert_swap.
  - rewrite lookup_take_lt by lia. apply lookup_sel. lia.
  - rewrite lookup_take_lt by lia. apply lookup_sel. lia.
Qed.

(** *** Sifting up *)

Lemma up_inv_swap a n i :
  0 < i < n → n ≤ Z.of_nat (length a) →
  up_inv a n i →
  op_lt (a @ i) (a @ ((i - 1) / 2)) = true →
  up_inv (swapped a i ((i - 1) / 2)) n ((i - 1) / 2).
Proof.
  intros Hi Hn [HA HB] Hlt.
  set (p := (i - 1) / 2) in *.
  assert (0 ≤ p < i) as Hp by (subst p; lia).
  split.
  - intros j Hj Hjp.
    rewrite !sel_swapped by lia.
    destruct (decide (j = i)) as [->|Hji].
    + fold p. rewrite !decide_True by done.
      rewrite decide_False by lia. rewrite decide_True by done.
      by apply lt_le.
    + rewrite (decide_False (P := p = j)) by lia.
      rewrite (decide_False (P := i = j)) by lia.
      destruct (decide (p = (j - 1) / 2)) as [Hq|Hq].
      * apply (lt_le_trans _ (a @ p)); [done|].
        rewrite Hq. apply HA; [lia|done].
      * destruct (decide (i = (j - 1) / 2)) as [Hq'|Hq'].
        -- apply HB; [lia|lia|done].
        -- apply HA; [lia|done].
  - intros Hp0 j Hj Hjp.
    rewrite !sel_swapped by lia.
    rewrite (decide_False (P := p = (p - 1) / 2)) by lia.
    rewrite (decide_False (P := i = (p - 1) / 2)) by lia.
    rewrite (decide_False (P := p = j)) by lia.
    assert (le (a @ ((p - 1) / 2)) (a @ p)) as Hpp by (apply HA; lia).
    destruct (decide (i = j)) as [<-|Hij]; [done|].
    apply (le_trans _ (a @ p)); [done|].
    rewrite <- Hjp. apply HA; [lia|done].
Qed.

Lemma up_inv_done a n i :
  up_inv a n i →
  i ≤ 0 ∨ le (a @ ((i - 1) / 2)) (a @ i) →
  ordered a n.
Proof.
  intros [HA _] Hi j Hj _.
  destruct (decide (j = i)) as [->|Hji]; [|by apply HA].
  destruct Hi; [lia|done].
Qed.

Lemma reHeapUp_loop_spec (fuel : nat) h i n :
  0 ≤ i < n → n ≤ Z.of_nat (length (elements h)) → n ≤ UINT_MODULUS →
  (Z.to_nat i < fuel)%nat →
  ∃ a', reHeapUp_loop fuel i (wrap (i - 1) / 2) h = Ret tt (set_elements a' h)
        ∧ length a' = length (elements h)
        ∧ take (Z.to_nat n) a' ≡ₚ take (Z.to_nat n) (elements h)
        ∧ (up_inv (elements h) n i → ordered a' n).
Proof.
  revert h i. induction fuel as [|fuel IH]; intros h i Hi Hn Hmax Hfuel; [lia|].
  simpl. destruct (Z.ltb_spec 0 i) as [Hpos|Hz].
  - rewrite (wrap_small (i - 1)) by lia.
    set (p := (i - 1) / 2). assert (0 ≤ p < i) as Hp by (subst p; lia).
    rewrite (bind_ret_step _ _ _ _ _ (read_ok p h ltac:(lia))).
    rewrite (bind_ret_step _ _ _ _ _ (read_ok i h ltac:(lia))).
    rewrite op_gt_lt.
    destruct (op_lt (elements h @ i) (elements h @ p)) eqn:Hlt.
    + rewrite (bind_ret_step _ _ _ _ _ (swap_ok i p h ltac:(lia) ltac:(lia))).
      destruct (IH (set_elements (swapped (elements h) i p) h) p)
        as (a' & Hrun & Hlen & Hperm & Hord);
        [lia | simpl; rewrite length_swapped; lia | lia | lia |].
      exists a'. simpl in *. split_and!.
      * by rewrite Hrun.
      * by rewrite Hlen, length_swapped.
      * rewrite Hperm. apply take_swapped; lia.
      * intros Hinv. apply Hord. apply up_inv_swap; [lia|lia|done|done].
    + exists (elements h). split_and!; [by destruct h|done|done|].
      intros Hinv. apply (up_inv_done _ _ i); [done|by right].
  - exists (elements h). split_and!; [by destruct h|done|done|].
    intros Hinv. apply (up_inv_done _ _ i); [done|left; lia].
Qed.

(** *** Sifting down *)

Lemma child_is_less_ok i j h :
  0 ≤ i → 0 ≤ j < Z.of_nat (length (elements h)) →
  elementCount h ≤ Z.of_nat (length (elements h)) →
  child_is_less i j h =
    Ret ((i <? elementCount h) && op_lt (elements h @ i) (elements h @ j)) h.
Proof.
  intros Hi Hj Hn. unfold child_is_less, bind, gets.
  destruct (Z.ltb_spec i (elementCount h)); [|done].
  rewrite !read_ok by lia. done.
Qed.

Lemma down_inv_swap a n i m :
  0 ≤ i → m = 2 * i + 1 ∨ m = 2 * i + 2 → m < n → n ≤ Z.of_nat (length a) →
  down_inv a n i →
  op_lt (a @ m) (a @ i) = true →
  (∀ j, 0 < j < n → (j - 1) / 2 = i → le (a @ m) (a @ j)) →
  down_inv (swapped a i m) n m.
Proof.
  intros Hi Hm Hmn Hn [HA HB] Hlt Hmin.
  assert ((m - 1) / 2 = i) as Hpm by lia.
  split.
  - intros j Hj Hjm.
    rewrite !sel_swapped by lia.
    destruct (decide (m = j)) as [<-|Hmj].
    + rewrite Hpm. rewrite (decide_False (P := m = i)) by lia.
      rewrite decide_True by done. by apply lt_le.
    + rewrite (decide_False (P := m = (j - 1) / 2)) by lia.
      destruct (decide (i = (j - 1) / 2)) as [Hq|Hq].
      * rewrite (decide_False (P := i = j)) by lia.
        apply Hmin; [lia|done].
      * destruct (decide (i = j)) as [<-|Hij].
        -- apply HB; [lia|lia|done].
        -- apply HA; [lia|lia].
  - intros _ j Hj Hjm.
    rewrite !sel_swapped by lia.
    rewrite Hpm. rewrite (decide_False (P := m = i)) by lia.
    rewrite decide_True by done.
    rewrite (decide_False (P := m = j)) by lia.
    rewrite (decide_False (P := i = j)) by lia.
    rewrite <- Hjm. apply HA; [lia|lia].
Qed.

Lemma down_inv_done a n i :
  down_inv a n i →
  (∀ j, 0 < j < n → (j - 1) / 2 = i → le (a @ i) (a @ j)) →
  ordered a n.
Proof.
  intros [HA _] Hi j Hj _.
  destruct (decide ((j - 1) / 2 = i)) as [Hq|Hq]; [|by apply HA].
  rewrite Hq. by apply Hi.
Qed.

Lemma reHeapDown_rec_spec (fuel : nat) h i :
  0 ≤ i < elementCount h →
  elementCount h ≤ Z.of_nat (length (elements h)) →
  2 * elementCount h < UINT_MODULUS →
  (Z.to_nat (elementCount h - i) ≤ fuel)%nat →
  ∃ a', reHeapDown_rec fuel i h = Ret tt (set_elements a' h)
        ∧ length a' = length (elements h)
        ∧ take (Z.to_nat (elementCount h)) a'
            ≡ₚ take (Z.to_nat (elementCount h)) (elements h)
        ∧ (down_inv (elements h) (elementCount h) i
           → ordered a' (elementCount h)).
Proof.
  revert h i. induction fuel as [|fuel IH]; intros h i Hi Hn Hmax Hfuel; [lia|].
  assert (UINT_MODULUS = 4294967296) as HM by done.
  simpl.
  rewrite (wrap_small (2 * i + 1)), (wrap_small (2 * i + 2)) by lia.
  set (l := 2 * i + 1). set (r := 2 * i + 2).
  assert (0 ≤ l ∧ 0 ≤ r) as [Hl0 Hr0] by lia.
  rewrite (bind_ret_step _ _ _ _ _
             (child_is_less_ok l i h Hl0 ltac:(lia) Hn)).
  set (b1 := (l <? elementCount h) && op_lt (elements h @ l) (elements h @ i)).
  assert (0 ≤ (if b1 then l else i) < Z.of_nat (length (elements h))) as Hmin1.
  { subst b1. destruct (Z.ltb_spec l (elementCount h)); simpl; [|lia].
    destruct (op_lt _ _); lia. }
  rewrite (bind_ret_step _ _ _ _ _ (child_is_less_ok r _ h Hr0 Hmin1 Hn)).
  set (n := elementCount h) in *. set (a := elements h) in *.
  set (b2 := (r <? n) && op_lt (a @ r) (a @ (if b1 then l else i))).
  (* the index that the three-way comparison selects *)
  assert (∃ m, (if b2 then r else if b1 then l else i) = m
               ∧ (m = i ∧ (∀ j, 0 < j < n → (j - 1) / 2 = i → le (a @ i) (a @ j))
                  ∨ (m = l ∨ m = r) ∧ m < n ∧ op_lt (a @ m) (a @ i) = true
                    ∧ ∀ j, 0 < j < n → (j - 1) / 2 = i → le (a @ m) (a @ j)))
    as (m & -> & Hm).
  { eexists; split; [done|].
    assert (∀ j, 0 < j < n → (j - 1) / 2 = i → j = l ∨ j = r) as Hch by lia.
    subst b2 b1.
    destruct (Z.ltb_spec l n) as [Hl|Hl], (Z.ltb_spec r n) as [Hr|Hr];
      simpl; try lia.
    - destruct (op_lt (a @ l) (a @ i)) eqn:H1; simpl.
      + destruct (op_lt (a @ r) (a @ l)) eqn:H2; right.
        * split_and!; [by right|lia|by eapply op_lt_trans|].
          intros j Hj Hq. destruct (Hch j Hj Hq) as [->| ->];
            [by apply lt_le|apply le_refl].
        * split_and!; [by left|lia|done|].
          intros j Hj Hq. destruct (Hch j Hj Hq) as [->| ->];
            [apply le_refl|done].
      + destruct (op_lt (a @ r) (a @ i)) eqn:H2; [right|left].
        * split_and!; [by right|lia|done|].
          intros j Hj Hq. destruct (Hch j Hj Hq) as [->| ->]; [|apply le_refl].
          unfold le. destruct (op_lt (a @ l) (a @ r)) eqn:H3; [|done].
          pose proof (op_lt_trans _ _ _ H3 H2). congruence.
        * split; [done|].
          intros j Hj Hq. by destruct (Hch j Hj Hq) as [->| ->].
    - destruct (op_lt (a @ l) (a @ i)) eqn:H1; simpl; [right|left].
      + split_and!; [by left|lia|done|].
        intros j Hj Hq. destruct (Hch j Hj Hq) as [->| ->]; [apply le_refl|lia].
      + split; [done|].
        intros j Hj Hq. destruct (Hch j Hj Hq) as [->| ->]; [done|lia].
    - left. split; [done|]. intros j Hj Hq. destruct (Hch j Hj Hq); lia. }
  destruct Hm as [[-> Hdone]|(Hm & Hmn & Hlt & Hleast)].
  - rewrite Z.eqb_refl. simpl.
    exists a. split_and!; [by destruct h|done|done|].
    intros Hinv. by apply (down_inv_done _ _ i).
  - assert (m ≠ i) as Hmi by lia.
    apply Z.eqb_neq in Hmi as ->. simpl.
    assert (0 ≤ i < Z.of_nat (length (elements h))
            ∧ 0 ≤ m < Z.of_nat (length (elements h))) as [Hib Hmb]
      by (fold a; lia).
    rewrite (bind_ret_step _ _ _ _ _ (swap_ok i m h Hib Hmb)).
    destruct (IH (set_elements (swapped a i m) h) m)
      as (a' & Hrun & Hlen & Hperm & Hord);
      [simpl; lia | simpl; rewrite length_swapped; lia | simpl; lia
      | simpl; lia |].
    exists a'. subst a n. simpl in *. split_and!.
    + by rewrite Hrun.
    + by rewrite Hlen, length_swapped.
    + rewrite Hperm. apply take_swapped; lia.
    + intros Hinv. apply Hord. apply down_inv_swap; try done; lia.
Qed.

(** *** The member functions *)

Lemma sel_take a n j :
  0 ≤ j < n → take (Z.to_nat n) a @ j = a @ j.
Proof. intros Hj. apply lookup_total_take_lt. lia. Qed.

Lemma ordered_ext a b n :
  take (Z.to_nat n) a = take (Z.to_nat n) b → ordered a n → ordered b n.
Proof.
  intros Heq Ha j Hj Hs.
  rewrite <- (sel_take b n), <- (sel_take b n j), <- Heq, !sel_take by lia.
  by apply Ha.
Qed.

Lemma BinaryHeap1_wf (c : Z) : 0 < c < UINT_MODULUS → wf (BinaryHeap1 c).
Proof.
  intros Hc. split; simpl; [|lia|done].
  unfold new_array. rewrite length_replicate. lia.
Qed.

Lemma BinaryHeap1_ordered (c : Z) : heap_ordered (BinaryHeap1 c).
Proof. intros j Hj. simpl in Hj. lia. Qed.

Lemma length_contents h :
  wf h → Z.of_nat (length (contents h)) = elementCount h.
Proof.
  intros [Hlen Hn Hc]. unfold contents. rewrite length_take. lia.
Qed.

Lemma expandHeap_ok h :
  wf h → 2 * capacity h < UINT_MODULUS →
  ∃ a', expandHeap h = Ret tt (mk a' (capacity h * 2) (elementCount h))
        ∧ Z.of_nat (length a') = capacity h * 2
        ∧ take (Z.to_nat (elementCount h)) a'
          = take (Z.to_nat (elementCount h)) (elements h).
Proof.
  intros [Hlen Hn Hc] Hcap.
  unfold expandHeap, bind, modify, gets. simpl.
  rewrite (wrap_small (capacity h * 2)) by lia.
  unfold new_array. rewrite length_replicate.
  destruct (Z.leb_spec (elementCount h) (Z.of_nat (length (elements h))));
    [|lia].
  destruct (Z.leb_spec (elementCount h) (Z.of_nat (Z.to_nat (capacity h * 2))));
    [|lia].
  simpl. eexists. split_and!.
  - done.
  - rewrite length_app, length_take, length_drop, length_replicate. lia.
  - rewrite take_app_le by (rewrite length_take; lia).
    rewrite take_take. f_equal. lia.
Qed.

Lemma insert_spec x h :
  wf h →
  elementCount h < capacity h ∨ 2 * capacity h < UINT_MODULUS →
  ∃ h', insert x h = Ret true h'
        ∧ wf h'
        ∧ elementCount h' = elementCount h + 1
        ∧ contents h' ≡ₚ x :: contents h
        ∧ (heap_ordered h → heap_ordered h')
        ∧ capacity h' = (if elementCount h =? capacity h
                         then capacity h * 2 else capacity h).
Proof.
  intros Hwf Hroom. pose proof Hwf as [Hlen Hn Hc].
  set (n := elementCount h).
  (* the heap once there is room for one more element *)
  assert (∃ h1, (if n =? capacity h then expandHeap else ret tt) h = Ret tt h1
                ∧ elementCount h1 = n
                ∧ Z.of_nat (length (elements h1)) = capacity h1
                ∧ n < capacity h1 < UINT_MODULUS
                ∧ take (Z.to_nat n) (elements h1) = take (Z.to_nat n) (elements h)
                ∧ capacity h1 = (if n =? capacity h
                                 then capacity h * 2 else capacity h))
    as (h1 & Hgrow & Hn1 & Hlen1 & Hc1 & Hpre & Hcap1).
  { destruct (Z.eqb_spec n (capacity h)) as [Heq|Hne].
    - destruct (expandHeap_ok h Hwf) as (a' & -> & Hl & Ht); [lia|].
      eexists. split; [done|]. simpl. fold n in Ht. split_and!; try done; lia.
    - exists h. split; [done|]. split_and!; try done; lia. }
  set (a2 := <[Z.to_nat n := x]> (elements h1)).
  destruct (reHeapUp_loop_spec (S (Z.to_nat n)) (set_elements a2 h1) n (n + 1))
    as (a3 & Hup & Hlen3 & Hperm & Hord).
  { lia. }
  { simpl. subst a2. rewrite length_insert. lia. }
  { lia. }
  { lia. }
  simpl in Hup, Hlen3, Hperm, Hord.
  exists (mk a3 (capacity h1) (n + 1)).
  assert (take (Z.to_nat (n + 1)) a2 = take (Z.to_nat n) (elements h) ++ [x])
    as Htake.
  { replace (Z.to_nat (n + 1)) with (S (Z.to_nat n)) by lia.
    subst a2. erewrite take_S_r
      by (apply list_lookup_insert_eq; lia).
    rewrite take_insert_ge by lia. by rewrite Hpre. }
  split_and!.
  - unfold insert. unfold bind at 1. unfold gets at 1. fold n.
    unfold bind at 1. unfold gets at 1.
    rewrite (bind_ret_step _ _ _ _ _ Hgrow).
    unfold bind at 1. unfold gets at 1. rewrite Hn1.
    rewrite (bind_ret_step _ _ _ _ _ (write_ok n x h1 ltac:(lia))).
    fold a2. unfold reHeapUp.
    rewrite (bind_ret_step _ _ _ _ _ Hup).
    unfold bind, modify, ret. simpl. rewrite Hn1.
    rewrite wrap_small by lia. done.
  - split; simpl.
    + rewrite Hlen3. subst a2. rewrite length_insert. lia.
    + lia.
    + lia.
  - done.
  - unfold contents. simpl. rewrite Hperm, Htake.
    fold n. by rewrite Permutation_app_comm.
  - intros Hheap. unfold heap_ordered. simpl. apply Hord.
    split.
    + intros j Hj Hjn.
      subst a2. rewrite !list_lookup_total_insert_ne by lia.
      assert (ordered (elements h1) n) as Ha1.
      { apply (ordered_ext (elements h)); [by rewrite Hpre|done]. }
      apply Ha1; [lia|tauto].
    + intros _ j Hj Hq. lia.
  - done.
Qed.

Lemma retrieve_spec h :
  wf h → 0 < elementCount h → retrieve h = Ret (elements h @ 0) h.
Proof.
  intros [Hlen Hn Hc] Hpos. unfold retrieve, bind, gets.
  destruct (Z.eqb_spec (elementCount h) 0); [lia|].
  apply read_ok. lia.
Qed.

Lemma remove_spec h :
  wf h → 0 < elementCount h → 2 * elementCount h ≤ UINT_MODULUS →
  ∃ h', remove h = Ret tt h'
        ∧ wf h'
        ∧ elementCount h' = elementCount h - 1
        ∧ capacity h' = capacity h
        ∧ elements h @ 0 :: contents h' ≡ₚ contents h
        ∧ (heap_ordered h → heap_ordered h').
Proof.
  intros [Hlen Hn Hc] Hpos Hsmall.
  remember (elementCount h) as n eqn:Hndef.
  set (a1 := <[Z.to_nat 0 := elements h @ (n - 1)]> (elements h)).
  set (h1 := mk a1 (capacity h) (n - 1)).
  assert (length a1 = length (elements h)) as Hlen1 by apply length_insert.
  assert (take (Z.to_nat n) (elements h)
          = take (Z.to_nat (n - 1)) (elements h) ++ [elements h @ (n - 1)])
    as Hsplit.
  { replace (Z.to_nat n) with (S (Z.to_nat (n - 1))) by lia.
    apply take_S_r, lookup_sel. lia. }
  (* the run up to the test [elementCount > 0] *)
  assert (remove h = (if 0 <? n - 1 then reHeapDown 0 else ret tt) h1) as Hrun.
  { unfold remove. unfold bind at 1. unfold gets at 1. rewrite <- Hndef.
    destruct (Z.eqb_spec n 0); [lia|].
    rewrite (wrap_small (n - 1)) by lia.
    rewrite (bind_ret_step _ _ _ _ _ (read_ok (n - 1) h ltac:(lia))).
    assert (0 ≤ 0 < Z.of_nat (length (elements h))) as Hroot by lia.
    rewrite (bind_ret_step _ _ _ _ _ (write_ok 0 _ h Hroot)).
    unfold bind, modify, gets. simpl. rewrite <- Hndef.
    rewrite (wrap_small (n - 1)) by lia. done. }
  rewrite Hrun.
  destruct (Z.ltb_spec 0 (n - 1)) as [Hmore|Hlast].
  - destruct (reHeapDown_rec_spec (S (Z.to_nat (n - 1))) h1 0)
      as (a2 & Hdown & Hlen2 & Hperm & Hord); simpl; [lia|lia|lia|lia|].
    simpl in Hdown, Hlen2, Hperm, Hord.
    exists (mk a2 (capacity h) (n - 1)). split_and!.
    + unfold reHeapDown, bind, gets. simpl. by rewrite Hdown.
    + split; simpl; [lia|lia|done].
    + done.
    + done.
    + unfold contents. simpl. rewrite Hperm, <- Hndef, Hsplit.
      subst a1. rewrite take_insert_lt by lia.
      destruct (take (Z.to_nat (n - 1)) (elements h)) as [|x0 l] eqn:Htk.
      { apply (f_equal length) in Htk. rewrite length_take in Htk.
        simpl in Htk. lia. }
      assert (elements h @ 0 = x0) as ->.
      { rewrite <- (sel_take (elements h) (n - 1) 0), Htk by lia. done. }
      simpl. f_equiv. apply Permutation_cons_append.
    + intros Hheap. unfold heap_ordered. simpl. apply Hord.
      split; [|lia].
      intros j Hj Hq. subst a1.
      rewrite !list_lookup_total_insert_ne by lia.
      apply Hheap; [lia|tauto].
  - exists h1. split_and!.
    + done.
    + split; simpl; [lia|lia|done].
    + done.
    + done.
    + unfold contents. rewrite <- Hndef, Hsplit. simpl.
      replace (n - 1) with 0 by lia. done.
    + intros _ j Hj. simpl in Hj. lia.
Qed.

Lemma root_le_all h j :
  heap_ordered h → 0 ≤ j < elementCount h →
  le (elements h @ 0) (elements h @ j).
Proof.
  intros Hheap. revert j.
  assert (∀ (k : nat) j, (Z.to_nat j < k)%nat → 0 ≤ j < elementCount h →
                         le (elements h @ 0) (elements h @ j)) as Hind.
  { induction k as [|k IH]; intros j Hk Hj; [lia|].
    destruct (decide (j = 0)) as [->|Hj0]; [apply le_refl|].
    apply (le_trans _ (elements h @ ((j - 1) / 2))).
    - apply IH; lia.
    - apply Hheap; [lia|tauto]. }
  intros j Hj. apply (Hind (S (Z.to_nat j))); [lia|done].
Qed.

Lemma heap_ordered_min_at_root h :
  wf h → heap_ordered h → min_at_root h.
Proof.
  intros [Hlen Hn Hc] Hheap x Hx.
  apply list_elem_of_lookup in Hx as [k Hk].
  apply lookup_take_Some in Hk as [Hk Hlt].
  apply list_lookup_total_correct in Hk. subst x.
  replace k with (Z.to_nat (Z.of_nat k)) by lia.
  apply (root_le_all h (Z.of_nat k)); [done|lia].
Qed.

Lemma insert_spec_small x h :
  wf h → 2 * elementCount h < UINT_MODULUS →
  ∃ h', insert x h = Ret true h'
        ∧ wf h'
        ∧ elementCount h' = elementCount h + 1
        ∧ contents h' ≡ₚ x :: contents h
        ∧ (heap_ordered h → heap_ordered h')
        ∧ capacity h' = (if elementCount h =? capacity h
                         then capacity h * 2 else capacity h).
Proof.
  intros Hwf Hsmall. apply insert_spec; [done|].
  destruct Hwf as [_ Hn _]. lia.
Qed.

(** *** Sequences of operations *)

Implicit Types (ops : list (@op T)).

Lemma removes_nonempty_take n ops k :
  removes_nonempty n ops = true → removes_nonempty n (take k ops) = true.
Proof.
  revert n k. induction ops as [|[x|] ops IH]; intros n [|k]; simpl; auto.
  destruct n; [done|]. auto.
Qed.

Lemma peak_ge n (ops : list (op (T := T))) : n ≤ peak n ops.
Proof. destruct ops as [|[x|] ops]; simpl; lia. Qed.

Lemma peak_take n (ops : list (op (T := T))) k :
  peak n (take k ops) ≤ peak n ops.
Proof.
  revert n k. induction ops as [|[x|] ops IH]; intros n [|k]; simpl;
    try lia.
  - specialize (IH (n + 1) k). lia.
  - specialize (IH (n - 1) k). lia.
Qed.

Lemma run_ops_spec ops h :
  wf h → heap_ordered h →
  removes_nonempty (Z.to_nat (elementCount h)) ops = true →
  2 * peak (elementCount h) ops ≤ UINT_MODULUS →
  ∃ h', run_ops ops h = Ret tt h' ∧ wf h' ∧ heap_ordered h'.
Proof.
  revert h. induction ops as [|[x|] ops IH]; intros h Hwf Hheap Hvalid Hsmall.
  - by exists h.
  - simpl in Hvalid, Hsmall.
    pose proof (peak_ge (elementCount h + 1) ops) as Hpeak.
    destruct (insert_spec_small x h Hwf)
      as (h1 & Hins & Hwf1 & Hn1 & _ & Hh1 & _); [lia|].
    destruct (IH h1) as (h' & Hrun & Hwf' & Hheap'); auto.
    { rewrite Hn1. destruct Hwf as [_ ? _].
      by replace (Z.to_nat (elementCount h + 1))
        with (S (Z.to_nat (elementCount h))) by lia. }
    { rewrite Hn1. lia. }
    exists h'. split_and!; [|done|done].
    simpl. unfold run_op.
    rewrite (bind_ret_step _ _ _ _ _
               (bind_ret_step _ (λ _, ret tt) _ _ _ Hins)).
    done.
  - simpl in Hvalid, Hsmall.
    destruct (Z.to_nat (elementCount h)) as [|n'] eqn:Hn; [done|].
    destruct (remove_spec h Hwf) as (h1 & Hrem & Hwf1 & Hn1 & _ & _ & Hh1);
      [lia|lia|].
    destruct (IH h1) as (h' & Hrun & Hwf' & Hheap'); auto.
    { rewrite Hn1. by replace (Z.to_nat (elementCount h - 1)) with n' by lia. }
    { rewrite Hn1. lia. }
    exists h'. split_and!; [|done|done].
    simpl. by rewrite (bind_ret_step _ _ _ _ _ Hrem).
Qed.

Lemma insert_all_spec xs h :
  wf h → heap_ordered h →
  2 * (elementCount h + Z.of_nat (length xs)) ≤ UINT_MODULUS →
  ∃ h', insert_all xs h = Ret tt h' ∧ wf h' ∧ heap_ordered h'
        ∧ elementCount h' = elementCount h + Z.of_nat (length xs)
        ∧ contents h' ≡ₚ contents h ++ xs
        ∧ ∃ k : nat, capacity h' = capacity h * 2 ^ Z.of_nat k.
Proof.
  revert h. induction xs as [|x xs IH]; intros h Hwf Hheap Hsmall.
  - exists h. split_and!; try done; [simpl; lia|by rewrite app_nil_r|].
    exists 0%nat. simpl. lia.
  - simpl in Hsmall.
    destruct (insert_spec_small x h Hwf)
      as (h1 & Hins & Hwf1 & Hn1 & Hc1 & Hh1 & Hcap1); [lia|].
    destruct (IH h1) as (h' & Hrun & Hwf' & Hheap' & Hn' & Hc' & k & Hcap');
      auto; [lia|].
    exists h'. split_and!; [|done|done|simpl; lia| |].
    + simpl. by rewrite (bind_ret_step _ _ _ _ _ Hins).
    + rewrite Hc', Hc1. simpl. apply Permutation_middle.
    + rewrite Hcap', Hcap1.
      destruct (elementCount h =? capacity h); [|by exists k].
      exists (S k). rewrite Nat2Z.inj_succ, Z.pow_succ_r by lia. lia.
Qed.

Lemma drain_loop_spec (fuel : nat) (out : list T) h :
  wf h → heap_ordered h →
  2 * elementCount h ≤ UINT_MODULUS →
  (Z.to_nat (elementCount h) < fuel)%nat →
  ∃ ys h', drain_loop fuel out h = Ret (out ++ ys) h'
           ∧ ys ≡ₚ contents h
           ∧ StronglySorted le ys
           ∧ elementCount h' = 0.
Proof.
  revert out h. induction fuel as [|fuel IH];
    intros out h Hwf Hheap Hsmall Hfuel; [lia|].
  simpl. unfold bind at 1. unfold getElementCount, gets.
  destruct (Z.eqb_spec (elementCount h) 0) as [Hz|Hnz].
  - exists [], h. split_and!; [by rewrite app_nil_r| |constructor|done].
    unfold contents. by rewrite Hz.
  - pose proof Hwf as [_ Hn _].
    rewrite (bind_ret_step _ _ _ _ _ (retrieve_spec h Hwf ltac:(lia))).
    destruct (remove_spec h Hwf) as (h1 & Hrem & Hwf1 & Hn1 & _ & Hc1 & Hh1);
      [lia|lia|].
    rewrite (bind_ret_step _ _ _ _ _ Hrem).
    destruct (IH (out ++ [elements h @ 0]) h1)
      as (ys & h' & Hrun & Hperm & Hsorted & Hempty); auto; [lia|lia|].
    exists (elements h @ 0 :: ys), h'. split_and!.
    + by rewrite Hrun, <- app_assoc.
    + by rewrite Hperm.
    + constructor; [done|].
      apply Forall_forall. intros y Hy.
      apply (heap_ordered_min_at_root h Hwf Hheap).
      rewrite <- Hc1, <- Hperm. by right.
    + done.
Qed.

(** X23. Started on a new heap of positive capacity, a sequence of inserts
    and removes whose removes never meet an empty heap, and during which the
    heap never holds more than 2^31 elements, runs without failure, and after
    each operation, that is after every prefix of the sequence, no stored
    element is less than the one at index 0 and no element is less than its
    parent. *)
Theorem heap_property_after_each_operation (c : Z) ops (k : nat) :
  0 < c < UINT_MODULUS →
  2 * peak 0 ops ≤ UINT_MODULUS →
  removes_nonempty 0 ops = true →
  ∃ h, run_ops (take k ops) (BinaryHeap1 c) = Ret tt h
       ∧ (∀ x, x ∈ contents h → le (elements h @ 0) x)
       ∧ (∀ j, 0 < j < elementCount h →
               le (elements h @ ((j - 1) / 2)) (elements h @ j)).
Proof.
  intros Hc Hlen Hvalid.
  destruct (run_ops_spec (take k ops) (BinaryHeap1 c))
    as (h & Hrun & Hwf & Hheap).
  - by apply BinaryHeap1_wf.
  - apply BinaryHeap1_ordered.
  - by apply removes_nonempty_take.
  - simpl. pose proof (peak_take 0 ops k). lia.
  - exists h. split_and!; [done| |].
    + by apply heap_ordered_min_at_root.
    + intros j Hj. apply Hheap; [done|tauto].
Qed.

(** X24. Inserting any list of at most 2^31 elements into a new heap of
    positive capacity succeeds, however small the initial capacity: the
    capacity ends as the initial one doubled some number of times and holds
    all the elements, the heap property holds, and retrieving and removing
    until the heap is empty yields a permutation of the inserted elements in
    ascending order. *)
Theorem insert_then_drain_sorts (c : Z) (xs : list T) :
  0 < c < UINT_MODULUS →
  2 * Z.of_nat (length xs) ≤ UINT_MODULUS →
  ∃ h ys h',
    insert_all xs (BinaryHeap1 c) = Ret tt h
    ∧ (∃ k : nat, capacity h = c * 2 ^ Z.of_nat k)
    ∧ Z.of_nat (length xs) ≤ capacity h
    ∧ contents h ≡ₚ xs
    ∧ (∀ j, 0 < j < elementCount h →
            le (elements h @ ((j - 1) / 2)) (elements h @ j))
    ∧ drain h = Ret ys h'
    ∧ elementCount h' = 0
    ∧ ys ≡ₚ xs
    ∧ StronglySorted le ys.
Proof.
  intros Hc Hlen.
  destruct (insert_all_spec xs (BinaryHeap1 c))
    as (h & Hins & Hwf & Hheap & Hn & Hperm & Hcap).
  { by apply BinaryHeap1_wf. }
  { apply BinaryHeap1_ordered. }
  { simpl. lia. }
  simpl in Hn, Hperm, Hcap.
  destruct (drain_loop_spec (S (Z.to_nat (elementCount h))) [] h)
    as (ys & h' & Hdrain & Hys & Hsorted & Hempty); [done|done|lia|lia|].
  exists h, ys, h'. split_and!; try done.
  - destruct Hwf as [_ ? _]. lia.
  - intros j Hj. apply Hheap; [done|tauto].
  - by rewrite Hys.
Qed.

End HeapFacts.

(** *** Events as heap elements *)

#[export] Instance Event_ElementOrder : ElementOrder Event.
Proof.
  split; simpl; unfold Event.operator_lt, Event.operator_gt.
  - intros a b. apply Z.gtb_ltb.
  - intros a. apply Z.ltb_irrefl.
  - intros a b c ?%Z.ltb_lt ?%Z.ltb_lt. apply Z.ltb_lt. lia.
  - intros a b c ?%Z.ltb_lt.
    destruct (Z.ltb_spec (Event.time a) (Event.time c)); [by left|].
    right. apply Z.ltb_lt. lia.
Qed.

Lemma Event_le_time (a b : Event) :
  BinaryHeap.le a b ↔ Event.time a ≤ Event.time b.
Proof.
  unfold BinaryHeap.le. simpl. unfold Event.operator_lt.
  rewrite Z.ltb_ge. done.
Qed.

(** On events the heap order is the order of the times. Under
    [Event::operator<=], which also looks at the kinds, the root need not be
    least: a departure inserted before an arrival of the same time stays at
    the root. *)
Lemma event_heap_root_not_operator_le :
  ∃ h : BinaryHeap.BinaryHeap Event,
    BinaryHeap.insert_all [Event.Event2 DEPARTURE 5; Event.Event3 ARRIVAL 5 1]
      (BinaryHeap.BinaryHeap1 2) = Ret tt h
    ∧ BinaryHeap.contents h
      = [Event.Event2 DEPARTURE 5; Event.Event3 ARRIVAL 5 1]
    ∧ Event.operator_le (Event.Event2 DEPARTURE 5) (Event.Event3 ARRIVAL 5 1)
      = false.
Proof. eexists. split_and!; vm_compute; reflexivity. Qed.

(** A heap constructed with capacity 0 cannot grow: doubling 0 gives 0, and
    the first insertion writes outside the array. *)
Lemma insert_capacity_zero_undefined (x : Event) :
  BinaryHeap.insert x (BinaryHeap.BinaryHeap1 0) = Undefined.
Proof. reflexivity. Qed.

(** *** A heap of capacity 0 *)

Section HeapCapacityZero.
Context {T : Type} `{!ElementType T}.
Import BinaryHeap.

Lemma expandHeap_capacity_zero :
  expandHeap (BinaryHeap1 (T := T) 0) = Ret tt (BinaryHeap1 0).
Proof. reflexivity. Qed.

Lemma insert_into_capacity_zero (x : T) :
  insert x (BinaryHeap1 0) = Undefined.
Proof. reflexivity. Qed.

(** C2. The constructor accepts the capacity 0, and a heap built with it
    cannot take an element: the heap is full from the start, [expandHeap]
    doubles the capacity 0 to 0 and allocates an array without a slot, and
    [insert] then writes [elements[0]] outside that array. So already the
    sequence of the single operation [insert x], which has no remove, does
    not end with [x] at index 0: its behaviour is undefined, and so is that
    of every sequence that begins with an insert. *)
Theorem heap_of_capacity_zero_cannot_insert (x : T) (ops : list op) :
  removes_nonempty 0 [Insert x] = true
  ∧ elementCount (BinaryHeap1 (T := T) 0) = capacity (BinaryHeap1 (T := T) 0)
  ∧ expandHeap (BinaryHeap1 (T := T) 0) = Ret tt (BinaryHeap1 0)
  ∧ insert x (BinaryHeap1 0) = Undefined
  ∧ run_ops (Insert x :: ops) (BinaryHeap1 0) = Undefined.
Proof.
  split_and!; [done|done|apply expandHeap_capacity_zero| |].
  - apply insert_into_capacity_zero.
  - change (run_ops (Insert x :: ops) (BinaryHeap1 0))
      with (bind (bind (insert x) (λ _, ret tt)) (λ _, run_ops ops)
              (BinaryHeap1 0)).
    unfold bind at 1 2. by rewrite insert_into_capacity_zero.
Qed.

(** C6. With the initial capacity 0 every insertion is past the initial
    capacity, but the capacity does not grow: doubling 0 gives 0, the array
    that [expandHeap] allocates has no slot, and the first insertion writes
    outside it. Inserting a non-empty list has undefined behaviour, and so
    has inserting it and then retrieving and removing until the heap is
    empty. *)
Theorem growth_from_capacity_zero_is_undefined (x : T) (xs : list T) :
  (∃ h, expandHeap (BinaryHeap1 (T := T) 0) = Ret tt h
        ∧ capacity h = 0 ∧ elements h = [])
  ∧ insert_all (x :: xs) (BinaryHeap1 0) = Undefined
  ∧ (insert_all (x :: xs);; drain) (BinaryHeap1 0) = Undefined.
Proof.
  assert (insert_all (x :: xs) (BinaryHeap1 0) = Undefined) as Hall.
  { change (insert_all (x :: xs) (BinaryHeap1 0))
      with (bind (insert x) (λ _, insert_all xs) (BinaryHeap1 0)).
    unfold bind. by rewrite insert_into_capacity_zero. }
  split_and!; [|done|].
  - exists (BinaryHeap1 0). by rewrite expandHeap_capacity_zero.
  - unfold bind at 1. by rewrite Hall.
Qed.

End HeapCapacityZero.

Lemma heap_property_after_each_operation_witness :
  ∃ h : BinaryHeap.BinaryHeap Event,
    BinaryHeap.run_ops
      (take 4 [BinaryHeap.Insert (Event.Event3 ARRIVAL 7 2);
               BinaryHeap.Insert (Event.Event3 ARRIVAL 3 1);
               BinaryHeap.Insert (Event.Event2 DEPARTURE 5);
               BinaryHeap.Remove;
               BinaryHeap.Insert (Event.Event3 ARRIVAL 1 1)])
      (BinaryHeap.BinaryHeap1 2) = Ret tt h
    ∧ (∀ x, x ∈ BinaryHeap.contents h
            → BinaryHeap.le (BinaryHeap.elements h !!! Z.to_nat 0) x)
    ∧ (∀ j, 0 < j < BinaryHeap.elementCount h →
            BinaryHeap.le (BinaryHeap.elements h !!! Z.to_nat ((j - 1) / 2))
                          (BinaryHeap.elements h !!! Z.to_nat j)).
Proof.
  apply (heap_property_after_each_operation (T := Event) 2).
  - unfold UINT_MODULUS. lia.
  - unfold UINT_MODULUS. simpl. lia.
  - reflexivity.
Defined.

Lemma insert_then_drain_sorts_witness :
  let xs := [Event.Event3 ARRIVAL 9 1; Event.Event3 ARRIVAL 4 2;
             Event.Event2 DEPARTURE 6; Event.Event3 ARRIVAL 1 5;
             Event.Event2 DEPARTURE 4] in
  ∃ (h : BinaryHeap.BinaryHeap Event) ys h',
    BinaryHeap.insert_all xs (BinaryHeap.BinaryHeap1 2) = Ret tt h
    ∧ (∃ k : nat, BinaryHeap.capacity h = 2 * 2 ^ Z.of_nat k)
    ∧ Z.of_nat (length xs) ≤ BinaryHeap.capacity h
    ∧ BinaryHeap.contents h ≡ₚ xs
    ∧ (∀ j, 0 < j < BinaryHeap.elementCount h →
            BinaryHeap.le (BinaryHeap.elements h !!! Z.to_nat ((j - 1) / 2))
                          (BinaryHeap.elements h !!! Z.to_nat j))
    ∧ BinaryHeap.drain h = Ret ys h'
    ∧ BinaryHeap.elementCount h' = 0
    ∧ ys ≡ₚ xs
    ∧ StronglySorted BinaryHeap.le ys.
Proof.
  apply (insert_then_drain_sorts (T := Event) 2).
  - unfold UINT_MODULUS. lia.
  - unfold UINT_MODULUS. simpl. lia.
Defined.

(** ** PriorityQueue *)

Section PriorityQueueFacts.
Context {T : Type} `{!ElementType T}.
Import PriorityQueue.
Implicit Types (q : PriorityQueue T) (h : BinaryHeap.BinaryHeap T).

Lemma on_minheap_ret {A} (m : M (BinaryHeap.BinaryHeap T) A) q a h :
  m (minheap q) = Ret a h → on_minheap m q = Ret a (mk h).
Proof. intros Hm. unfold on_minheap, zoom. by rewrite Hm. Qed.

Lemma isEmpty_eq q :
  isEmpty q = Ret (BinaryHeap.elementCount (minheap q) =? 0) q.
Proof. by destruct q. Qed.

Lemma enqueue_eq x q :
  enqueue x q = on_minheap (BinaryHeap.insert x) q.
Proof. done. Qed.

Lemma dequeue_nonempty q :
  BinaryHeap.elementCount (minheap q) ≠ 0 →
  dequeue q = on_minheap BinaryHeap.remove q.
Proof.
  intros Hne. unfold dequeue. rewrite (bind_ret_step _ _ _ _ _ (isEmpty_eq q)).
  by apply Z.eqb_neq in Hne as ->.
Qed.

Lemma peek_nonempty q :
  BinaryHeap.elementCount (minheap q) ≠ 0 →
  peek q = on_minheap BinaryHeap.retrieve q.
Proof.
  intros Hne. unfold peek. rewrite (bind_ret_step _ _ _ _ _ (isEmpty_eq q)).
  by apply Z.eqb_neq in Hne as ->.
Qed.

Lemma dequeue_empty q :
  BinaryHeap.elementCount (minheap q) = 0 →
  dequeue q = Throw EmptyDataCollectionException q.
Proof.
  intros He. unfold dequeue. rewrite (bind_ret_step _ _ _ _ _ (isEmpty_eq q)).
  by rewrite He.
Qed.

Lemma peek_empty q :
  BinaryHeap.elementCount (minheap q) = 0 →
  peek q = Throw EmptyDataCollectionException q.
Proof.
  intros He. unfold peek. rewrite (bind_ret_step _ _ _ _ _ (isEmpty_eq q)).
  by rewrite He.
Qed.

End PriorityQueueFacts.

(** ** The emptiness contract *)

(** C4. On a heap, a priority queue or a FIFO queue that holds no element,
    [remove] and [retrieve], [dequeue] and [peek] throw
    [EmptyDataCollectionException], and the object is, at the throw, exactly
    as it was before the call. *)
Theorem empty_collection_contract {T U : Type} `{!ElementType T} :
  (∀ h : BinaryHeap.BinaryHeap T,
     BinaryHeap.elementCount h = 0 →
     BinaryHeap.remove h = Throw EmptyDataCollectionException h
     ∧ BinaryHeap.retrieve h = Throw EmptyDataCollectionException h)
  ∧ (∀ q : PriorityQueue.PriorityQueue T,
       BinaryHeap.elementCount (PriorityQueue.minheap q) = 0 →
       PriorityQueue.dequeue q = Throw EmptyDataCollectionException q
       ∧ PriorityQueue.peek q = Throw EmptyDataCollectionException q)
  ∧ (∀ q : Queue.Queue U,
       Queue.size q = 0 →
       Queue.dequeue q = Throw EmptyDataCollectionException q
       ∧ Queue.peek q = Throw EmptyDataCollectionException q).
Proof.
  split_and!.
  - intros h He.
    unfold BinaryHeap.remove, BinaryHeap.retrieve, bind, gets.
    by rewrite He.
  - intros q He. split; [by apply dequeue_empty|by apply peek_empty].
  - intros q He.
    unfold Queue.dequeue, Queue.peek, Queue.isEmpty, bind, gets.
    by rewrite He.
Qed.

Lemma empty_collection_contract_witness :
  (BinaryHeap.remove (BinaryHeap.BinaryHeap1 (T := Event) 2)
   = Throw EmptyDataCollectionException (BinaryHeap.BinaryHeap1 2)
   ∧ BinaryHeap.retrieve (BinaryHeap.BinaryHeap1 (T := Event) 2)
     = Throw EmptyDataCollectionException (BinaryHeap.BinaryHeap1 2))
  ∧ (PriorityQueue.dequeue (PriorityQueue.PriorityQueue0 (T := Event))
     = Throw EmptyDataCollectionException PriorityQueue.PriorityQueue0
     ∧ PriorityQueue.peek (PriorityQueue.PriorityQueue0 (T := Event))
       = Throw EmptyDataCollectionException PriorityQueue.PriorityQueue0)
  ∧ (Queue.dequeue (Queue.Queue0 (T := Event))
     = Throw EmptyDataCollectionException Queue.Queue0
     ∧ Queue.peek (Queue.Queue0 (T := Event))
       = Throw EmptyDataCollectionException Queue.Queue0).
Proof.
  destruct (empty_collection_contract (T := Event) (U := Event))
    as (Hheap & Hpq & Hq).
  split_and!.
  - apply Hheap. reflexivity.
  - apply Hheap. reflexivity.
  - apply Hpq. reflexivity.
  - apply Hpq. reflexivity.
  - apply Hq. reflexivity.
  - apply Hq. reflexivity.
Defined.

(** ** Queue *)

Section QueueFacts.
Context {T : Type}.
Import Queue.
Implicit Types (q : Queue T) (l xs : list T) (addrs : list positive).

Lemma Queue0_represents : represents (Queue0 (T := T)) [] [].
Proof.
  split; simpl; try done. apply NoDup_nil_2.
Qed.

Lemma represents_empty q addrs l :
  represents q addrs l → size q = 0 → l = [] ∧ addrs = [].
Proof.
  intros [Hsize _ Hlen _ _ _ _ _] Hz.
  assert (length l = 0%nat) as Hl by lia.
  split; apply length_zero_iff_nil; lia.
Qed.

Lemma represents_nil q :
  represents q [] [] → q = Queue0.
Proof.
  intros [Hsize _ _ Hdom _ Hhead Htail _]. destruct q as [n hd tl m].
  simpl in *. subst. unfold Queue0. f_equal.
  by apply dom_empty_iff_L.
Qed.

Lemma enqueue_spec x q addrs l :
  represents q addrs l → size q < INT_MAX →
  ∃ q' a, enqueue x q = Ret true q' ∧ represents q' (addrs ++ [a]) (l ++ [x]).
Proof.
  intros Hrep Hroom. pose proof Hrep as [Hsize Hint Hlen Hdom Hnd Hhead Htail Hnodes].
  destruct q as [n hd tl m]. simpl in *.
  set (a := fresh (dom m)).
  assert (a ∉ addrs) as Hfresh.
  { intros Hin. apply (is_fresh (dom m)). fold a.
    rewrite Hdom. by apply elem_of_list_to_set. }
  assert (INT_MIN ≤ n + 1 ≤ INT_MAX) as Hrange.
  { unfold INT_MIN, INT_MAX in *. lia. }
  destruct (decide (n = 0)) as [Hz|Hnz].
  - destruct (represents_empty _ _ _ Hrep Hz) as [-> ->].
    eexists _, a. split.
    + subst n. unfold enqueue, new_Node, bind, isEmpty, gets, modify. simpl.
      reflexivity.
    + split; simpl; fold a.
      * lia.
      * lia.
      * done.
      * rewrite dom_insert_L, Hdom. set_solver.
      * apply NoDup_singleton.
      * done.
      * done.
      * intros [|i] b [=]. subst b. exists x. split; [done|].
        apply lookup_insert_eq.
  - (* the node that [tail] points to *)
    assert (∃ t front xt, addrs = front ++ [t]
                          ∧ l !! length front = Some xt
                          ∧ m !! t = Some (mkNode xt None))
      as (t & front & xt & -> & Hxt & Ht).
    { destruct addrs as [|t front _] using rev_ind.
      - simpl in Hlen. lia.
      - exists t, front. destruct (Hnodes (length front) t) as (xt & ? & Hst).
        { by rewrite lookup_app_r, Nat.sub_diag by lia. }
        exists xt. split_and!; [done|done|].
        rewrite Hst. do 2 f_equal. apply lookup_ge_None_2.
        rewrite length_app. simpl. lia. }
    rewrite last_snoc in Htail.
    apply NoDup_app in Hnd as (Hndf & Hnt & _).
    assert (a ≠ t) as Hat.
    { intros ->. apply Hfresh, elem_of_app. right. by left. }
    eexists _, a. split.
    + unfold enqueue, new_Node, bind, isEmpty, gets, modify. simpl.
      apply Z.eqb_neq in Hnz as Hnz'. rewrite Hnz'.
      unfold assign_next, deref, bind, modify. simpl. rewrite Htail. fold a.
      rewrite lookup_insert_ne by done. rewrite Ht. simpl.
      rewrite int_op_ret by done. reflexivity.
    + split; simpl; fold a.
      * rewrite length_app. simpl. lia.
      * lia.
      * rewrite !length_app in *. simpl in *. lia.
      * rewrite !dom_insert_L, Hdom. apply set_eq. intros y.
        rewrite !elem_of_union, !elem_of_list_to_set, !elem_of_app,
          !list_elem_of_singleton, !elem_of_singleton. tauto.
      * apply NoDup_app. split_and!.
        -- apply NoDup_app. split_and!; [done|done|apply NoDup_singleton].
        -- intros y Hy [=->]%list_elem_of_singleton. by apply Hfresh.
        -- apply NoDup_singleton.
      * rewrite Hhead. destruct front; done.
      * by rewrite last_snoc.
      * intros i b Hb.
        destruct (decide (i < length front)%nat) as [Hi|Hi].
        { (* a node before the old tail *)
          rewrite <- app_assoc in Hb. rewrite lookup_app_l in Hb by done.
          destruct (Hnodes i b) as (y & Hy & Hsy).
          { by rewrite lookup_app_l. }
          exists y. split.
          - apply lookup_app_l_Some. done.
          - assert (b ≠ t).
            { intros ->. apply (Hnt t); [|by left].
              by eapply list_elem_of_lookup_2. }
            assert (b ≠ a).
            { intros ->. apply Hfresh. apply elem_of_app. left.
              by eapply list_elem_of_lookup_2. }
            rewrite !lookup_insert_ne by done. rewrite Hsy. do 2 f_equal.
            rewrite <- app_assoc.
            destruct (decide (S i < length front)%nat).
            + by rewrite !lookup_app_l by done.
            + assert (S i = length front) as -> by lia.
              rewrite !lookup_app_r, Nat.sub_diag by lia. done. }
        destruct (decide (i = length front)) as [->|Hi'].
        { (* the old tail *)
          rewrite <- app_assoc in Hb.
          rewrite lookup_app_r, Nat.sub_diag in Hb by lia.
          simpl in Hb. injection Hb as <-.
          exists xt. split.
          - by apply lookup_app_l_Some.
          - rewrite lookup_insert_eq. do 2 f_equal.
            rewrite lookup_app_r by (rewrite length_app; simpl; lia).
            rewrite length_app. simpl.
            by replace (S (length front) - (length front + 1))%nat
              with 0%nat by lia. }
        { (* the new node *)
          assert (i = length (front ++ [t])) as ->.
          { apply lookup_lt_Some in Hb. rewrite !length_app in *.
            simpl in *. lia. }
          rewrite lookup_app_r, Nat.sub_diag in Hb by lia.
          simpl in Hb. injection Hb as <-.
          exists x. split.
          - rewrite Hlen. by rewrite lookup_app_r, Nat.sub_diag by lia.
          - rewrite lookup_insert_ne by done. rewrite lookup_insert_eq.
            do 2 f_equal. symmetry. apply lookup_ge_None_2.
            rewrite !length_app. simpl. lia. }
Qed.

Lemma peek_spec q a addrs x l :
  represents q (a :: addrs) (x :: l) → peek q = Ret x q.
Proof.
  intros [Hsize Hint Hlen Hdom Hnd Hhead Htail Hnodes].
  destruct (Hnodes 0%nat a eq_refl) as (x' & [= <-] & Hst).
  destruct q as [n hd tl m]. simpl in *. subst hd.
  unfold peek, bind, isEmpty, gets, deref. simpl.
  destruct (Z.eqb_spec n 0) as [Hz|_]; [lia|].
  simpl. by rewrite Hst.
Qed.

Lemma dequeue_spec q a addrs x l :
  represents q (a :: addrs) (x :: l) →
  ∃ q', dequeue q = Ret tt q' ∧ represents q' addrs l.
Proof.
  intros [Hsize Hint Hlen Hdom Hnd Hhead Htail Hnodes].
  destruct (Hnodes 0%nat a eq_refl) as (x' & [= <-] & Hst).
  destruct q as [n hd tl m]. simpl in *. subst hd.
  apply NoDup_cons in Hnd as [Ha Hnd].
  assert (INT_MIN ≤ n - 1 ≤ INT_MAX) as Hrange.
  { unfold INT_MIN, INT_MAX in *. lia. }
  exists (mk (n - 1) (addrs !! 0%nat)
             (if n - 1 =? 0 then None else tl) (delete a m)).
  split.
  - unfold dequeue, bind, isEmpty, gets, modify, deref, delete_Node. simpl.
    destruct (Z.eqb_spec n 0) as [Hz|_]; [lia|].
    unfold bind, deref, modify. simpl. rewrite Hst. simpl. rewrite Hst. simpl.
    rewrite int_op_ret by done. simpl.
    by destruct (n - 1 =? 0).
  - split; simpl.
    + lia.
    + lia.
    + lia.
    + rewrite dom_delete_L, Hdom. apply set_eq. intros y.
      rewrite elem_of_difference, elem_of_union, !elem_of_list_to_set,
        elem_of_singleton.
      split; [tauto|]. intros Hy. split; [by right|]. by intros ->.
    + done.
    + done.
    + destruct addrs as [|b addrs].
      * simpl in *. by replace n with 1 by lia.
      * simpl in *. destruct (Z.eqb_spec (n - 1) 0); [lia|].
        rewrite Htail. done.
    + intros i b Hb.
      destruct (Hnodes (S i) b Hb) as (y & Hy & Hsy).
      exists y. split; [done|].
      rewrite lookup_delete_ne; [done|].
      intros ->. apply Ha. by eapply list_elem_of_lookup_2.
Qed.

Lemma enqueue_all_spec xs q addrs l :
  represents q addrs l →
  size q + Z.of_nat (length xs) ≤ INT_MAX →
  ∃ q' addrs', enqueue_all xs q = Ret tt q' ∧ represents q' addrs' (l ++ xs).
Proof.
  revert q addrs l. induction xs as [|x xs IH]; intros q addrs l Hrep Hroom.
  - exists q, addrs. by rewrite app_nil_r.
  - simpl in Hroom.
    destruct (enqueue_spec x q addrs l Hrep) as (q1 & a & Henq & Hrep1); [lia|].
    destruct (IH q1 _ _ Hrep1) as (q' & addrs' & Hrun & Hrep').
    { rewrite (rep_size _ _ _ Hrep1), length_app.
      rewrite (rep_size _ _ _ Hrep) in Hroom. simpl. lia. }
    exists q', addrs'. split.
    + simpl. by rewrite (bind_ret_step _ _ _ _ _ Henq).
    + by rewrite <- app_assoc in Hrep'.
Qed.

Lemma dequeue_n_spec l1 l2 out q addrs :
  represents q addrs (l1 ++ l2) →
  ∃ q' addrs', dequeue_n (length l1) out q = Ret (out ++ l1) q'
               ∧ represents q' addrs' l2.
Proof.
  revert out q addrs. induction l1 as [|x l1 IH]; intros out q addrs Hrep.
  - exists q, addrs. by rewrite app_nil_r.
  - destruct addrs as [|a addrs].
    { by destruct Hrep as [_ _ ? _ _ _ _ _]. }
    simpl in Hrep.
    destruct (dequeue_spec _ _ _ _ _ Hrep) as (q1 & Hdeq & Hrep1).
    destruct (IH (out ++ [x]) q1 addrs Hrep1) as (q' & addrs' & Hrun & Hrep').
    exists q', addrs'. split; [|done].
    simpl. rewrite (bind_ret_step _ _ _ _ _ (peek_spec _ _ _ _ _ Hrep)).
    rewrite (bind_ret_step _ _ _ _ _ Hdeq).
    by rewrite Hrun, <- app_assoc.
Qed.

(** C7. Enqueueing e1, ..., en (n at most INT_MAX) on a new queue and then
    peeking and dequeueing n times returns e1, ..., en in that order, and
    leaves the queue as a new one: empty, with null head and tail and no
    node allocated. *)
Theorem fifo_order xs :
  Z.of_nat (length xs) ≤ INT_MAX →
  ∃ q, enqueue_all xs Queue0 = Ret tt q
       ∧ size q = Z.of_nat (length xs)
       ∧ dequeue_n (length xs) [] q = Ret xs Queue0.
Proof.
  intros Hlen.
  destruct (enqueue_all_spec xs Queue0 [] [] Queue0_represents)
    as (q & addrs & Henq & Hrep); [simpl; lia|].
  simpl in Hrep.
  destruct (dequeue_n_spec xs [] [] q addrs) as (q' & addrs' & Hdeq & Hrep').
  { by rewrite app_nil_r. }
  exists q. split_and!; [done|apply (rep_size _ _ _ Hrep)|].
  assert (addrs' = []) as ->.
  { destruct Hrep' as [_ _ Hl _ _ _ _ _]. by apply length_zero_iff_nil. }
  by rewrite Hdeq, (represents_nil _ Hrep').
Qed.

End QueueFacts.

Lemma fifo_order_witness :
  ∃ q : Queue.Queue Z,
    Queue.enqueue_all [5; 3; 8; 3] Queue.Queue0 = Ret tt q
    ∧ Queue.size q = 4
    ∧ Queue.dequeue_n 4 [] q = Ret [5; 3; 8; 3] Queue.Queue0.
Proof.
  apply (fifo_order [5; 3; 8; 3]). unfold INT_MAX. simpl. lia.
Defined.

(** ** The simulation *)

(** *** Concrete runs *)

(** With the arrivals (0,2), (1,1) and (2,1) the departure of the first
    customer and the arrival of the third fall on time 2, and the run
    processes the departure first. *)
Lemma departure_processed_before_simultaneous_arrival :
  ∃ s, BankSimApp.main [(0, 2); (1, 1); (2, 1)] = Ret 0 s
       ∧ take 5 (BankSimApp.cout s)
         = [BankSimApp.SimulationBegins;
            BankSimApp.Processing ARRIVAL 0;
            BankSimApp.Processing ARRIVAL 1;
            BankSimApp.Processing DEPARTURE 2;
            BankSimApp.Processing ARRIVAL 2].
Proof. eexists. split; vm_compute; reflexivity. Qed.

(** C5. On the input (0,10), (2,3): the first customer is served on arrival
    and departs at 10; the second arrives at 2 and waits; at time 10 the
    second is taken from the line with a wait of 8 and departs at 13; the run
    ends with 2 customers, a total wait of 8 and the average 4.0. *)
Theorem scenario_two_customers :
  let input := [(0, 10); (2, 3)] in
  let A2 := Event.Event3 ARRIVAL 2 3 in
  let D t := Event.Event2 DEPARTURE t in
  BankSimApp.observe (BankSimApp.setup input;; BankSimApp.iterate 1)
    = Some (0, false, 0, [A2; D 10], [])
  ∧ BankSimApp.observe (BankSimApp.setup input;; BankSimApp.iterate 2)
    = Some (2, false, 0, [D 10], [A2])
  ∧ BankSimApp.observe (BankSimApp.setup input;; BankSimApp.iterate 3)
    = Some (10, false, 8, [D 13], [])
  ∧ BankSimApp.observe (BankSimApp.setup input;; BankSimApp.iterate 4)
    = Some (13, true, 8, [], [])
  ∧ ∃ s, BankSimApp.main input = Ret 0 s
         ∧ BankSimApp.customerCount s = 2
         ∧ BankSimApp.cumulativeWaitTime s = 8
         ∧ BankSimApp.cout s
           = [BankSimApp.SimulationBegins;
              BankSimApp.Processing ARRIVAL 0;
              BankSimApp.Processing ARRIVAL 2;
              BankSimApp.Processing DEPARTURE 10;
              BankSimApp.Processing DEPARTURE 13;
              BankSimApp.SimulationEnds;
              BankSimApp.TotalProcessed 2;
              BankSimApp.AverageWait (float_of_int 4)].
Proof.
  simpl. split_and!; try (vm_compute; reflexivity).
  eexists. split_and!; vm_compute; reflexivity.
Qed.

(** *** Calls on the members of the state *)

Section SimulationSteps.
Import BankSimApp.
Implicit Types (s : state) (ws : list Event) (e : Event)
  (h : BinaryHeap.BinaryHeap Event) (q : Queue.Queue Event).

Lemma bind_modify {S B} (f : S → S) (k : unit → M S B) (s : S) :
  bind (modify f) k s = k tt (f s).
Proof. done. Qed.

Lemma bind_gets {S A B} (f : S → A) (k : A → M S B) (s : S) :
  bind (gets f) k s = k (f s) s.
Proof. done. Qed.

Lemma bind_print {B} (o : output) (k : unit → M state B) s :
  bind (print o) k s
  = k tt (mk (bankLine s) (eventPriorityQueue s) (tellerAvailable s)
             (simulationTime s) (customerCount s) (cumulativeWaitTime s)
             (cout s ++ [o])).
Proof. done. Qed.

Lemma bind_int_op {S B} (z : Z) (k : Z → M S B) (s : S) :
  bind (int_op z) k s = if in_int z then k z s else Undefined.
Proof. unfold bind, int_op. by destruct (in_int z). Qed.

Lemma on_events_isEmpty s :
  on_eventPriorityQueue PriorityQueue.isEmpty s
  = Ret (BinaryHeap.elementCount (heap s) =? 0) s.
Proof.
  unfold on_eventPriorityQueue, zoom. rewrite isEmpty_eq.
  by destruct s as [? [?] ? ? ? ? ?].
Qed.

Lemma on_events_peek s :
  BinaryHeap.wf (heap s) → BinaryHeap.elementCount (heap s) ≠ 0 →
  on_eventPriorityQueue PriorityQueue.peek s = Ret (next_event s) s.
Proof.
  intros Hwf Hne. unfold on_eventPriorityQueue, zoom.
  rewrite peek_nonempty by done.
  rewrite (on_minheap_ret _ _ _ _ (retrieve_spec _ Hwf ltac:(destruct Hwf; unfold heap in *; lia))).
  by destruct s as [? [?] ? ? ? ? ?].
Qed.

Lemma on_events_dequeue s h' :
  BinaryHeap.elementCount (heap s) ≠ 0 →
  BinaryHeap.remove (heap s) = Ret tt h' →
  on_eventPriorityQueue PriorityQueue.dequeue s = Ret tt (set_heap h' s).
Proof.
  intros Hne Hrem. unfold on_eventPriorityQueue, zoom.
  rewrite dequeue_nonempty by done.
  by rewrite (on_minheap_ret _ _ _ _ Hrem).
Qed.

Lemma on_events_enqueue s x h' :
  BinaryHeap.insert x (heap s) = Ret true h' →
  on_eventPriorityQueue (PriorityQueue.enqueue x) s = Ret true (set_heap h' s).
Proof.
  intros Hins. unfold on_eventPriorityQueue, zoom.
  by rewrite enqueue_eq, (on_minheap_ret _ _ _ _ Hins).
Qed.

Lemma on_line_isEmpty s :
  on_bankLine Queue.isEmpty s = Ret (Queue.size (bankLine s) =? 0) s.
Proof. by destruct s. Qed.

Lemma on_line_ret {A} (m : M (Queue.Queue Event) A) s a q' :
  m (bankLine s) = Ret a q' → on_bankLine m s = Ret a (set_bankLine q' s).
Proof. intros Hm. unfold on_bankLine, zoom. by rewrite Hm. Qed.

Lemma on_line_peek s x :
  Queue.peek (bankLine s) = Ret x (bankLine s) → on_bankLine Queue.peek s = Ret x s.
Proof.
  intros Hm. rewrite (on_line_ret _ _ _ _ Hm). by destruct s.
Qed.

(** The next event is a least one. *)
Lemma next_event_least s ws x :
  shape_inv s ws → x ∈ agenda s → Event.time (next_event s) ≤ Event.time x.
Proof.
  intros [Hwf Hord _ _ _] Hx.
  apply Event_le_time.
  by apply (heap_ordered_min_at_root (heap s)).
Qed.

#[local] Arguments BinaryHeap.insert : simpl never.
#[local] Arguments BinaryHeap.remove : simpl never.
#[local] Arguments BinaryHeap.retrieve : simpl never.
#[local] Arguments Queue.enqueue : simpl never.
#[local] Arguments Queue.dequeue : simpl never.
#[local] Arguments Queue.peek : simpl never.
#[local] Arguments PriorityQueue.enqueue : simpl never.
#[local] Arguments PriorityQueue.dequeue : simpl never.
#[local] Arguments PriorityQueue.peek : simpl never.
#[local] Arguments in_int : simpl never.

Lemma represents_size_zero q addrs ws :
  Queue.represents q addrs ws → (Queue.size q =? 0) = true → ws = [].
Proof.
  intros Hrep Hz%Z.eqb_eq. by destruct (represents_empty _ _ _ Hrep Hz).
Qed.

Lemma represents_size_nonzero q addrs ws :
  Queue.represents q addrs ws → (Queue.size q =? 0) = false →
  ∃ c ws' a addrs', ws = c :: ws' ∧ addrs = a :: addrs'.
Proof.
  intros [Hsize _ Hlen _ _ _ _ _] Hz%Z.eqb_neq.
  destruct ws as [|c ws']; [simpl in *; lia|].
  destruct addrs as [|a addrs']; [done|]. by exists c, ws', a, addrs'.
Qed.

(** The fields of [shape_inv] for a state that is given by its updates. *)
Ltac shape_fields :=
  split; unfold heap, set_heap in *; simpl in *;
  first [done | by eexists | lia | auto].

Lemma loop_body_spec s ws :
  shape_inv s ws → BinaryHeap.elementCount (heap s) ≠ 0 →
  match loop_body s with
  | Ret _ s' =>
      ∃ ws', step_rel s ws s' ws' ∧ shape_inv s' ws'
             ∧ customerCount s' = customerCount s
  | Undefined => overflows s ws
  | _ => False
  end.
Proof.
  intros [Hwf Hord [addrs Hrep] Hcount Hcust] Hne.
  pose proof Hwf as [_ Hn _].
  assert (INT_MAX = 2147483647 ∧ UINT_MODULUS = 4294967296) as [HIM HUM] by done.
  pose proof (Queue.rep_size _ _ _ Hrep) as Hsize.
  destruct (remove_spec (heap s) Hwf)
    as (h1 & Hrem & Hwf1 & Hn1 & _ & Hperm1 & Hord1); [lia|lia|].
  specialize (Hord1 Hord).
  change (BinaryHeap.elements (heap s) !!! Z.to_nat 0 :: BinaryHeap.contents h1
          ≡ₚ agenda s) in Hperm1.
  change (BinaryHeap.elements (heap s) !!! Z.to_nat 0)
    with (next_event s) in Hperm1.
  set (e := next_event s) in *.
  unfold loop_body, processArrival, processDeparture, outputEventProcessing,
    Event.getTime, Event.getLength.
  rewrite (bind_ret_step _ _ _ _ _ (on_events_peek s Hwf Hne)).
  fold e. rewrite bind_modify.
  destruct (Event.isArrival e) eqn:Harr.
  - (* arrival *)
    rewrite bind_print.
    erewrite bind_ret_step by (by apply on_events_dequeue).
    rewrite (bind_ret_step _ _ _ _ _ (on_line_isEmpty _)), bind_gets. simpl.
    destruct ((Queue.size (bankLine s) =? 0) && tellerAvailable s) eqn:Hfree.
    + apply andb_prop in Hfree as [Hempty Hteller].
      pose proof (represents_size_zero _ _ _ Hrep Hempty) as ->.
      rewrite bind_gets, bind_int_op. simpl.
      destruct (in_int (Event.time e + Event.length e)) eqn:Hin.
      * destruct (insert_spec_small
                    (Event.Event2 DEPARTURE (Event.time e + Event.length e)) h1 Hwf1)
          as (h2 & Hins & Hwf2 & Hn2 & Hperm2 & Hord2 & _); [lia|].
        erewrite bind_ret_step by (by apply on_events_enqueue).
        unfold modify. exists []. split_and!.
        -- eapply step_arrival_served; try done; fold e; try done.
        -- shape_fields.
        -- done.
      * unfold overflows. fold e. rewrite Harr. done.
    + edestruct (enqueue_spec e (bankLine s)) as (q' & a & Henq & Hrep');
        [done| |].
      { simpl in *. lia. }
      erewrite bind_ret_step by (by apply on_line_ret).
      exists (ws ++ [e]). split_and!.
      * eapply step_arrival_waits; try done; fold e; try done.
        apply andb_false_iff in Hfree as [Hsz|Ht]; [left|by right].
        intros ->. simpl in *. rewrite Hsize in Hsz. done.
      * shape_fields.
        rewrite length_app. simpl in *. lia.
      * done.
  - (* departure *)
    rewrite bind_print.
    erewrite bind_ret_step by (by apply on_events_dequeue).
    rewrite (bind_ret_step _ _ _ _ _ (on_line_isEmpty _)). simpl.
    destruct (Queue.size (bankLine s) =? 0) eqn:Hempty; simpl.
    + pose proof (represents_size_zero _ _ _ Hrep Hempty) as ->.
      unfold modify. exists []. split_and!.
      * eapply step_departure_idle; try done; fold e; try done.
      * shape_fields.
      * done.
    + destruct (represents_size_nonzero _ _ _ Hrep Hempty)
        as (c & ws' & a & addrs' & -> & ->).
      erewrite bind_ret_step
        by (apply on_line_peek; simpl; by eapply peek_spec).
      destruct (dequeue_spec _ _ _ _ _ Hrep) as (q' & Hdeq & Hrep').
      erewrite bind_ret_step by (by apply on_line_ret).
      rewrite bind_gets, bind_int_op. simpl.
      destruct (in_int (Event.time e - Event.time c)) eqn:Hin1; simpl.
      2:{ unfold overflows. fold e. rewrite Harr. exists c, ws'.
          split; [done|]. by rewrite Hin1. }
      rewrite bind_gets, bind_int_op. simpl.
      destruct (in_int (cumulativeWaitTime s + (Event.time e - Event.time c)))
        eqn:Hin2; simpl.
      2:{ unfold overflows. fold e. rewrite Harr. exists c, ws'.
          split; [done|]. rewrite Hin1, Hin2. done. }
      rewrite bind_modify, bind_int_op. simpl.
      destruct (in_int (Event.time e + Event.length c)) eqn:Hin3; simpl.
      2:{ unfold overflows. fold e. rewrite Harr. exists c, ws'.
          split; [done|]. rewrite Hin1, Hin2, Hin3. done. }
      destruct (insert_spec_small
                  (Event.Event2 DEPARTURE (Event.time e + Event.length c)) h1 Hwf1)
        as (h2 & Hins & Hwf2 & Hn2 & Hperm2 & Hord2 & _); [lia|].
      erewrite bind_ret_step by (by apply on_events_enqueue).
      unfold ret. exists ws'. split_and!.
      * eapply step_departure_next; try done; fold e; try done.
      * shape_fields.
      * done.
Qed.

(** *** Reading the input *)

Lemma read_customers_spec input s :
  BinaryHeap.wf (heap s) → BinaryHeap.heap_ordered (heap s) →
  BinaryHeap.elementCount (heap s) ≤ customerCount s ≤ INT_MAX →
  match read_customers input s with
  | Ret _ s' =>
      BinaryHeap.wf (heap s') ∧ BinaryHeap.heap_ordered (heap s')
      ∧ agenda s' ≡ₚ agenda s ++ arrivals input
      ∧ BinaryHeap.elementCount (heap s')
        = BinaryHeap.elementCount (heap s) + Z.of_nat (length (arrivals input))
      ∧ customerCount s'
        = customerCount s + Z.of_nat (length (arrivals input))
      ∧ customerCount s' ≤ INT_MAX
      ∧ bankLine s' = bankLine s
      ∧ tellerAvailable s' = tellerAvailable s
      ∧ simulationTime s' = simulationTime s
      ∧ cumulativeWaitTime s' = cumulativeWaitTime s
      ∧ cout s' = cout s
  | Undefined =>
      INT_MAX < customerCount s + Z.of_nat (length (arrivals input))
  | _ => False
  end.
Proof.
  assert (INT_MAX = 2147483647 ∧ INT_MIN = -2147483648
          ∧ UINT_MODULUS = 4294967296) as (HIM & HIm & HUM) by done.
  revert s. induction input as [|[arriveTime processTime] input IH];
    intros s Hwf Hord Hn.
  - simpl. rewrite app_nil_r. split_and!; try done; simpl; lia.
  - simpl. destruct (in_int arriveTime && in_int processTime) eqn:Hin.
    2:{ simpl. rewrite app_nil_r. split_and!; try done; simpl; lia. }
    set (x := Event.Event3 ARRIVAL arriveTime processTime).
    destruct (insert_spec_small x (heap s) Hwf)
      as (h1 & Hins & Hwf1 & Hn1 & Hperm1 & Hord1 & _); [lia|].
    erewrite bind_ret_step by (by apply on_events_enqueue).
    rewrite bind_gets, bind_int_op. simpl.
    destruct (in_int (customerCount s + 1)) eqn:Hroom.
    2:{ apply andb_false_iff in Hroom.
        rewrite !Z.leb_gt in Hroom. pose proof Hwf as [_ ? _]. lia. }
    apply andb_prop in Hroom as [_ Hroom%Z.leb_le].
    rewrite bind_modify.
    set (s1 := set_customerCount _ _).
    specialize (IH s1 Hwf1 (Hord1 Hord)).
    destruct (read_customers input s1) as [[] s'| | |].
    + destruct IH as (? & ? & Hag & Hcnt & Hcc & ? & ? & ? & ? & ? & ?).
      { subst s1. unfold heap in *. simpl in *. lia. }
      split_and!; try done.
      * rewrite Hag. change (agenda s1) with (BinaryHeap.contents h1).
        rewrite Hperm1. simpl. by rewrite Permutation_middle.
      * rewrite Hcnt. subst s1. unfold heap in *. simpl in *. lia.
      * rewrite Hcc. subst s1. simpl. lia.
    + apply IH. subst s1. unfold heap in *. simpl in *. lia.
    + simpl. assert (INT_MAX < customerCount s1
                       + Z.of_nat (length (arrivals input))) as Hover.
      { apply IH. subst s1. unfold heap in *. simpl in *. lia. }
      subst s1. simpl in Hover. lia.
    + apply IH. subst s1. unfold heap in *. simpl in *. lia.
Qed.

Lemma setup_spec input :
  match setup input initial_state with
  | Ret _ s =>
      shape_inv s []
      ∧ agenda s ≡ₚ arrivals input
      ∧ customerCount s = Z.of_nat (length (arrivals input))
      ∧ BinaryHeap.elementCount (heap s) = customerCount s
      ∧ tellerAvailable s = true
      ∧ simulationTime s = 0
      ∧ cumulativeWaitTime s = 0
  | Undefined => INT_MAX < Z.of_nat (length (arrivals input))
  | _ => False
  end.
Proof.
  unfold setup. rewrite bind_print.
  set (s0 := mk _ _ _ _ _ _ _).
  pose proof (read_customers_spec input s0) as Hread.
  destruct (read_customers input s0) as [[] s| | |].
  - destruct Hread as (Hwf & Hord & Hag & Hcnt & Hcc & Hmax & Hline & ? & ? & ? & ?).
    { by apply BinaryHeap1_wf. }
    { apply BinaryHeap1_ordered. }
    { simpl. done. }
    simpl in *. split_and!; try done; [|lia].
    split; try done.
    + exists []. rewrite Hline. apply Queue0_represents.
    + simpl. lia.
  - apply Hread; [by apply BinaryHeap1_wf|apply BinaryHeap1_ordered|done].
  - apply Hread; [by apply BinaryHeap1_wf|apply BinaryHeap1_ordered|done].
  - apply Hread; [by apply BinaryHeap1_wf|apply BinaryHeap1_ordered|done].
Qed.

(** *** The teller *)

Lemma departures_cons e l :
  departures (e :: l)
  = if Event.isArrival e then departures l else e :: departures l.
Proof.
  unfold departures. rewrite filter_cons.
  destruct (Event.isArrival e); by case_decide.
Qed.

Lemma departures_perm l1 l2 : l1 ≡ₚ l2 → departures l1 ≡ₚ departures l2.
Proof. unfold departures. by intros ->. Qed.

Lemma departures_nil_iff l :
  departures l = [] ↔ existsb (λ e, negb (Event.isArrival e)) l = false.
Proof.
  induction l as [|e l IH]; [done|].
  rewrite departures_cons. simpl. destruct (Event.isArrival e); simpl; [done|].
  split; intros [=].
Qed.

Lemma departures_arrivals input : departures (arrivals input) = [].
Proof.
  induction input as [|[a p] input IH]; [done|].
  simpl. destruct (in_int a && in_int p); [|done].
  by rewrite departures_cons.
Qed.

Lemma step_teller_inv s ws s' ws' :
  teller_inv s ws → step_rel s ws s' ws' → teller_inv s' ws'.
Proof.
  unfold teller_inv. intros Hinv Hstep.
  destruct Hstep as [rest e Hag Harr Hws Hfree _ Hag' Hfree' _ _
                    |rest e Hag Harr Hbusy Hag' Hfree' _ _
                    |rest c ws' e w Hag Harr Hws _ _ _ Hag' Hfree' _ _
                    |rest e Hag Harr Hws Hag' Hfree' _ _];
    apply departures_perm in Hag, Hag';
    rewrite departures_cons in Hag; subst e; rewrite Harr in Hag;
    rewrite Hfree'.
  - rewrite Hfree in Hinv. destruct Hinv as [_ Hnone].
    rewrite Hnone in Hag. rewrite Hag', departures_cons. simpl.
    apply Permutation_nil_r in Hag. by rewrite Hag.
  - destruct (tellerAvailable s).
    + destruct Hinv as [-> _]. by destruct Hbusy.
    + by rewrite Hag', Hag.
  - rewrite departures_cons in Hag'. simpl in Hag'.
    destruct (tellerAvailable s).
    + destruct Hinv as [_ Hnone]. rewrite Hnone in Hag.
      by apply Permutation_nil_r in Hag.
    + rewrite <- Hag in Hinv. simpl in Hinv.
      rewrite Hag'. simpl. done.
  - destruct (tellerAvailable s).
    + destruct Hinv as [_ Hnone]. rewrite Hnone in Hag.
      by apply Permutation_nil_r in Hag.
    + rewrite <- Hag in Hinv. simpl in Hinv.
      split; [done|].
      apply Permutation_nil_r. rewrite Hag'.
      destruct (departures rest); [done|simpl in Hinv; lia].
Qed.

Lemma loop_body_ret_nonempty s s' :
  loop_body s = Ret tt s' → BinaryHeap.elementCount (heap s) ≠ 0.
Proof.
  intros Hrun Hz. unfold loop_body in Hrun.
  assert (on_eventPriorityQueue PriorityQueue.peek s
          = Throw EmptyDataCollectionException s) as Hpeek.
  { unfold on_eventPriorityQueue, zoom. rewrite peek_empty by done.
    by destruct s. }
  by rewrite (bind_throw_step _ _ _ _ _ Hpeek) in Hrun.
Qed.

Lemma reachable_shape input s :
  reachable input s → ∃ ws, shape_inv s ws ∧ teller_inv s ws.
Proof.
  induction 1 as [s Hstart|s s' _ (ws & Hshape & Hteller) Hne Hrun].
  - pose proof (setup_spec input) as Hsetup. rewrite Hstart in Hsetup.
    destruct Hsetup as (Hshape & Hag & _ & _ & Hfree & _).
    exists []. split; [done|].
    unfold teller_inv. rewrite Hfree. split; [done|].
    apply Permutation_nil_r. rewrite (departures_perm _ _ Hag).
    by rewrite departures_arrivals.
  - pose proof (loop_body_spec s ws Hshape (loop_body_ret_nonempty _ _ Hrun))
      as Hstep.
    rewrite Hrun in Hstep. destruct Hstep as (ws' & Hstep & Hshape' & _).
    exists ws'. split; [done|]. by eapply step_teller_inv.
Qed.

(** C8. In every state at the head of the event loop, reached from the
    initial state by reading any input and processing events, the teller is
    available exactly when the waiting line is empty and no departure is
    pending (no customer is in service); in particular an available teller
    means an empty line. *)
Theorem teller_available_iff_idle input s :
  reachable input s →
  (tellerAvailable s = true ↔ line_empty s = true ∧ in_service s = false)
  ∧ (tellerAvailable s = true → waiting s = []).
Proof.
  intros (ws & [_ _ [addrs Hrep] _ _] & Hteller)%reachable_shape.
  pose proof (Queue.rep_size _ _ _ Hrep) as Hsize.
  unfold teller_inv in Hteller. unfold line_empty, in_service, waiting.
  rewrite <- departures_nil_iff.
  destruct (tellerAvailable s).
  - destruct Hteller as [-> Hnone]. simpl in Hsize.
    split; [split; [|done]|].
    + intros _. split; [by apply Z.eqb_eq|done].
    + intros _. unfold Queue.to_list. by rewrite Hsize.
  - split; [|done]. split; [done|].
    intros [_ Hnone]. by rewrite Hnone in Hteller.
Qed.

(** *** The clock and the total wait *)

Lemma service_app l1 l2 : service (l1 ++ l2) = service l1 + service l2.
Proof. induction l1 as [|e l1 IH]; simpl; lia. Qed.

Lemma service_perm l1 l2 : l1 ≡ₚ l2 → service l1 = service l2.
Proof. induction 1; simpl; lia. Qed.

Lemma service_nonneg l :
  (∀ e, e ∈ l → 0 ≤ Event.length e) → 0 ≤ service l.
Proof.
  induction l as [|e l IH]; intros Hl; simpl; [done|].
  assert (0 ≤ Event.length e) by (apply Hl; by left).
  assert (0 ≤ service l) by (apply IH; intros; apply Hl; by right).
  lia.
Qed.

Lemma service_elem l e :
  (∀ x, x ∈ l → 0 ≤ Event.length x) → e ∈ l → Event.length e ≤ service l.
Proof.
  intros Hl (k & Hk)%elem_of_Permutation.
  rewrite (service_perm _ _ Hk). simpl.
  assert (0 ≤ service k); [|lia].
  apply service_nonneg. intros x Hx. apply Hl. rewrite Hk. by right.
Qed.

Lemma agenda_length s :
  BinaryHeap.wf (heap s) →
  Z.of_nat (length (agenda s)) = BinaryHeap.elementCount (heap s).
Proof. apply length_contents. Qed.

Lemma next_event_in_agenda s :
  BinaryHeap.wf (heap s) → BinaryHeap.elementCount (heap s) ≠ 0 →
  next_event s ∈ agenda s.
Proof.
  intros [Hlen Hn Hc] Hne. apply list_elem_of_lookup. exists 0%nat.
  unfold agenda, PriorityQueue.contents, BinaryHeap.contents. fold (heap s).
  rewrite lookup_take_lt by lia.
  apply list_lookup_lookup_total_lt. lia.
Qed.

Lemma step_order_inv s ws s' ws' :
  shape_inv s ws → order_inv s ws → step_rel s ws s' ws' →
  order_inv s' ws'
  ∧ simulationTime s ≤ simulationTime s'
  ∧ cumulativeWaitTime s ≤ cumulativeWaitTime s'.
Proof.
  intros Hshape [Hnow Hag Hwait Hlen] Hstep.
  pose proof (next_event_least s ws) as Hleast.
  destruct Hstep as [rest e Hperm Harr Hws Hfree _ Hperm' Hfree' Ht' Hc'
                    |rest e Hperm Harr Hbusy Hperm' Hfree' Ht' Hc'
                    |rest c ws' e w Hperm Harr Hws _ _ _ Hperm' Hfree' Ht' Hc'
                    |rest e Hperm Harr Hws Hperm' Hfree' Ht' Hc'].
  all: assert (e ∈ agenda s) as He by (rewrite <- Hperm; by left).
  all: assert (∀ x, x ∈ rest → x ∈ agenda s) as Hrest
      by (intros x Hx; rewrite <- Hperm; by right).
  all: assert (simulationTime s ≤ Event.time e) as Hmono by (by apply Hag).
  all: assert (0 ≤ Event.length e) as Hle
      by (apply Hlen, elem_of_app; by left).
  all: split; [split|].
  (* arrival served *)
  - lia.
  - intros x Hx. rewrite Hperm' in Hx. rewrite Ht'.
    apply elem_of_cons in Hx as [->|Hx]; [simpl; lia|].
    apply Hleast; auto.
  - intros c Hc. by apply elem_of_nil in Hc.
  - intros x Hx. rewrite app_nil_r, Hperm' in Hx.
    apply elem_of_cons in Hx as [->|Hx]; [done|].
    apply Hlen, elem_of_app. left. auto.
  - rewrite Ht', Hc'. lia.
  (* arrival waits *)
  - lia.
  - intros x Hx. rewrite Hperm' in Hx. rewrite Ht'. apply Hleast; auto.
  - intros c Hc. rewrite Ht'.
    apply elem_of_app in Hc as [Hc|Hc%list_elem_of_singleton].
    + specialize (Hwait c Hc). lia.
    + subst c. lia.
  - intros x Hx. apply Hlen. rewrite <- Hperm.
    rewrite Hperm' in Hx. rewrite !elem_of_app in Hx. rewrite elem_of_app.
    destruct Hx as [Hx|[Hx|Hx%list_elem_of_singleton]].
    + left. by right.
    + by right.
    + subst x. left. by left.
  - rewrite Ht', Hc'. lia.
  (* departure, next customer *)
  - lia.
  - intros x Hx. rewrite Hperm' in Hx. rewrite Ht'.
    apply elem_of_cons in Hx as [->|Hx].
    + simpl. assert (0 ≤ Event.length c); [|lia].
      apply Hlen, elem_of_app. right. subst ws. by left.
    + apply Hleast; auto.
  - intros c' Hc. rewrite Ht'. subst ws.
    assert (0 ≤ Event.time c' ≤ simulationTime s) by (apply Hwait; by right).
    lia.
  - intros x Hx. rewrite Hperm' in Hx. subst ws.
    apply elem_of_app in Hx as [[->|Hx]%elem_of_cons|Hx]; [done| |].
    + apply Hlen, elem_of_app. left. auto.
    + apply Hlen, elem_of_app. right. by right.
  - subst ws w. simpl in *.
    assert (0 ≤ Event.time c ≤ simulationTime s) as Hc by (apply Hwait; by left).
    rewrite Ht', Hc'. lia.
  (* departure, idle *)
  - lia.
  - intros x Hx. rewrite Hperm' in Hx. rewrite Ht'. apply Hleast; auto.
  - intros c Hc. by apply elem_of_nil in Hc.
  - intros x Hx. rewrite app_nil_r, Hperm' in Hx.
    apply Hlen, elem_of_app. left. auto.
  - rewrite Ht', Hc'. lia.
Qed.

Lemma time_inv_order H s ws : time_inv H s ws → order_inv s ws.
Proof. by intros []. Qed.

Lemma step_time_inv H s ws s' ws' :
  0 ≤ H →
  shape_inv s ws → shape_inv s' ws' →
  customerCount s' = customerCount s →
  time_inv H s ws → step_rel s ws s' ws' →
  time_inv H s' ws'.
Proof.
  intros HH Hshape Hshape' Hcust Htime Hstep.
  destruct (step_order_inv s ws s' ws' Hshape (time_inv_order _ _ _ Htime) Hstep)
    as (Horder' & _ & _).
  destruct Htime as [[Hnow Hag Hwait Hlen] Hbudget [Hcum Htotal]].
  pose proof (agenda_length s (shape_heap _ _ Hshape)) as Hcnt.
  pose proof (agenda_length s' (shape_heap _ _ Hshape')) as Hcnt'.
  unfold pending_service in Hbudget.
  destruct Hstep as [rest e Hperm Harr Hws Hfree _ Hperm' Hfree' Ht' Hc'
                    |rest e Hperm Harr Hbusy Hperm' Hfree' Ht' Hc'
                    |rest c ws' e w Hperm Harr Hws _ _ _ Hperm' Hfree' Ht' Hc'
                    |rest e Hperm Harr Hws Hperm' Hfree' Ht' Hc'].
  all: assert (e ∈ agenda s) as He by (rewrite <- Hperm; by left).
  all: assert (∀ x, x ∈ rest → x ∈ agenda s) as Hrest
      by (intros x Hx; rewrite <- Hperm; by right).
  all: assert (simulationTime s ≤ Event.time e) as Hmono by (by apply Hag).
  all: assert (0 ≤ Event.length e) as Hle
      by (apply Hlen, elem_of_app; by left).
  all: pose proof (Permutation_length Hperm) as HL.
  all: pose proof (Permutation_length Hperm') as HL'.
  all: simpl in HL, HL'.
  all: rewrite (service_perm (agenda s ++ ws) ((e :: rest) ++ ws)) in Hbudget
      by (by rewrite Hperm).
  all: rewrite service_app in Hbudget; simpl in Hbudget.
  all: split; [exact Horder'| |].
  (* arrival served *)
  - intros x Hx. unfold pending_service.
    rewrite (service_perm (agenda s' ++ []) (Event.Event2 DEPARTURE
              (Event.time e + Event.length e) :: rest))
      by (by rewrite app_nil_r, Hperm').
    subst ws. simpl in *. rewrite Hperm' in Hx.
    apply elem_of_cons in Hx as [->|Hx].
    + simpl. specialize (Hbudget e He). lia.
    + specialize (Hbudget x (Hrest x Hx)). lia.
  - subst ws. simpl in *. rewrite Hc', Hcust. split; [done|].
    replace (BinaryHeap.elementCount (heap s'))
      with (BinaryHeap.elementCount (heap s)) by lia. done.
  (* arrival waits *)
  - intros x Hx. unfold pending_service.
    rewrite (service_perm (agenda s' ++ ws ++ [e]) (rest ++ ws ++ [e]))
      by (by rewrite Hperm').
    rewrite !service_app. simpl. rewrite Hperm' in Hx.
    specialize (Hbudget x (Hrest x Hx)). lia.
  - rewrite Hc', Hcust, length_app. simpl. split; [done|].
    replace (BinaryHeap.elementCount (heap s')
             + Z.of_nat (length ws + 1))
      with (BinaryHeap.elementCount (heap s) + Z.of_nat (length ws)) by lia.
    done.
  (* departure, next customer *)
  - intros x Hx. unfold pending_service.
    rewrite (service_perm (agenda s' ++ ws')
               (Event.Event2 DEPARTURE (Event.time e + Event.length c)
                  :: rest ++ ws')) by (by rewrite Hperm').
    subst ws. simpl in *. rewrite service_app.
    rewrite Hperm' in Hx.
    apply elem_of_cons in Hx as [->|Hx].
    + simpl. specialize (Hbudget e He). lia.
    + specialize (Hbudget x (Hrest x Hx)).
      assert (0 ≤ Event.length c); [|lia].
      apply Hlen, elem_of_app. right. by left.
  - subst ws w. simpl in *.
    assert (0 ≤ Event.time c ≤ simulationTime s) as Hc by (apply Hwait; by left).
    rewrite Hc', Hcust. split; [lia|].
    assert (0 ≤ service (rest ++ c :: ws')) as Hpend.
    { apply service_nonneg. intros x Hx. apply Hlen.
      rewrite <- Hperm. rewrite elem_of_app in Hx. rewrite elem_of_app.
      destruct Hx as [Hx|Hx]; [left; by right|by right]. }
    specialize (Hbudget e He).
    replace (BinaryHeap.elementCount (heap s') + Z.of_nat (length ws'))
      with (BinaryHeap.elementCount (heap s)
            + Z.of_nat (S (length ws')) - 1) by lia.
    rewrite service_app in Hpend. simpl in Hpend.
    rewrite Z.mul_sub_distr_r. lia.
  (* departure, idle *)
  - intros x Hx. unfold pending_service.
    rewrite (service_perm (agenda s' ++ []) rest)
      by (by rewrite app_nil_r, Hperm').
    subst ws. simpl in *. rewrite Hperm' in Hx.
    specialize (Hbudget x (Hrest x Hx)). lia.
  - subst ws. simpl in *. rewrite Hc', Hcust. split; [done|].
    replace (BinaryHeap.elementCount (heap s'))
      with (BinaryHeap.elementCount (heap s) - 1) by lia.
    simpl. rewrite Z.add_0_r, Z.mul_sub_distr_r. simpl in Htotal. lia.
Qed.

Lemma in_int_true z : INT_MIN ≤ z ≤ INT_MAX → in_int z = true.
Proof. intros Hz. unfold in_int. apply andb_true_intro. split; lia. Qed.

Lemma no_overflow H s ws :
  0 ≤ H → customerCount s * H ≤ INT_MAX →
  shape_inv s ws → time_inv H s ws →
  BinaryHeap.elementCount (heap s) ≠ 0 →
  ¬ overflows s ws.
Proof.
  intros HH Hmax Hshape [[Hnow Hag Hwait Hlen] Hbudget [Hcum Htotal]] Hne.
  pose proof Hshape as [Hwf _ _ Hcount _]. pose proof Hwf as [_ Hn _].
  pose proof (next_event_in_agenda s Hwf Hne) as He.
  assert (INT_MIN = -2147483648) as HIm by done.
  set (e := next_event s) in *.
  assert (0 ≤ Event.length e) as Hle by (apply Hlen, elem_of_app; by left).
  assert (simulationTime s ≤ Event.time e) as Hmono by (by apply Hag).
  assert (0 ≤ pending_service s ws) as Hpend by (by apply service_nonneg).
  specialize (Hbudget e He).
  assert (H ≤ customerCount s * H) as HHn by nia.
  unfold overflows. fold e. destruct (Event.isArrival e).
  - intros (-> & _ & Hin).
    assert (Event.length e ≤ pending_service s []).
    { apply service_elem; [done|]. apply elem_of_app. by left. }
    rewrite in_int_true in Hin by lia. done.
  - intros (c & ws' & -> & Hin).
    assert (0 ≤ Event.time c ≤ simulationTime s) by (apply Hwait; by left).
    assert (0 ≤ Event.length c ≤ pending_service s (c :: ws')).
    { split; [apply Hlen|apply service_elem; [done|]];
        apply elem_of_app; right; by left. }
    simpl in Htotal.
    assert (2 * H ≤ (BinaryHeap.elementCount (heap s)
                     + Z.of_nat (S (length ws'))) * H) by nia.
    rewrite !in_int_true in Hin by lia. done.
Qed.

(** *** Termination of the event loop *)

Lemma remaining_step s ws s' ws' :
  step_rel s ws s' ws' → S (remaining s' ws') = remaining s ws.
Proof.
  unfold remaining, departures.
  intros [rest e Hperm Harr Hws _ _ Hperm' _ _ _
         |rest e Hperm Harr _ Hperm' _ _ _
         |rest c ws'' e w Hperm Harr Hws _ _ _ Hperm' _ _ _
         |rest e Hperm Harr Hws Hperm' _ _ _];
    rewrite <- Hperm, Hperm'; rewrite ?filter_cons; subst e;
    rewrite Harr; simpl; repeat case_decide; try done;
    subst; rewrite ?length_app; simpl; lia.
Qed.

Lemma event_loop_total H (fuel : nat) s ws :
  0 ≤ H → customerCount s * H ≤ INT_MAX →
  shape_inv s ws → time_inv H s ws →
  (remaining s ws < fuel)%nat →
  ∃ s', event_loop fuel s = Ret tt s'
        ∧ customerCount s' = customerCount s
        ∧ cumulativeWaitTime s ≤ cumulativeWaitTime s'.
Proof.
  intros HH. revert s ws.
  induction fuel as [|fuel IH]; intros s ws Hmax Hshape Htime Hfuel; [lia|].
  simpl. rewrite (bind_ret_step _ _ _ _ _ (on_events_isEmpty s)).
  destruct (Z.eqb_spec (BinaryHeap.elementCount (heap s)) 0) as [Hz|Hne].
  { exists s. split_and!; [done|done|lia]. }
  pose proof (loop_body_spec s ws Hshape Hne) as Hstep.
  pose proof (no_overflow H s ws HH Hmax Hshape Htime Hne) as Hsafe.
  destruct (loop_body s) as [[] s1| | |] eqn:Hrun; try done.
  destruct Hstep as (ws1 & Hstep & Hshape1 & Hcust1).
  pose proof (step_time_inv H s ws s1 ws1 HH Hshape Hshape1 Hcust1 Htime Hstep)
    as Htime1.
  destruct (step_order_inv s ws s1 ws1 Hshape (time_inv_order _ _ _ Htime) Hstep)
    as (_ & _ & Hcum1).
  destruct (IH s1 ws1) as (s' & Hloop & Hcust' & Hcum'); try done.
  - by rewrite Hcust1.
  - apply remaining_step in Hstep. lia.
  - exists s'. rewrite (bind_ret_step _ _ _ _ _ Hrun), Hloop.
    split_and!; [done|congruence|lia].
Qed.

(** The iteration budget of the event loop is never the reason why a run
    stops, whatever the input. *)
Lemma event_loop_fuel (fuel : nat) s ws :
  shape_inv s ws → (remaining s ws < fuel)%nat →
  event_loop fuel s ≠ OutOfFuel.
Proof.
  revert s ws. induction fuel as [|fuel IH]; intros s ws Hshape Hfuel; [lia|].
  simpl. rewrite (bind_ret_step _ _ _ _ _ (on_events_isEmpty s)).
  destruct (Z.eqb_spec (BinaryHeap.elementCount (heap s)) 0) as [Hz|Hne];
    [done|].
  pose proof (loop_body_spec s ws Hshape Hne) as Hstep.
  unfold bind at 1.
  destruct (loop_body s) as [[] s1| | |] eqn:Hrun; try done.
  destruct Hstep as (ws1 & Hstep & Hshape1 & _).
  apply (IH s1 ws1 Hshape1). apply remaining_step in Hstep. lia.
Qed.

Lemma arrivals_are_arrivals input :
  filter (λ e, Event.isArrival e = true) (arrivals input) = arrivals input.
Proof.
  induction input as [|[a p] input IH]; [done|].
  simpl. destruct (in_int a && in_int p); [|done].
  rewrite filter_cons. simpl. by rewrite IH.
Qed.

Lemma main_fuel input : main input ≠ OutOfFuel.
Proof.
  unfold main, main_from. pose proof (setup_spec input) as Hsetup.
  unfold bind at 1.
  destruct (setup input initial_state) as [[] s0| | |]; try done.
  destruct Hsetup as (Hshape & Hag & Hcust & _).
  rewrite bind_gets. unfold bind at 1.
  pose proof (event_loop_fuel (loop_budget s0) s0 [] Hshape) as Hloop.
  destruct (event_loop (loop_budget s0) s0) as [[] s1| | |]; try done.
  intros _. apply Hloop; [|done]. unfold remaining, loop_budget.
  rewrite (departures_perm _ _ Hag), departures_arrivals, Hag,
    arrivals_are_arrivals, Hcust. simpl. lia.
Qed.

(** *** Runs on inputs of non-negative times and lengths *)

Lemma latest_arrival_bound input c :
  c ∈ input → c.1 ≤ latest_arrival input.
Proof.
  induction input as [|c' input IH]; intros Hc; [by apply elem_of_nil in Hc|].
  simpl. apply elem_of_cons in Hc as [->|Hc]; [lia|]. specialize (IH Hc). lia.
Qed.

Lemma latest_arrival_nonneg input : 0 ≤ latest_arrival input.
Proof. induction input; simpl; lia. Qed.

Lemma total_service_bound input c :
  Forall (λ c, 0 ≤ c.1 ∧ 0 ≤ c.2) input →
  0 ≤ total_service input ∧ (c ∈ input → c.2 ≤ total_service input).
Proof.
  induction 1 as [|c' input [_ Hc'] _ [IH0 IH]]; simpl.
  - split; [done|]. intros Hc. by apply elem_of_nil in Hc.
  - split; [lia|]. intros [->|Hc]%elem_of_cons; [lia|]. specialize (IH Hc). lia.
Qed.

Lemma input_ok_in_int input c :
  input_ok input → c ∈ input → in_int c.1 && in_int c.2 = true.
Proof.
  intros (Hpos & Hn & Hmax) Hc.
  pose proof (latest_arrival_bound input c Hc).
  pose proof (latest_arrival_nonneg input).
  destruct (total_service_bound input c Hpos) as [? Hp]. specialize (Hp Hc).
  rewrite Forall_forall in Hpos. destruct (Hpos c Hc).
  assert (0 < Z.of_nat (length input)).
  { destruct input; [by apply elem_of_nil in Hc|simpl; lia]. }
  unfold horizon in Hmax.
  assert (INT_MIN = -2147483648) as HIm by done.
  assert (latest_arrival input + total_service input ≤ INT_MAX) by nia.
  rewrite !in_int_true by lia. done.
Qed.

Lemma arrivals_all input :
  (∀ c, c ∈ input → in_int c.1 && in_int c.2 = true) →
  arrivals input = (λ c, Event.Event3 ARRIVAL c.1 c.2) <$> input.
Proof.
  induction input as [|[a p] input IH]; intros Hin; [done|].
  pose proof (Hin (a, p) ltac:(by left)) as Hap. simpl in Hap.
  simpl. rewrite Hap.
  rewrite IH; [done|]. intros c Hc. apply Hin. by right.
Qed.

Lemma service_arrivals input :
  service ((λ c, Event.Event3 ARRIVAL c.1 c.2) <$> input) = total_service input.
Proof.
  induction input as [|[a p] input IH]; [done|].
  rewrite fmap_cons. simpl. by rewrite <- IH.
Qed.

Lemma setup_time_inv input :
  input_ok input →
  ∃ s, setup input initial_state = Ret tt s
       ∧ shape_inv s []
       ∧ time_inv (horizon input) s []
       ∧ customerCount s = Z.of_nat (length input)
       ∧ remaining s [] = (2 * length input)%nat.
Proof.
  intros Hok. pose proof Hok as (Hpos & Hn & Hmax).
  pose proof (arrivals_all input (λ c, input_ok_in_int input c Hok)) as Harr.
  pose proof (setup_spec input) as Hsetup. rewrite Harr in Hsetup.
  rewrite length_fmap in Hsetup.
  destruct (setup input initial_state) as [[] s| | |]; [|done|lia|done].
  destruct Hsetup as (Hshape & Hag & Hcust & Hcnt & Hfree & Hnow & Hcum).
  exists s. split_and!; [done|done| |done|].
  - assert (∀ e, e ∈ agenda s →
                 ∃ c, c ∈ input ∧ e = Event.Event3 ARRIVAL c.1 c.2) as Hev.
    { intros e He. rewrite Hag in He.
      apply list_elem_of_fmap in He as (c & -> & Hc). by exists c. }
    rewrite Forall_forall in Hpos.
    split; [split|..].
    + lia.
    + intros e (c & Hc & ->)%Hev. rewrite Hnow. simpl. by apply Hpos.
    + intros c Hc. by apply elem_of_nil in Hc.
    + intros e He. rewrite app_nil_r in He.
      apply Hev in He as (c & Hc & ->). simpl. by apply Hpos.
    + intros e (c & Hc & ->)%Hev. unfold pending_service, horizon.
      rewrite app_nil_r, (service_perm _ _ Hag), service_arrivals. simpl.
      pose proof (latest_arrival_bound input c Hc). lia.
    + rewrite Hcum, Hcnt. simpl. split; [done|]. lia.
  - unfold remaining, departures. rewrite Hag. simpl.
    assert (∀ l : list (Z * Z),
              filter (λ e, Event.isArrival e = true)
                ((λ c, Event.Event3 ARRIVAL c.1 c.2) <$> l)
              = (λ c, Event.Event3 ARRIVAL c.1 c.2) <$> l
              ∧ filter (λ e, Event.isArrival e = false)
                  ((λ c, Event.Event3 ARRIVAL c.1 c.2) <$> l) = [])
      as Hfilter.
    { induction l as [|c l [IH1 IH2]]; [done|].
      rewrite fmap_cons, !filter_cons, IH1, IH2.
      by repeat case_decide. }
    destruct (Hfilter input) as [-> ->]. rewrite length_fmap. simpl. lia.
Qed.

Lemma reachable_time input s :
  input_ok input → reachable input s →
  ∃ ws, shape_inv s ws ∧ time_inv (horizon input) s ws
        ∧ customerCount s = Z.of_nat (length input).
Proof.
  intros Hok. induction 1 as [s Hstart|s s' _ (ws & Hshape & Htime & Hcust) _ Hrun].
  - destruct (setup_time_inv input Hok) as (s0 & Hs0 & ? & ? & ? & _).
    rewrite Hstart in Hs0. injection Hs0 as <-. by exists [].
  - pose proof (loop_body_spec s ws Hshape (loop_body_ret_nonempty _ _ Hrun))
      as Hstep.
    rewrite Hrun in Hstep. destruct Hstep as (ws' & Hstep & Hshape' & Hcust').
    exists ws'. split_and!; [done| |congruence].
    assert (0 ≤ horizon input) as HH.
    { destruct Hok as (Hpos & _).
      pose proof (latest_arrival_nonneg input).
      destruct (total_service_bound input (0, 0) Hpos). unfold horizon. lia. }
    by apply (step_time_inv (horizon input) s ws s' ws').
Qed.

Lemma arrivals_elem input e :
  e ∈ arrivals input → ∃ c, c ∈ input ∧ e = Event.Event3 ARRIVAL c.1 c.2.
Proof.
  induction input as [|[a p] input IH]; simpl; [by intros ?%elem_of_nil|].
  destruct (in_int a && in_int p); [|by intros ?%elem_of_nil].
  intros [->|He]%elem_of_cons.
  - exists (a, p). split; [by left|done].
  - destruct (IH He) as (c & Hc & ->). exists c. split; [by right|done].
Qed.

Lemma reachable_order input s :
  Forall (λ c, 0 ≤ c.1 ∧ 0 ≤ c.2) input → reachable input s →
  ∃ ws, shape_inv s ws ∧ order_inv s ws.
Proof.
  intros Hpos. rewrite Forall_forall in Hpos.
  induction 1 as [s Hstart|s s' _ (ws & Hshape & Horder) _ Hrun].
  - pose proof (setup_spec input) as Hsetup. rewrite Hstart in Hsetup.
    destruct Hsetup as (Hshape & Hag & _ & _ & _ & Hnow & _).
    exists []. split; [done|]. split.
    + lia.
    + intros e He. rewrite Hag in He.
      apply arrivals_elem in He as (c & Hc & ->). rewrite Hnow.
      by destruct (Hpos c Hc).
    + intros c Hc. by apply elem_of_nil in Hc.
    + intros e He. rewrite app_nil_r, Hag in He.
      apply arrivals_elem in He as (c & Hc & ->).
      by destruct (Hpos c Hc).
  - pose proof (loop_body_spec s ws Hshape (loop_body_ret_nonempty _ _ Hrun))
      as Hstep.
    rewrite Hrun in Hstep. destruct Hstep as (ws' & Hstep & Hshape' & _).
    exists ws'. split; [done|].
    by destruct (step_order_inv s ws s' ws' Hshape Horder Hstep) as (? & _).
Qed.

(** C9, as amended. On an input of non-negative arrival times and service
    lengths, [simulationTime] and [cumulativeWaitTime] start at 0 and neither
    of them decreases from one iteration of the event loop to the next, as
    long as no [int] overflows: an iteration from a state of the run either
    returns, and then neither variable has decreased, or it is the iteration
    in which a time leaves the range of [int], whose behaviour is undefined.
    When the input stays within the range of [int] (as many customers as an
    [int] counts, and the number of customers times the latest arrival plus
    all service lengths at most INT_MAX), no iteration overflows: every
    iteration completes and the run returns. *)
Theorem times_never_decrease input :
  Forall (λ c, 0 ≤ c.1 ∧ 0 ≤ c.2) input →
  (∀ s, setup input initial_state = Ret tt s →
        simulationTime s = 0 ∧ cumulativeWaitTime s = 0)
  ∧ (∀ s s', reachable input s → loop_body s = Ret tt s' →
             simulationTime s ≤ simulationTime s'
             ∧ cumulativeWaitTime s ≤ cumulativeWaitTime s')
  ∧ (∀ s, reachable input s →
          on_eventPriorityQueue PriorityQueue.isEmpty s = Ret false s →
          match loop_body s with
          | Ret _ s' =>
              simulationTime s ≤ simulationTime s'
              ∧ cumulativeWaitTime s ≤ cumulativeWaitTime s'
          | Undefined => ∃ ws, shape_inv s ws ∧ overflows s ws
          | Throw _ _ | OutOfFuel => False
          end)
  ∧ (Z.of_nat (length input) ≤ INT_MAX →
     Z.of_nat (length input) * horizon input ≤ INT_MAX →
     (∃ s, main input = Ret 0 s
           ∧ customerCount s = Z.of_nat (length input)
           ∧ 0 ≤ cumulativeWaitTime s)
     ∧ (∀ s, reachable input s →
             on_eventPriorityQueue PriorityQueue.isEmpty s = Ret false s →
             ∃ s', loop_body s = Ret tt s')).
Proof.
  intros Hpos.
  assert (0 ≤ horizon input) as HH.
  { pose proof (latest_arrival_nonneg input).
    destruct (total_service_bound input (0, 0) Hpos). unfold horizon. lia. }
  split_and!.
  - intros s Hs. pose proof (setup_spec input) as Hsetup.
    rewrite Hs in Hsetup. tauto.
  - intros s s' Hreach Hrun.
    destruct (reachable_order input s Hpos Hreach) as (ws & Hshape & Horder).
    pose proof (loop_body_spec s ws Hshape (loop_body_ret_nonempty _ _ Hrun))
      as Hstep.
    rewrite Hrun in Hstep. destruct Hstep as (ws' & Hstep & _).
    by destruct (step_order_inv s ws s' ws' Hshape Horder Hstep) as (_ & ? & ?).
  - intros s Hreach Hne.
    destruct (reachable_order input s Hpos Hreach) as (ws & Hshape & Horder).
    rewrite on_events_isEmpty in Hne. injection Hne as Hne%Z.eqb_neq.
    pose proof (loop_body_spec s ws Hshape Hne) as Hstep.
    destruct (loop_body s) as [[] s'| | |]; try done.
    + destruct Hstep as (ws' & Hstep & _).
      by destruct (step_order_inv s ws s' ws' Hshape Horder Hstep)
        as (_ & ? & ?).
    + by exists ws.
  - intros Hn Hmax. assert (input_ok input) as Hok by done. split.
    + destruct (setup_time_inv input Hok)
        as (s0 & Hsetup & Hshape & Htime & Hcust & Hrem).
      destruct (event_loop_total (horizon input) (loop_budget s0) s0 [])
        as (s1 & Hloop & Hcust1 & Hcum1); try done.
      { by rewrite Hcust. }
      { unfold loop_budget. rewrite Hrem, Hcust. lia. }
      eexists. split_and!.
      * unfold main, main_from.
        rewrite (bind_ret_step _ _ _ _ _ Hsetup), bind_gets.
        rewrite (bind_ret_step _ _ _ _ _ Hloop).
        unfold report. rewrite !bind_gets, !bind_print. reflexivity.
      * simpl. congruence.
      * simpl. destruct Htime as [_ _ [? _]]. lia.
    + intros s Hreach Hne.
      destruct (reachable_time input s Hok Hreach)
        as (ws & Hshape & Htime & Hcust).
      rewrite on_events_isEmpty in Hne. injection Hne as Hne%Z.eqb_neq.
      pose proof (loop_body_spec s ws Hshape Hne) as Hstep.
      assert (¬ overflows s ws) as Hsafe.
      { apply (no_overflow (horizon input)); try done. by rewrite Hcust. }
      destruct (loop_body s) as [[] s'| | |]; try done. by exists s'.
Qed.

End SimulationSteps.

Lemma teller_available_iff_idle_witness :
  let s := BankSimApp.state_after [(0, 10); (2, 3)] 4 in
  (BankSimApp.tellerAvailable s = true
   ↔ BankSimApp.line_empty s = true ∧ BankSimApp.in_service s = false)
  ∧ (BankSimApp.tellerAvailable s = true → BankSimApp.waiting s = []).
Proof.
  apply (teller_available_iff_idle [(0, 10); (2, 3)]).
  apply (BankSimApp.reachable_step _ (BankSimApp.state_after [(0, 10); (2, 3)] 3));
    [|vm_compute; reflexivity|vm_compute; reflexivity].
  apply (BankSimApp.reachable_step _ (BankSimApp.state_after [(0, 10); (2, 3)] 2));
    [|vm_compute; reflexivity|vm_compute; reflexivity].
  apply (BankSimApp.reachable_step _ (BankSimApp.state_after [(0, 10); (2, 3)] 1));
    [|vm_compute; reflexivity|vm_compute; reflexivity].
  apply (BankSimApp.reachable_step _ (BankSimApp.state_after [(0, 10); (2, 3)] 0));
    [|vm_compute; reflexivity|vm_compute; reflexivity].
  apply BankSimApp.reachable_start. vm_compute. reflexivity.
Defined.

Lemma times_never_decrease_witness :
  let input := [(0, 10); (2, 3)] in
  (∀ s, BankSimApp.setup input BankSimApp.initial_state = Ret tt s →
        BankSimApp.simulationTime s = 0 ∧ BankSimApp.cumulativeWaitTime s = 0)
  ∧ (∀ s s', BankSimApp.reachable input s → BankSimApp.loop_body s = Ret tt s' →
             BankSimApp.simulationTime s ≤ BankSimApp.simulationTime s'
             ∧ BankSimApp.cumulativeWaitTime s ≤ BankSimApp.cumulativeWaitTime s')
  ∧ (∀ s, BankSimApp.reachable input s →
          BankSimApp.on_eventPriorityQueue PriorityQueue.isEmpty s = Ret false s →
          match BankSimApp.loop_body s with
          | Ret _ s' =>
              BankSimApp.simulationTime s ≤ BankSimApp.simulationTime s'
              ∧ BankSimApp.cumulativeWaitTime s
                ≤ BankSimApp.cumulativeWaitTime s'
          | Undefined =>
              ∃ ws, BankSimApp.shape_inv s ws ∧ BankSimApp.overflows s ws
          | Throw _ _ | OutOfFuel => False
          end)
  ∧ (∃ s, BankSimApp.main input = Ret 0 s
          ∧ BankSimApp.customerCount s = Z.of_nat (length input)
          ∧ 0 ≤ BankSimApp.cumulativeWaitTime s)
  ∧ (∀ s, BankSimApp.reachable input s →
          BankSimApp.on_eventPriorityQueue PriorityQueue.isEmpty s = Ret false s →
          ∃ s', BankSimApp.loop_body s = Ret tt s').
Proof.
  destruct (times_never_decrease [(0, 10); (2, 3)])
    as (Hstart & Hmono & Hstep & Hruns).
  - repeat constructor; simpl; lia.
  - split; [exact Hstart|]. split; [exact Hmono|]. split; [exact Hstep|].
    apply Hruns.
    + unfold INT_MAX. simpl. lia.
    + unfold INT_MAX, BankSimApp.horizon. simpl. lia.
Defined.

(** C9, as stated, fails. The customer who arrives at time INT_MAX with a
    service length of 1 is an input of non-negative values, but the first
    iteration of the event loop computes the departure time INT_MAX + 1,
    which is not an [int]: the behaviour of the iteration, and of the run, is
    undefined. So it is not the case that on every input of non-negative
    values every event of the run is processed without decreasing the clock
    or the total wait. *)
Lemma clock_overflows_on_nonnegative_input :
  let input := [(2147483647, 1)] in
  let s := BankSimApp.state_after input 0 in
  Forall (λ c : Z * Z, 0 ≤ c.1 ∧ 0 ≤ c.2) input
  ∧ BankSimApp.setup input BankSimApp.initial_state = Ret tt s
  ∧ BankSimApp.agenda s = [Event.Event3 ARRIVAL 2147483647 1]
  ∧ BankSimApp.on_eventPriorityQueue PriorityQueue.isEmpty s = Ret false s
  ∧ BankSimApp.loop_body s = Undefined
  ∧ BankSimApp.main input = Undefined
  ∧ ¬ (∀ input : list (Z * Z),
         Forall (λ c, 0 ≤ c.1 ∧ 0 ≤ c.2) input →
         ∀ s, BankSimApp.reachable input s →
              BankSimApp.on_eventPriorityQueue PriorityQueue.isEmpty s
              = Ret false s →
              ∃ s', BankSimApp.loop_body s = Ret tt s'
                    ∧ BankSimApp.simulationTime s
                      ≤ BankSimApp.simulationTime s'
                    ∧ BankSimApp.cumulativeWaitTime s
                      ≤ BankSimApp.cumulativeWaitTime s').
Proof.
  intros input s.
  assert (Forall (λ c : Z * Z, 0 ≤ c.1 ∧ 0 ≤ c.2) input) as Hpos.
  { repeat constructor; simpl; lia. }
  assert (BankSimApp.setup input BankSimApp.initial_state = Ret tt s)
    as Hsetup by (vm_compute; reflexivity).
  assert (BankSimApp.on_eventPriorityQueue PriorityQueue.isEmpty s
          = Ret false s) as Hne by (vm_compute; reflexivity).
  assert (BankSimApp.loop_body s = Undefined) as Hrun
    by (vm_compute; reflexivity).
  split_and!; try done; [vm_compute; reflexivity..|].
  intros Hclaim.
  destruct (Hclaim input Hpos s (BankSimApp.reachable_start input s Hsetup) Hne)
    as (s' & Hret & _).
  rewrite Hrun in Hret. discriminate.
Qed.

(** * Further properties of the code *)

(** ** Rules for the predicates on computations *)

Section OutcomeRules.
Context {S : Type}.

Lemma bind_ret_inv {A B} (m : M S A) (f : A → M S B) s b s' :
  bind m f s = Ret b s' → ∃ a s1, m s = Ret a s1 ∧ f a s1 = Ret b s'.
Proof. unfold bind. destruct (m s) as [a s1| | |]; try done. by exists a, s1. Qed.

Lemma never_throws_bind {A B} (m : M S A) (f : A → M S B) :
  never_throws m → (∀ a, never_throws (f a)) → never_throws (bind m f).
Proof.
  intros Hm Hf s (e & s' & Hrun). unfold bind in Hrun.
  destruct (m s) as [a s1|e1 s1| |] eqn:Hms; try done.
  - apply (Hf a s1). by exists e, s'.
  - apply (Hm s). by exists e1, s1.
Qed.

Lemma never_throws_ret {A} (a : A) : never_throws (ret (S := S) a).
Proof. by intros s (e & s' & H). Qed.

Lemma never_throws_gets {A} (f : S → A) : never_throws (gets f).
Proof. by intros s (e & s' & H). Qed.

Lemma never_throws_modify (f : S → S) : never_throws (modify f).
Proof. by intros s (e & s' & H). Qed.

Lemma never_throws_undefined {A} : never_throws (undefined (S := S) (A := A)).
Proof. by intros s (e & s' & H). Qed.

Lemma never_throws_out_of_fuel {A} :
  never_throws (out_of_fuel (S := S) (A := A)).
Proof. by intros s (e & s' & H). Qed.

Lemma never_throws_int_op (z : Z) : never_throws (int_op (S := S) z).
Proof. intros s (e & s' & H). unfold int_op in H. by destruct (in_int z). Qed.

Lemma never_throws_if {A} (b : bool) (m1 m2 : M S A) :
  never_throws m1 → never_throws m2 → never_throws (if b then m1 else m2).
Proof. by destruct b. Qed.

Lemma stable_bind {A B} (R : S → S → Prop) `{!Transitive R}
  (m : M S A) (f : A → M S B) :
  stable R m → (∀ a, stable R (f a)) → stable R (bind m f).
Proof.
  intros Hm Hf s b s' (a & s1 & Hms & Hfs)%bind_ret_inv.
  transitivity s1; [by eapply Hm|by eapply Hf].
Qed.

Lemma stable_ret {A} (R : S → S → Prop) `{!Reflexive R} (a : A) :
  stable R (ret a).
Proof. intros s b s' [= _ <-]. reflexivity. Qed.

Lemma stable_gets {A} (R : S → S → Prop) `{!Reflexive R} (f : S → A) :
  stable R (gets f).
Proof. intros s b s' [= _ <-]. reflexivity. Qed.

Lemma stable_modify (R : S → S → Prop) (f : S → S) :
  (∀ s, R s (f s)) → stable R (modify f).
Proof. intros Hf s b s' H. injection H as H. subst s'. apply Hf. Qed.

Lemma stable_int_op (R : S → S → Prop) `{!Reflexive R} (z : Z) :
  stable R (int_op z).
Proof.
  intros s b s' H. unfold int_op in H.
  destruct (in_int z); [|done]. injection H as _ <-. reflexivity.
Qed.

Lemma stable_throw {A} (R : S → S → Prop) (e : exn) :
  stable R (throw (A := A) e).
Proof. by intros s b s' H. Qed.

Lemma stable_zoom {U A} (R : S → S → Prop) (proj : S → U) (upd : U → S → S)
  (m : M U A) :
  (∀ s u, R s (upd u s)) → stable R (zoom proj upd m).
Proof.
  intros Hupd s a s' H. unfold zoom in H.
  destruct (m (proj s)) as [a1 u| | |]; try done.
  injection H as _ <-. apply Hupd.
Qed.

Lemma read_only_bind {A B} (m : M S A) (f : A → M S B) :
  read_only m → (∀ a, read_only (f a)) → read_only (bind m f).
Proof.
  intros Hm Hf s. specialize (Hm s). unfold bind.
  destruct (m s) as [a s1|e s1| |]; try done.
  subst s1. apply Hf.
Qed.

Lemma read_only_gets {A} (f : S → A) : read_only (gets f).
Proof. by intros s. Qed.

Lemma read_only_ret {A} (a : A) : read_only (ret (S := S) a).
Proof. by intros s. Qed.

Lemma read_only_throw {A} (e : exn) : read_only (throw (S := S) (A := A) e).
Proof. by intros s. Qed.

Lemma read_only_zoom {U A} (proj : S → U) (upd : U → S → S) (m : M U A) :
  (∀ s, upd (proj s) s = s) → read_only m → read_only (zoom proj upd m).
Proof.
  intros Hupd Hm s. specialize (Hm (proj s)). unfold zoom.
  destruct (m (proj s)) as [a u|e u| |]; try done; subst u; apply Hupd.
Qed.

End OutcomeRules.

(** ** Event: the comparison operators *)

(** X1. [operator<=] is a total preorder on events: it is reflexive,
    transitive and total. Two events that are below each other have the same
    time and the same kind; they may differ in their length only. *)
Theorem operator_le_total_preorder :
  (∀ a : Event, Event.operator_le a a = true)
  ∧ (∀ a b c : Event,
       Event.operator_le a b = true → Event.operator_le b c = true →
       Event.operator_le a c = true)
  ∧ (∀ a b : Event,
       Event.operator_le a b = true ∨ Event.operator_le b a = true)
  ∧ (∀ a b : Event,
       Event.operator_le a b = true → Event.operator_le b a = true →
       Event.getTime a = Event.getTime b ∧ Event.getType a = Event.getType b).
Proof.
  unfold Event.operator_le, Event.getTime, Event.getType.
  split_and!.
  - intros [k t l]. simpl. rewrite Z.eqb_refl. by destruct k.
  - intros [k1 t1 l1] [k2 t2 l2] [k3 t3 l3]. simpl.
    destruct (Z.eqb_spec t1 t2), (Z.eqb_spec t2 t3), (Z.eqb_spec t1 t3);
      destruct k1, k2, k3; simpl; try done; try lia.
  - intros [k1 t1 l1] [k2 t2 l2]. simpl.
    destruct (Z.eqb_spec t1 t2), (Z.eqb_spec t2 t1);
      destruct k1, k2; simpl; auto; lia.
  - intros [k1 t1 l1] [k2 t2 l2]. simpl.
    destruct (Z.eqb_spec t1 t2), (Z.eqb_spec t2 t1);
      destruct k1, k2; simpl; try done; lia.
Qed.

(** X2. How the three comparison operators fit together: [a > b] is
    [b < a]; [a < b] implies [a <= b]; and [a] is strictly below [b] in the
    order of [operator<=] exactly when [a < b] or when [a] is an arrival and
    [b] a departure at the same time. So the strict order of [operator<=]
    refines [operator<] by the tie-break on the kind. *)
Theorem operator_lt_gt_le (a b : Event) :
  Event.operator_gt a b = Event.operator_lt b a
  ∧ (Event.operator_lt a b && negb (Event.operator_le a b) = false)
  ∧ negb (Event.operator_le b a)
    = Event.operator_lt a b
      || ((Event.getTime a =? Event.getTime b)
          && Event.isArrival a && negb (Event.isArrival b)).
Proof.
  destruct a as [k1 t1 l1], b as [k2 t2 l2].
  unfold Event.operator_gt, Event.operator_lt, Event.operator_le,
    Event.isArrival, Event.getTime, Event.getType. simpl.
  rewrite Z.gtb_ltb.
  destruct (Z.eqb_spec t1 t2), (Z.eqb_spec t2 t1), (Z.ltb_spec t1 t2),
    (Z.ltb_spec t2 t1); destruct k1, k2; simpl; try done; lia.
Qed.

(** ** Event: constructors and setters *)

(** X3. The three constructors build events that satisfy the length
    invariant; [setTime] keeps it; [setLength] establishes it (on a departure
    it stores 0); [setType(DEPARTURE)] keeps it exactly on an event whose
    length is 0; and a sequence of setter calls that never calls
    [setType(DEPARTURE)] keeps it. *)
Theorem length_invariant_of_constructors_and_setters :
  Event.length_invariant Event.Event0
  ∧ (∀ k t, Event.length_invariant (Event.Event2 k t))
  ∧ (∀ k t l, Event.length_invariant (Event.Event3 k t l))
  ∧ (∀ t e, Event.length_invariant (Event.setTime t e)
            ↔ Event.length_invariant e)
  ∧ (∀ l e, Event.length_invariant (Event.setLength l e))
  ∧ (∀ e, Event.length_invariant (Event.setType DEPARTURE e)
          ↔ Event.getLength e = 0)
  ∧ (∀ cs e, Event.length_invariant e → Event.SetType DEPARTURE ∉ cs →
             Event.length_invariant (Event.apply_setters cs e)).
Proof.
  split_and!.
  - done.
  - apply Event2_length_invariant.
  - apply Event3_length_invariant.
  - intros t [k t0 l]. unfold Event.length_invariant. by simpl.
  - apply setLength_length_invariant.
  - intros [k t l]. unfold Event.length_invariant, Event.getLength. simpl.
    split; [intros H; by apply H|done].
  - apply setters_keep_length_invariant.
Qed.

(** ** BinaryHeap: exceptions, observers and capacity *)

Section HeapCalls.
Context {T : Type} `{!ElementType T}.
Import BinaryHeap.
Implicit Types (h : BinaryHeap T) (a : list T) (x : T).

Lemma never_throws_read i : never_throws (read (T := T) i).
Proof.
  intros h (e & h' & H). unfold read in H.
  by destruct (in_bounds i (elements h)).
Qed.

Lemma never_throws_write i x : never_throws (write i x).
Proof.
  intros h (e & h' & H). unfold write in H.
  by destruct (in_bounds i (elements h)).
Qed.

Lemma never_throws_swap i j : never_throws (swap (T := T) i j).
Proof.
  unfold swap.
  repeat first [apply never_throws_bind; [|intros ?]
               |apply never_throws_read|apply never_throws_write].
Qed.

Lemma never_throws_child_is_less i j :
  never_throws (child_is_less (T := T) i j).
Proof.
  unfold child_is_less.
  apply never_throws_bind; [apply never_throws_gets|intros n].
  apply never_throws_if; [|apply never_throws_ret].
  repeat first [apply never_throws_bind; [|intros ?]
               |apply never_throws_read|apply never_throws_ret].
Qed.

Lemma never_throws_reHeapDown_rec (fuel : nat) i :
  never_throws (reHeapDown_rec (T := T) fuel i).
Proof.
  revert i. induction fuel as [|fuel IH]; intros i;
    [apply never_throws_out_of_fuel|].
  simpl.
  apply never_throws_bind; [apply never_throws_child_is_less|intros l].
  apply never_throws_bind; [apply never_throws_child_is_less|intros r].
  apply never_throws_if; [|apply never_throws_ret].
  apply never_throws_bind; [apply never_throws_swap|intros _]. apply IH.
Qed.

Lemma never_throws_reHeapUp_loop (fuel : nat) i p :
  never_throws (reHeapUp_loop (T := T) fuel i p).
Proof.
  revert i p. induction fuel as [|fuel IH]; intros i p;
    [apply never_throws_out_of_fuel|].
  simpl. apply never_throws_if; [|apply never_throws_ret].
  apply never_throws_bind; [apply never_throws_read|intros a].
  apply never_throws_bind; [apply never_throws_read|intros b].
  apply never_throws_if; [|apply never_throws_ret].
  apply never_throws_bind; [apply never_throws_swap|intros _]. apply IH.
Qed.

Lemma never_throws_expandHeap : never_throws (expandHeap (T := T)).
Proof.
  unfold expandHeap.
  apply never_throws_bind; [apply never_throws_modify|intros _].
  apply never_throws_bind; [apply never_throws_gets|intros cap].
  apply never_throws_bind; [apply never_throws_gets|intros n].
  apply never_throws_bind; [apply never_throws_gets|intros old].
  apply never_throws_if; [apply never_throws_modify|apply never_throws_undefined].
Qed.

Lemma never_throws_insert x : never_throws (insert x).
Proof.
  unfold insert.
  apply never_throws_bind; [apply never_throws_gets|intros n].
  apply never_throws_bind; [apply never_throws_gets|intros cap].
  apply never_throws_bind; [|intros _].
  { apply never_throws_if; [apply never_throws_expandHeap|apply never_throws_ret]. }
  apply never_throws_bind; [apply never_throws_gets|intros n'].
  apply never_throws_bind; [apply never_throws_write|intros _].
  apply never_throws_bind; [apply never_throws_reHeapUp_loop|intros _].
  apply never_throws_bind; [apply never_throws_modify|intros _].
  apply never_throws_ret.
Qed.

Lemma remove_throws_iff h : throws remove h ↔ elementCount h = 0.
Proof.
  split.
  - intros Hthrow. destruct (Z.eqb_spec (elementCount h) 0) as [|Hne]; [done|].
    exfalso. revert Hthrow. unfold remove. unfold throws.
    rewrite bind_ret_step with (a := elementCount h) (s' := h) by done.
    apply Z.eqb_neq in Hne. rewrite Hne.
    apply (never_throws_bind (read _)); [apply never_throws_read|intros last].
    apply never_throws_bind; [apply never_throws_write|intros _].
    apply never_throws_bind; [apply never_throws_modify|intros _].
    apply never_throws_bind; [apply never_throws_gets|intros n].
    apply never_throws_if; [|apply never_throws_ret].
    apply never_throws_bind; [apply never_throws_gets|intros n'].
    apply never_throws_reHeapDown_rec.
  - intros Hz. exists EmptyDataCollectionException, h.
    unfold remove, bind, gets. by rewrite Hz.
Qed.

Lemma retrieve_throws_iff h : throws retrieve h ↔ elementCount h = 0.
Proof.
  split.
  - intros Hthrow. destruct (Z.eqb_spec (elementCount h) 0) as [|Hne]; [done|].
    exfalso. revert Hthrow. unfold retrieve, throws.
    rewrite bind_ret_step with (a := elementCount h) (s' := h) by done.
    apply Z.eqb_neq in Hne. rewrite Hne. apply never_throws_read.
  - intros Hz. exists EmptyDataCollectionException, h.
    unfold retrieve, bind, gets. by rewrite Hz.
Qed.

Lemma read_only_read i : read_only (read (T := T) i).
Proof. intros h. unfold read. by destruct (in_bounds i (elements h)). Qed.

Lemma read_only_retrieve : read_only (retrieve (T := T)).
Proof.
  unfold retrieve. apply read_only_bind; [apply read_only_gets|intros n].
  destruct (n =? 0); [apply read_only_throw|apply read_only_read].
Qed.

(** X6. [insert] on a full heap has undefined behaviour when doubling the
    capacity does not make room: with capacity 0 the new array has no slot
    for the element, and from capacity 2^31 on the doubled capacity wraps
    around, so the elements are copied into an array that is too small for
    them. *)
Theorem insert_undefined_when_capacity_cannot_double x h :
  elementCount h = capacity h →
  Z.of_nat (length (elements h)) = capacity h →
  capacity h = 0 ∨ 2 ^ 31 ≤ capacity h < UINT_MODULUS →
  insert x h = Undefined.
Proof.
  intros Hfull Hlen Hcap. destruct h as [a c n]. simpl in *. subst n.
  unfold insert, expandHeap, bind, gets, modify. simpl.
  rewrite Z.eqb_refl. simpl.
  destruct Hcap as [->|Hcap].
  - simpl. unfold write, new_array. simpl.
    destruct a; [done|simpl in Hlen; lia].
  - assert (wrap (c * 2) = c * 2 - UINT_MODULUS) as ->.
    { unfold wrap, UINT_MODULUS in *. lia. }
    unfold new_array. rewrite length_replicate.
    destruct (Z.leb_spec c (Z.of_nat (length a))) as [_|]; [|lia].
    destruct (Z.leb_spec c (Z.of_nat (Z.to_nat (c * 2 - UINT_MODULUS))))
      as [Hle|_]; [|done].
    unfold UINT_MODULUS in *. lia.
Qed.

End HeapCalls.

Lemma insert_undefined_when_capacity_cannot_double_witness :
  BinaryHeap.insert (Event.Event3 ARRIVAL 1 1) (BinaryHeap.BinaryHeap1 0)
  = Undefined.
Proof.
  apply insert_undefined_when_capacity_cannot_double;
    [reflexivity|reflexivity|by left].
Defined.

Section HeapBookkeeping.
Context {T : Type} `{!ElementType T} `{!ElementOrder T}.
Import BinaryHeap.
Implicit Types (h : BinaryHeap T) (x : T).

Lemma run_ops_bookkeeping (ops : list op) h :
  wf h →
  removes_nonempty (Z.to_nat (elementCount h)) ops = true →
  2 * (elementCount h + Z.of_nat (length ops)) ≤ UINT_MODULUS →
  ∃ h', run_ops ops h = Ret tt h' ∧ wf h'
        ∧ elementCount h' = elementCount h + net ops
        ∧ capacity h ≤ capacity h'
        ∧ capacity h' ≤ Z.max (capacity h) (2 * (peak (elementCount h) ops - 1))
        ∧ ∃ k : nat, capacity h' = capacity h * 2 ^ Z.of_nat k.
Proof.
  revert h. induction ops as [|[x|] ops IH]; intros h Hwf Hvalid Hsmall.
  - exists h. split_and!; try done; [simpl; lia|simpl; lia|].
    exists 0%nat. simpl. lia.
  - simpl in Hvalid, Hsmall.
    destruct (insert_spec_small x h Hwf)
      as (h1 & Hins & Hwf1 & Hn1 & _ & _ & Hcap1); [lia|].
    destruct (IH h1) as (h' & Hrun & Hwf' & Hn' & Hlo & Hhi & k & Hk); auto.
    { rewrite Hn1. destruct Hwf as [_ ? _].
      by replace (Z.to_nat (elementCount h + 1))
        with (S (Z.to_nat (elementCount h))) by lia. }
    { lia. }
    pose proof (peak_ge (elementCount h + 1) ops) as Hpeak.
    destruct Hwf as [_ Hcount Hcap].
    exists h'. split_and!; [|done|simpl; lia| | |].
    + simpl. unfold run_op.
      rewrite (bind_ret_step _ _ _ _ _
                 (bind_ret_step _ (λ _, ret tt) _ _ _ Hins)).
      done.
    + destruct (Z.eqb_spec (elementCount h) (capacity h)); lia.
    + simpl. rewrite Hn1 in Hhi.
      destruct (Z.eqb_spec (elementCount h) (capacity h)); lia.
    + rewrite Hk, Hcap1.
      destruct (elementCount h =? capacity h); [|by exists k].
      exists (S k). rewrite Nat2Z.inj_succ, Z.pow_succ_r by lia. lia.
  - simpl in Hvalid, Hsmall.
    destruct (Z.to_nat (elementCount h)) as [|n'] eqn:Hn; [done|].
    destruct (remove_spec h Hwf) as (h1 & Hrem & Hwf1 & Hn1 & Hcap1 & _);
      [lia|lia|].
    destruct (IH h1) as (h' & Hrun & Hwf' & Hn' & Hlo & Hhi & k & Hk); auto.
    { rewrite Hn1. by replace (Z.to_nat (elementCount h - 1)) with n' by lia. }
    { lia. }
    exists h'. split_and!; [|done|simpl; lia|lia| |].
    + simpl. by rewrite (bind_ret_step _ _ _ _ _ Hrem).
    + simpl. rewrite Hn1, Hcap1 in Hhi. lia.
    + rewrite Hk, Hcap1. by exists k.
Qed.

(** X7. After a sequence of [insert] and [remove] calls on a fresh heap of
    capacity [c], none of the removals meeting an empty heap, the element
    count is the number of insertions minus the number of removals; the array
    has exactly [capacity] slots, which are enough for the elements; and the
    capacity is [c] doubled some number of times, never below [c] and never
    above the larger of [c] and [2 * (p - 1)], where [p] is the largest
    element count that was reached. *)
Theorem count_and_capacity_after_operations (c : Z) (ops : list op) :
  0 < c < UINT_MODULUS →
  2 * Z.of_nat (length ops) ≤ UINT_MODULUS →
  removes_nonempty 0 ops = true →
  ∃ h, run_ops ops (BinaryHeap1 c) = Ret tt h
       ∧ elementCount h = net ops
       ∧ 0 ≤ elementCount h ≤ capacity h
       ∧ Z.of_nat (length (elements h)) = capacity h
       ∧ c ≤ capacity h ≤ Z.max c (2 * (peak 0 ops - 1))
       ∧ ∃ k : nat, capacity h = c * 2 ^ Z.of_nat k.
Proof.
  intros Hc Hsmall Hvalid.
  destruct (run_ops_bookkeeping ops (BinaryHeap1 c))
    as (h & Hrun & [Hlen Hcount _] & Hn & Hlo & Hhi & Hk).
  - by apply BinaryHeap1_wf.
  - done.
  - simpl. lia.
  - simpl in *. exists h. split_and!; try done; lia.
Qed.

End HeapBookkeeping.

Lemma count_and_capacity_after_operations_witness :
  let ops := [BinaryHeap.Insert (Event.Event3 ARRIVAL 7 2);
              BinaryHeap.Insert (Event.Event3 ARRIVAL 3 1);
              BinaryHeap.Insert (Event.Event2 DEPARTURE 5);
              BinaryHeap.Remove;
              BinaryHeap.Insert (Event.Event3 ARRIVAL 1 1)] in
  ∃ h : BinaryHeap.BinaryHeap Event,
    BinaryHeap.run_ops ops (BinaryHeap.BinaryHeap1 2) = Ret tt h
    ∧ BinaryHeap.elementCount h = BinaryHeap.net ops
    ∧ 0 ≤ BinaryHeap.elementCount h ≤ BinaryHeap.capacity h
    ∧ Z.of_nat (length (BinaryHeap.elements h)) = BinaryHeap.capacity h
    ∧ 2 ≤ BinaryHeap.capacity h ≤ Z.max 2 (2 * (BinaryHeap.peak 0 ops - 1))
    ∧ ∃ k : nat, BinaryHeap.capacity h = 2 * 2 ^ Z.of_nat k.
Proof.
  apply count_and_capacity_after_operations.
  - unfold UINT_MODULUS. lia.
  - unfold UINT_MODULUS. simpl. lia.
  - reflexivity.
Defined.

(** ** PriorityQueue: the facade over the heap *)

Lemma throws_zoom {S U A} (proj : S → U) (upd : U → S → S) (m : M U A) s :
  throws (zoom proj upd m) s ↔ throws m (proj s).
Proof.
  unfold throws, zoom. split; intros (e & s' & H).
  - destruct (m (proj s)) as [a u|e1 u| |]; try done. by exists e1, u.
  - rewrite H. by exists e, (upd s' s).
Qed.

Section PriorityQueueCalls.
Context {T : Type} `{!ElementType T}.
Import PriorityQueue.
Implicit Types (q : PriorityQueue T) (h : BinaryHeap.BinaryHeap T).

Lemma read_only_on_minheap {A} (m : M (BinaryHeap.BinaryHeap T) A) :
  read_only m → read_only (on_minheap m).
Proof. apply read_only_zoom. by intros []. Qed.

Lemma read_only_isEmpty : read_only (isEmpty (T := T)).
Proof.
  unfold isEmpty. apply read_only_bind; [|intros n; apply read_only_ret].
  apply read_only_on_minheap, read_only_gets.
Qed.

Lemma read_only_peek : read_only (peek (T := T)).
Proof.
  unfold peek. apply read_only_bind; [apply read_only_isEmpty|intros e].
  destruct e; [apply read_only_throw|].
  apply read_only_on_minheap, read_only_retrieve.
Qed.

Lemma dequeue_throws_iff q :
  throws dequeue q ↔ BinaryHeap.elementCount (minheap q) = 0.
Proof.
  split.
  - intros (e & q' & Hthrow).
    destruct (Z.eq_dec (BinaryHeap.elementCount (minheap q)) 0) as [|Hne];
      [done|].
    rewrite dequeue_nonempty in Hthrow by done.
    apply (remove_throws_iff (minheap q)).
    apply (throws_zoom minheap (λ h _, mk h)). by exists e, q'.
  - intros Hz. eexists _, _. by apply dequeue_empty.
Qed.

Lemma peek_throws_iff q :
  throws peek q ↔ BinaryHeap.elementCount (minheap q) = 0.
Proof.
  split.
  - intros (e & q' & Hthrow).
    destruct (Z.eq_dec (BinaryHeap.elementCount (minheap q)) 0) as [|Hne];
      [done|].
    rewrite peek_nonempty in Hthrow by done.
    apply (retrieve_throws_iff (minheap q)).
    apply (throws_zoom minheap (λ h _, mk h)). by exists e, q'.
  - intros Hz. eexists _, _. by apply peek_empty.
Qed.

Lemma never_throws_enqueue (x : T) : never_throws (enqueue x).
Proof.
  intros q Hthrow. unfold enqueue, on_minheap in Hthrow.
  apply throws_zoom in Hthrow. by apply never_throws_insert in Hthrow.
Qed.

End PriorityQueueCalls.

Section PriorityQueueSorts.
Context {T : Type} `{!ElementType T} `{!ElementOrder T}.
Import PriorityQueue.
Implicit Types (q : PriorityQueue T) (h : BinaryHeap.BinaryHeap T).

Lemma priority_enqueue_all_spec xs q :
  BinaryHeap.wf (minheap q) → BinaryHeap.heap_ordered (minheap q) →
  2 * (BinaryHeap.elementCount (minheap q) + Z.of_nat (length xs))
    ≤ UINT_MODULUS →
  ∃ q', enqueue_all xs q = Ret tt q'
        ∧ BinaryHeap.wf (minheap q') ∧ BinaryHeap.heap_ordered (minheap q')
        ∧ BinaryHeap.elementCount (minheap q')
          = BinaryHeap.elementCount (minheap q) + Z.of_nat (length xs)
        ∧ contents q' ≡ₚ contents q ++ xs.
Proof.
  revert q. induction xs as [|x xs IH]; intros q Hwf Hheap Hsmall.
  - exists q. split_and!; try done; [simpl; lia|by rewrite app_nil_r].
  - simpl in Hsmall.
    destruct (insert_spec_small x (minheap q) Hwf)
      as (h1 & Hins & Hwf1 & Hn1 & Hc1 & Hh1 & _); [lia|].
    destruct (IH (mk h1)) as (q' & Hrun & Hwf' & Hheap' & Hn' & Hc');
      simpl; auto; [lia|].
    exists q'. split_and!; [|done|done|simpl in Hn'; simpl; lia|].
    + assert (enqueue x q = Ret true (mk h1)) as Henq.
      { exact (on_minheap_ret _ _ _ _ Hins). }
      change (enqueue_all (x :: xs) q)
        with (bind (enqueue x) (λ _, enqueue_all xs) q).
      by rewrite (bind_ret_step _ _ _ _ _ Henq).
    + rewrite Hc'. unfold contents. simpl. rewrite Hc1. simpl.
      apply Permutation_middle.
Qed.

#[local] Arguments PriorityQueue.dequeue : simpl never.
#[local] Arguments PriorityQueue.peek : simpl never.
#[local] Arguments PriorityQueue.isEmpty : simpl never.

Lemma priority_drain_loop_spec (fuel : nat) (out : list T) q :
  BinaryHeap.wf (minheap q) → BinaryHeap.heap_ordered (minheap q) →
  2 * BinaryHeap.elementCount (minheap q) ≤ UINT_MODULUS →
  (Z.to_nat (BinaryHeap.elementCount (minheap q)) < fuel)%nat →
  ∃ ys q', drain_loop fuel out q = Ret (out ++ ys) q'
           ∧ ys ≡ₚ contents q
           ∧ StronglySorted BinaryHeap.le ys
           ∧ BinaryHeap.elementCount (minheap q') = 0.
Proof.
  revert out q. induction fuel as [|fuel IH];
    intros out q Hwf Hheap Hsmall Hfuel; [lia|].
  simpl. rewrite (bind_ret_step _ _ _ _ _ (isEmpty_eq q)).
  destruct (Z.eqb_spec (BinaryHeap.elementCount (minheap q)) 0) as [Hz|Hnz].
  - exists [], q. split_and!; [by rewrite app_nil_r| |constructor|done].
    unfold contents, BinaryHeap.contents. by rewrite Hz.
  - pose proof Hwf as [_ Hn _].
    assert (0 < BinaryHeap.elementCount (minheap q)) as Hpos by lia.
    assert (peek q = Ret (BinaryHeap.elements (minheap q) !!! 0%nat) q)
      as Hpeek.
    { rewrite peek_nonempty by done.
      rewrite (on_minheap_ret _ _ _ _ (retrieve_spec _ Hwf Hpos)).
      by destruct q. }
    rewrite (bind_ret_step _ _ _ _ _ Hpeek).
    destruct (remove_spec (minheap q) Hwf)
      as (h1 & Hrem & Hwf1 & Hn1 & _ & Hc1 & Hh1); [lia|lia|].
    assert (dequeue q = Ret tt (mk h1)) as Hdeq.
    { rewrite dequeue_nonempty by done. exact (on_minheap_ret _ _ _ _ Hrem). }
    rewrite (bind_ret_step _ _ _ _ _ Hdeq).
    destruct (IH (out ++ [BinaryHeap.elements (minheap q) !!! 0%nat]) (mk h1))
      as (ys & q' & Hrun & Hperm & Hsorted & Hempty); simpl; auto;
      [lia|lia|].
    exists (BinaryHeap.elements (minheap q) !!! 0%nat :: ys), q'. split_and!.
    + by rewrite Hrun, <- app_assoc.
    + unfold contents in *. simpl in Hperm. by rewrite Hperm.
    + constructor; [done|].
      apply Forall_forall. intros y Hy.
      apply (heap_ordered_min_at_root (minheap q) Hwf Hheap).
      rewrite <- Hc1. simpl in Hperm. rewrite <- Hperm. by right.
    + done.
Qed.

(** X8. A new priority queue (its heap has capacity 2) takes any elements,
    up to 2^31 of them, growing as needed; the client loop
    [while (!isEmpty()) { peek(); dequeue(); }] then ends without an
    exception, has read the elements in non-decreasing order, exactly the
    ones that were enqueued, and leaves a queue that reports to be empty. *)
Theorem priority_queue_serves_in_order (xs : list T) :
  2 * Z.of_nat (length xs) ≤ UINT_MODULUS →
  ∃ q ys q',
    enqueue_all xs PriorityQueue0 = Ret tt q
    ∧ contents q ≡ₚ xs
    ∧ isEmpty q = Ret (bool_decide (xs = [])) q
    ∧ drain q = Ret ys q'
    ∧ ys ≡ₚ xs
    ∧ StronglySorted BinaryHeap.le ys
    ∧ isEmpty q' = Ret true q'.
Proof.
  intros Hlen.
  destruct (priority_enqueue_all_spec xs PriorityQueue0)
    as (q & Hrun & Hwf & Hheap & Hn & Hperm).
  { apply BinaryHeap1_wf. unfold UINT_MODULUS. lia. }
  { apply BinaryHeap1_ordered. }
  { simpl. lia. }
  simpl in Hn, Hperm.
  destruct (priority_drain_loop_spec
              (S (Z.to_nat (BinaryHeap.elementCount (minheap q)))) [] q)
    as (ys & q' & Hdrain & Hys & Hsorted & Hempty); [done|done|lia|lia|].
  exists q, ys, q'. split_and!; try done.
  - rewrite isEmpty_eq, Hn. f_equal.
    by destruct xs.
  - by rewrite Hys.
  - rewrite isEmpty_eq, Hempty. done.
Qed.

End PriorityQueueSorts.

Lemma priority_queue_serves_in_order_witness :
  let xs := [Event.Event3 ARRIVAL 9 1; Event.Event3 ARRIVAL 4 2;
             Event.Event2 DEPARTURE 6; Event.Event3 ARRIVAL 1 5] in
  ∃ (q : PriorityQueue.PriorityQueue Event) ys q',
    PriorityQueue.enqueue_all xs PriorityQueue.PriorityQueue0 = Ret tt q
    ∧ PriorityQueue.contents q ≡ₚ xs
    ∧ PriorityQueue.isEmpty q = Ret (bool_decide (xs = [])) q
    ∧ PriorityQueue.drain q = Ret ys q'
    ∧ ys ≡ₚ xs
    ∧ StronglySorted BinaryHeap.le ys
    ∧ PriorityQueue.isEmpty q' = Ret true q'.
Proof.
  apply priority_queue_serves_in_order. unfold UINT_MODULUS. simpl. lia.
Defined.

(** ** Queue: the linked list *)

Section QueueCalls.
Context {T : Type}.
Import Queue.
Implicit Types (q : Queue T) (l xs : list T) (addrs : list positive).

Lemma never_throws_deref (p : ptr) : never_throws (deref (T := T) p).
Proof.
  intros q (e & q' & H). unfold deref in H.
  destruct p as [a|]; [|done]. by destruct (store q !! a).
Qed.

Lemma read_only_deref (p : ptr) : read_only (deref (T := T) p).
Proof.
  intros q. unfold deref. destruct p as [a|]; [|done].
  by destruct (store q !! a).
Qed.

Lemma read_only_queue_isEmpty : read_only (isEmpty (T := T)).
Proof. apply read_only_gets. Qed.

Lemma read_only_queue_peek : read_only (peek (T := T)).
Proof.
  unfold peek. apply read_only_bind; [apply read_only_queue_isEmpty|intros e].
  destruct e; [apply read_only_throw|].
  apply read_only_bind; [apply read_only_gets|intros h].
  apply read_only_bind; [apply read_only_deref|intros nd].
  apply read_only_ret.
Qed.

Lemma never_throws_queue_enqueue (x : T) : never_throws (enqueue x).
Proof.
  unfold enqueue.
  apply never_throws_bind; [by intros q (e & q' & H)|intros myNode].
  apply never_throws_bind; [apply never_throws_gets|intros e].
  apply never_throws_bind; [|intros _].
  { apply never_throws_if.
    - apply never_throws_bind; [apply never_throws_modify|intros _].
      apply never_throws_modify.
    - apply never_throws_bind; [apply never_throws_gets|intros t].
      apply never_throws_bind; [|intros _; apply never_throws_modify].
      unfold assign_next.
      apply never_throws_bind; [apply never_throws_deref|intros nd].
      destruct t; [apply never_throws_modify|apply never_throws_undefined]. }
  apply never_throws_bind; [apply never_throws_gets|intros n].
  apply never_throws_bind; [apply never_throws_int_op|intros n'].
  apply never_throws_bind; [apply never_throws_modify|intros _].
  apply never_throws_ret.
Qed.

Lemma queue_dequeue_throws_iff q : throws dequeue q ↔ size q = 0.
Proof.
  split.
  - intros Hthrow. destruct (Z.eqb_spec (size q) 0) as [|Hne]; [done|].
    exfalso. revert Hthrow. unfold dequeue, throws.
    rewrite bind_ret_step with (a := size q =? 0) (s' := q) by done.
    apply Z.eqb_neq in Hne. rewrite Hne.
    apply (never_throws_bind (gets head)); [apply never_throws_gets|intros temp].
    apply never_throws_bind; [apply never_throws_deref|intros nd].
    apply never_throws_bind; [apply never_throws_modify|intros _].
    apply never_throws_bind; [|intros _].
    { unfold delete_Node. destruct temp; [|apply never_throws_ret].
      apply never_throws_bind; [apply never_throws_deref|intros _].
      apply never_throws_modify. }
    apply never_throws_bind; [apply never_throws_gets|intros n].
    apply never_throws_bind; [apply never_throws_int_op|intros n'].
    apply never_throws_bind; [apply never_throws_modify|intros _].
    apply never_throws_bind; [apply never_throws_gets|intros e].
    apply never_throws_if; [apply never_throws_modify|apply never_throws_ret].
  - intros Hz. exists EmptyDataCollectionException, q.
    unfold dequeue, isEmpty, bind, gets. by rewrite Hz.
Qed.

Lemma queue_peek_throws_iff q : throws peek q ↔ size q = 0.
Proof.
  split.
  - intros Hthrow. destruct (Z.eqb_spec (size q) 0) as [|Hne]; [done|].
    exfalso. revert Hthrow. unfold peek, throws.
    rewrite bind_ret_step with (a := size q =? 0) (s' := q) by done.
    apply Z.eqb_neq in Hne. rewrite Hne.
    apply (never_throws_bind (gets head)); [apply never_throws_gets|intros h].
    apply never_throws_bind; [apply never_throws_deref|intros nd].
    apply never_throws_ret.
  - intros Hz. exists EmptyDataCollectionException, q.
    unfold peek, isEmpty, bind, gets. by rewrite Hz.
Qed.

(** Following the [next] pointers from [head] visits the elements that the
    queue represents, oldest first. *)
Lemma represents_walk q addrs l (k i : nat) :
  represents q addrs l → (k + i = length l)%nat →
  walk k (store q) (addrs !! i) = drop i l.
Proof.
  intros Hrep. revert i. induction k as [|k IH]; intros i Hki.
  - rewrite drop_ge by lia. simpl. by destruct (addrs !! i).
  - pose proof (rep_addrs _ _ _ Hrep) as Hlen.
    destruct (lookup_lt_is_Some_2 addrs i) as [a Ha]; [lia|].
    destruct (rep_nodes _ _ _ Hrep i a Ha) as (x & Hx & Hnode).
    rewrite Ha. simpl. rewrite Hnode. simpl.
    rewrite IH by lia. symmetry. by apply drop_S.
Qed.

Lemma represents_to_list q addrs l : represents q addrs l → to_list q = l.
Proof.
  intros Hrep. unfold to_list.
  rewrite (rep_size _ _ _ Hrep), (rep_head _ _ _ Hrep), Nat2Z.id.
  by rewrite (represents_walk q addrs l (length l) 0 Hrep) by lia.
Qed.

Lemma run_ops_refines (ops : list op) q addrs l (out : list T) :
  represents q addrs l →
  size q + Z.of_nat (length ops) ≤ INT_MAX →
  match list_ops ops l out with
  | Some (l', out') =>
      ∃ q' addrs', run_ops ops out q = Ret out' q' ∧ represents q' addrs' l'
  | None => ∃ q', run_ops ops out q = Throw EmptyDataCollectionException q'
  end.
Proof.
  revert q addrs l out.
  induction ops as [|[x|] ops IH]; intros q addrs l out Hrep Hsmall.
  - simpl. by exists q, addrs.
  - simpl in Hsmall.
    destruct (enqueue_spec x q addrs l Hrep) as (q1 & a & Henq & Hrep1); [lia|].
    specialize (IH q1 (addrs ++ [a]) (l ++ [x]) out Hrep1).
    pose proof (rep_size _ _ _ Hrep) as Hn.
    pose proof (rep_size _ _ _ Hrep1) as Hn1.
    rewrite length_app in Hn1. simpl in Hn1.
    change (list_ops (Enqueue x :: ops) l out)
      with (list_ops ops (l ++ [x]) out).
    change (run_ops (Enqueue x :: ops) out q)
      with (bind (enqueue x) (λ _, run_ops ops out) q).
    rewrite (bind_ret_step _ _ _ _ _ Henq). apply IH. lia.
  - simpl in Hsmall.
    change (run_ops (Dequeue :: ops) out q)
      with (bind peek (λ x, bind dequeue (λ _, run_ops ops (out ++ [x]))) q).
    pose proof (rep_size _ _ _ Hrep) as Hn.
    pose proof (rep_addrs _ _ _ Hrep) as Hlen.
    destruct l as [|x l].
    + simpl. exists q. apply bind_throw_step.
      unfold peek, isEmpty, bind, gets. by rewrite Hn.
    + destruct addrs as [|a addrs]; [done|].
      destruct (dequeue_spec q a addrs x l Hrep) as (q1 & Hdeq & Hrep1).
      rewrite (bind_ret_step _ _ _ _ _ (peek_spec q a addrs x l Hrep)).
      rewrite (bind_ret_step _ _ _ _ _ Hdeq).
      pose proof (rep_size _ _ _ Hrep1) as Hn1. simpl in Hn.
      apply (IH q1 addrs l (out ++ [x]) Hrep1). lia.
Qed.

Lemma destructor_loop_spec (fuel : nat) q addrs l :
  represents q addrs l → (length l < fuel)%nat →
  destructor_loop fuel q = Ret tt Queue0.
Proof.
  revert q addrs l. induction fuel as [|fuel IH]; intros q addrs l Hrep Hfuel;
    [lia|].
  change (destructor_loop (S fuel) q)
    with (bind isEmpty
            (λ e, if e then ret tt
                  else bind dequeue (λ _, destructor_loop fuel)) q).
  pose proof (rep_size _ _ _ Hrep) as Hn.
  pose proof (rep_addrs _ _ _ Hrep) as Hlen.
  rewrite bind_ret_step with (a := size q =? 0) (s' := q) by done.
  destruct l as [|x l].
  - destruct addrs; [|done]. rewrite Hn. simpl.
    by rewrite (represents_nil q Hrep).
  - destruct addrs as [|a addrs]; [done|].
    destruct (Z.eqb_spec (size q) 0) as [Hz|_]; [simpl in Hn; lia|].
    destruct (dequeue_spec q a addrs x l Hrep) as (q1 & Hdeq & Hrep1).
    rewrite (bind_ret_step _ _ _ _ _ Hdeq).
    apply (IH q1 addrs l Hrep1). simpl in Hfuel. lia.
Qed.

(** X9. The linked queue behaves like a list that holds the elements oldest
    first. For every sequence of at most INT_MAX client operations on a new
    queue, [Enqueue x] calling [enqueue(x)] and [Dequeue] calling [peek()]
    and then [dequeue()]: when the same operations succeed on the list, the
    calls return, the elements read are those read from the list, and the
    queue holds the elements of the list in the same order, the next
    pointers from [head] leading through them; when a [Dequeue] meets the
    empty list, the calls end in [EmptyDataCollectionException]. *)
Theorem queue_refines_list (ops : list op) :
  Z.of_nat (length ops) ≤ INT_MAX →
  match list_ops ops [] [] with
  | Some (l, out) =>
      ∃ q, run_ops ops [] Queue0 = Ret out q
           ∧ to_list q = l
           ∧ size q = Z.of_nat (length l)
  | None =>
      ∃ q, run_ops ops [] Queue0 = Throw EmptyDataCollectionException q
  end.
Proof.
  intros Hsmall.
  pose proof (run_ops_refines ops Queue0 [] [] [] Queue0_represents) as Hrun.
  destruct (list_ops ops [] []) as [[l out]|].
  - destruct Hrun as (q & addrs & Hrun & Hrep); [simpl; lia|].
    exists q. split_and!; [done| |].
    + by apply (represents_to_list q addrs).
    + apply (rep_size _ _ _ Hrep).
  - apply Hrun. simpl. lia.
Qed.

(** X10. The class invariant of the linked queue holds after every sequence
    of at most INT_MAX client operations that returns: [size] is 0 exactly
    when [head] is null, and then [tail] is null too; the number of
    allocated nodes is [size], so no node has leaked; [head] points to an
    allocated node; and [tail] points to a node whose [next] is null. *)
Theorem queue_class_invariant (ops : list op) (out : list T) q :
  Z.of_nat (length ops) ≤ INT_MAX →
  run_ops ops [] Queue0 = Ret out q →
  (size q = 0 ↔ head q = None)
  ∧ (head q = None ↔ tail q = None)
  ∧ Z.of_nat (base.size (store q)) = size q
  ∧ (∀ a, head q = Some a → is_Some (store q !! a))
  ∧ (∀ a, tail q = Some a → ∃ x, store q !! a = Some (mkNode x None)).
Proof.
  intros Hsmall Hrun.
  pose proof (run_ops_refines ops Queue0 [] [] [] Queue0_represents) as Href.
  destruct (list_ops ops [] []) as [[l out']|].
  2: { destruct Href as (q' & Href); [simpl; lia|]. congruence. }
  destruct Href as (q' & addrs & Href & Hrep); [simpl; lia|].
  rewrite Hrun in Href. injection Href as _ <-.
  destruct Hrep as [Hn _ Hlen Hdom Hnodup Hhead Htail Hnodes].
  split_and!.
  - rewrite Hhead. destruct addrs; simpl in *; split; try done; lia.
  - rewrite Hhead, Htail. destruct addrs as [|a addrs]; [done|].
    split; [done|]. intros Hlast.
    by rewrite last_cons in Hlast; destruct (last addrs).
  - rewrite <- size_dom, Hdom, size_list_to_set by done. lia.
  - intros a Ha. rewrite Hhead in Ha.
    destruct (Hnodes 0%nat a Ha) as (x & _ & Hx). by eexists.
  - intros a Ha. rewrite Htail, last_lookup in Ha.
    destruct (Hnodes _ a Ha) as (x & _ & Hx). exists x.
    rewrite Hx. f_equal. f_equal. apply lookup_ge_None_2. lia.
Qed.

(** X11. The destructor, [while (!isEmpty()) dequeue();], run on a queue
    that at most INT_MAX client operations have built, returns without an
    exception and frees every node: what is left is the empty queue with no
    allocated node. *)
Theorem queue_destructor_frees_all (ops : list op) (out : list T) q :
  Z.of_nat (length ops) ≤ INT_MAX →
  run_ops ops [] Queue0 = Ret out q →
  destructor q = Ret tt Queue0.
Proof.
  intros Hsmall Hrun.
  pose proof (run_ops_refines ops Queue0 [] [] [] Queue0_represents) as Href.
  destruct (list_ops ops [] []) as [[l out']|].
  2: { destruct Href as (q' & Href); [simpl; lia|]. congruence. }
  destruct Href as (q' & addrs & Href & Hrep); [simpl; lia|].
  rewrite Hrun in Href. injection Href as _ <-.
  unfold destructor. rewrite bind_gets.
  apply (destructor_loop_spec _ q addrs l Hrep).
  rewrite (rep_size _ _ _ Hrep). lia.
Qed.

End QueueCalls.

Lemma queue_refines_list_witness :
  ∃ q : Queue.Queue Z,
    Queue.run_ops [Queue.Enqueue 5; Queue.Enqueue 3; Queue.Dequeue;
                   Queue.Enqueue 8] [] Queue.Queue0 = Ret [5] q
    ∧ Queue.to_list q = [3; 8]
    ∧ Queue.size q = 2.
Proof.
  apply (queue_refines_list
           [Queue.Enqueue 5; Queue.Enqueue 3; Queue.Dequeue; Queue.Enqueue 8]).
  unfold INT_MAX. simpl. lia.
Defined.

Lemma queue_class_invariant_witness :
  let ops := [Queue.Enqueue 5; Queue.Enqueue 3; Queue.Dequeue;
              Queue.Enqueue 8] in
  ∃ (out : list Z) (q : Queue.Queue Z),
    Queue.run_ops ops [] Queue.Queue0 = Ret out q
    ∧ (Queue.size q = 0 ↔ Queue.head q = None)
    ∧ (Queue.head q = None ↔ Queue.tail q = None)
    ∧ Z.of_nat (base.size (Queue.store q)) = Queue.size q
    ∧ (∀ a, Queue.head q = Some a → is_Some (Queue.store q !! a))
    ∧ (∀ a, Queue.tail q = Some a →
            ∃ x, Queue.store q !! a = Some (Queue.mkNode x None)).
Proof.
  intros ops. eexists _, _. split; [vm_compute; reflexivity|].
  apply (queue_class_invariant ops [5]).
  - unfold INT_MAX. simpl. lia.
  - vm_compute. reflexivity.
Defined.

Lemma queue_destructor_frees_all_witness :
  let ops := [Queue.Enqueue 5; Queue.Enqueue 3; Queue.Dequeue;
              Queue.Enqueue 8] in
  ∃ (out : list Z) (q : Queue.Queue Z),
    Queue.run_ops ops [] Queue.Queue0 = Ret out q
    ∧ Queue.size q = 2
    ∧ Queue.destructor q = Ret tt Queue.Queue0.
Proof.
  intros ops. eexists _, _. split; [vm_compute; reflexivity|].
  split; [reflexivity|].
  apply (queue_destructor_frees_all ops [5]).
  - unfold INT_MAX. simpl. lia.
  - vm_compute. reflexivity.
Defined.

(** ** The three containers: observers and exceptions *)

(** X4. The observers of the three containers, the member functions that
    are declared [const], leave their object exactly as it was, whether they
    return or throw: [getElementCount] and [retrieve] of the heap, [isEmpty]
    and [peek] of the priority queue, [isEmpty] and [peek] of the linked
    queue. *)
Theorem observers_leave_object_unchanged {T U : Type} `{!ElementType T} :
  read_only (BinaryHeap.getElementCount (T := T))
  ∧ read_only (BinaryHeap.retrieve (T := T))
  ∧ read_only (PriorityQueue.isEmpty (T := T))
  ∧ read_only (PriorityQueue.peek (T := T))
  ∧ read_only (Queue.isEmpty (T := U))
  ∧ read_only (Queue.peek (T := U)).
Proof.
  split_and!.
  - apply read_only_gets.
  - apply read_only_retrieve.
  - apply read_only_isEmpty.
  - apply read_only_peek.
  - apply read_only_queue_isEmpty.
  - apply read_only_queue_peek.
Qed.

(** X5. [EmptyDataCollectionException] is thrown exactly on an empty
    container, whatever else the state of the object is: [remove] and
    [retrieve] of the heap throw if and only if [elementCount] is 0,
    [dequeue] and [peek] of the priority queue if and only if its heap counts
    0 elements, [dequeue] and [peek] of the linked queue if and only if
    [size] is 0. [insert] and the two [enqueue]s never throw. *)
Theorem exception_exactly_when_empty {T U : Type} `{!ElementType T} :
  (∀ h : BinaryHeap.BinaryHeap T,
     (throws BinaryHeap.remove h ↔ BinaryHeap.elementCount h = 0)
     ∧ (throws BinaryHeap.retrieve h ↔ BinaryHeap.elementCount h = 0))
  ∧ (∀ q : PriorityQueue.PriorityQueue T,
       (throws PriorityQueue.dequeue q
        ↔ BinaryHeap.elementCount (PriorityQueue.minheap q) = 0)
       ∧ (throws PriorityQueue.peek q
          ↔ BinaryHeap.elementCount (PriorityQueue.minheap q) = 0))
  ∧ (∀ q : Queue.Queue U,
       (throws Queue.dequeue q ↔ Queue.size q = 0)
       ∧ (throws Queue.peek q ↔ Queue.size q = 0))
  ∧ (∀ x : T, never_throws (BinaryHeap.insert x)
              ∧ never_throws (PriorityQueue.enqueue x))
  ∧ (∀ x : U, never_throws (Queue.enqueue x)).
Proof.
  split_and!.
  - intros h. split; [apply remove_throws_iff|apply retrieve_throws_iff].
  - intros q. split; [apply dequeue_throws_iff|apply peek_throws_iff].
  - intros q.
    split; [apply queue_dequeue_throws_iff|apply queue_peek_throws_iff].
  - intros x. split; [apply never_throws_insert|apply never_throws_enqueue].
  - intros x. apply never_throws_queue_enqueue.
Qed.

(** ** BankSimApp: what the two event handlers leave alone *)

Section SimulationFrames.
Import BankSimApp.
Implicit Types (s : state) (e : Event).

#[local] Instance arrival_frame_refl : Reflexive arrival_frame.
Proof. by intros s. Qed.

#[local] Instance arrival_frame_trans : Transitive arrival_frame.
Proof.
  intros s1 s2 s3 (? & ? & ? & ? & ?) (? & ? & ? & ? & ?).
  split_and!; try congruence. auto.
Qed.

#[local] Instance departure_frame_refl : Reflexive departure_frame.
Proof. by intros s. Qed.

#[local] Instance departure_frame_trans : Transitive departure_frame.
Proof.
  intros s1 s2 s3 (? & ? & ? & ?) (? & ? & ? & ?).
  split_and!; try congruence. auto.
Qed.

Lemma processArrival_stable e : stable arrival_frame (processArrival e).
Proof.
  unfold processArrival.
  apply stable_bind; [apply _|by apply stable_zoom|intros _].
  apply stable_bind; [apply _|by apply stable_zoom|intros lineEmpty].
  apply stable_bind; [apply _|by apply stable_gets|intros free].
  destruct (lineEmpty && free).
  - apply stable_bind; [apply _|by apply stable_gets|intros now].
    apply stable_bind; [apply _|by apply stable_int_op|intros t].
    apply stable_bind; [apply _|by apply stable_zoom|intros _].
    by apply stable_modify.
  - apply stable_bind; [apply _|by apply stable_zoom|intros _].
    by apply stable_ret.
Qed.

Lemma processDeparture_stable e : stable departure_frame (processDeparture e).
Proof.
  unfold processDeparture.
  apply stable_bind; [apply _|by apply stable_zoom|intros _].
  apply stable_bind; [apply _|by apply stable_zoom|intros lineEmpty].
  destruct lineEmpty; simpl.
  - by apply stable_modify.
  - apply stable_bind; [apply _|by apply stable_zoom|intros customer].
    apply stable_bind; [apply _|by apply stable_zoom|intros _].
    apply stable_bind; [apply _|by apply stable_gets|intros now].
    apply stable_bind; [apply _|by apply stable_int_op|intros w].
    apply stable_bind; [apply _|by apply stable_gets|intros total].
    apply stable_bind; [apply _|by apply stable_int_op|intros total'].
    apply stable_bind; [apply _|by apply stable_modify|intros _].
    apply stable_bind; [apply _|by apply stable_int_op|intros t].
    apply stable_bind; [apply _|by apply stable_zoom|intros _].
    by apply stable_ret.
Qed.

(** X12. Whatever the state in which it is called, a call of
    [processArrival] that returns has not changed the clock, the customer
    count, the total wait or the output, and it has not freed the teller: if
    the teller is available after the call, it was available before. *)
Theorem processArrival_frame e s s' :
  processArrival e s = Ret tt s' →
  simulationTime s' = simulationTime s
  ∧ customerCount s' = customerCount s
  ∧ cumulativeWaitTime s' = cumulativeWaitTime s
  ∧ cout s' = cout s
  ∧ (tellerAvailable s' = true → tellerAvailable s = true).
Proof. intros Hrun. exact (processArrival_stable e s tt s' Hrun). Qed.

(** X13. Whatever the state in which it is called, a call of
    [processDeparture] that returns has not changed the clock, the customer
    count or the output, and it has not taken the teller: if the teller was
    available before the call, it is available after. *)
Theorem processDeparture_frame e s s' :
  processDeparture e s = Ret tt s' →
  simulationTime s' = simulationTime s
  ∧ customerCount s' = customerCount s
  ∧ cout s' = cout s
  ∧ (tellerAvailable s = true → tellerAvailable s' = true).
Proof. intros Hrun. exact (processDeparture_stable e s tt s' Hrun). Qed.

End SimulationFrames.

(** ** BankSimApp: the log and the accounts of a run *)

Section SimulationRuns.
Import BankSimApp.
Implicit Types (s : state) (ws : list Event) (e : Event).

#[local] Arguments BinaryHeap.insert : simpl never.
#[local] Arguments BinaryHeap.remove : simpl never.
#[local] Arguments BinaryHeap.retrieve : simpl never.
#[local] Arguments PriorityQueue.enqueue : simpl never.
#[local] Arguments PriorityQueue.dequeue : simpl never.
#[local] Arguments PriorityQueue.peek : simpl never.
#[local] Arguments in_int : simpl never.

Lemma setup_cout input s :
  setup input initial_state = Ret tt s → cout s = [SimulationBegins].
Proof.
  unfold setup. rewrite bind_print.
  set (s0 := mk _ _ _ _ _ _ _). intros Hrun.
  pose proof (read_customers_spec input s0) as Hread. rewrite Hrun in Hread.
  destruct Hread as (_ & _ & _ & _ & _ & _ & _ & _ & _ & _ & Hcout).
  { by apply BinaryHeap1_wf. }
  { apply BinaryHeap1_ordered. }
  { simpl. done. }
  by rewrite Hcout.
Qed.

Lemma isArrival_type e :
  Event.type e = if Event.isArrival e then ARRIVAL else DEPARTURE.
Proof. by destruct e as [[] ? ?]. Qed.

Lemma loop_body_cout s s' :
  BinaryHeap.wf (heap s) → loop_body s = Ret tt s' →
  cout s' = cout s ++ [Processing (Event.type (next_event s))
                                  (Event.time (next_event s))].
Proof.
  intros Hwf Hrun. pose proof (loop_body_ret_nonempty _ _ Hrun) as Hne.
  unfold loop_body in Hrun.
  rewrite (bind_ret_step _ _ _ _ _ (on_events_peek s Hwf Hne)), bind_modify
    in Hrun.
  rewrite (isArrival_type (next_event s)).
  destruct (Event.isArrival (next_event s));
    unfold outputEventProcessing in Hrun; rewrite bind_print in Hrun.
  - destruct (processArrival_stable _ _ _ _ Hrun) as (_ & _ & _ & Hcout & _).
    by rewrite Hcout.
  - destruct (processDeparture_stable _ _ _ _ Hrun) as (_ & _ & Hcout & _).
    by rewrite Hcout.
Qed.

Lemma processed_snoc out k t :
  processed (out ++ [Processing k t]) = processed out ++ [(k, t)].
Proof. unfold processed. by rewrite omap_app. Qed.

Lemma times_of_snoc k l k' t :
  times_of k (l ++ [(k', t)])
  = times_of k l ++ (if Event.EventType_eqb k' k then [t] else []).
Proof.
  unfold times_of. rewrite filter_app, fmap_app. f_equal.
  rewrite filter_cons. simpl.
  destruct (Event.EventType_eqb k' k); by case_decide.
Qed.

Lemma sum_app l1 l2 : sum (l1 ++ l2) = sum l1 + sum l2.
Proof. induction l1 as [|x l1 IH]; simpl; lia. Qed.

Lemma weight_app l1 l2 : weight (l1 ++ l2) = weight l1 + weight l2.
Proof. induction l1 as [|x l1 IH]; simpl; lia. Qed.

Lemma weight_perm l1 l2 : l1 ≡ₚ l2 → weight l1 = weight l2.
Proof. induction 1; simpl; lia. Qed.

Lemma step_rel_time s ws s' ws' :
  step_rel s ws s' ws' → simulationTime s' = Event.time (next_event s).
Proof. by intros [| | |]. Qed.

Lemma arrival_times_cons e l :
  Event.time <$> filter (λ x, Event.isArrival x = true) (e :: l)
  = (if Event.isArrival e then [Event.time e] else [])
      ++ (Event.time <$> filter (λ x, Event.isArrival x = true) l).
Proof. rewrite filter_cons. destruct (Event.isArrival e); by case_decide. Qed.

Lemma step_account input s ws s' ws' :
  account_inv input s ws → step_rel s ws s' ws' →
  cout s' = cout s ++ [Processing (Event.type (next_event s))
                                  (Event.time (next_event s))] →
  account_inv input s' ws'.
Proof.
  intros [Hcout Harrs Hdeps Hlens Hwait] Hstep Hout.
  assert (log s' = log s ++ [(Event.type (next_event s),
                              Event.time (next_event s))]) as Hlog.
  { unfold log. rewrite Hout. apply processed_snoc. }
  assert (cout s' = SimulationBegins :: ((λ p, Processing p.1 p.2) <$> log s'))
    as Hcout'.
  { by rewrite Hout, Hcout, Hlog, fmap_app. }
  pose proof (isArrival_type (next_event s)) as Htype.
  destruct Hstep as [rest e Hag Harr Hws Hfree _ Hag' _ _ Hcum
                    |rest e Hag Harr _ Hag' _ _ Hcum
                    |rest c ws1 e w Hag Harr Hws _ _ _ Hag' _ _ Hcum
                    |rest e Hag Harr Hws Hag' _ _ Hcum];
    subst e; rewrite Harr in Htype; rewrite Htype in Hlog;
    rewrite <- Hag in Harrs;
    rewrite <- (Permutation_length (departures_perm _ _ Hag)) in Hdeps;
    rewrite <- (weight_perm _ _ Hag) in Hwait;
    rewrite arrival_times_cons, Harr in Harrs;
    rewrite departures_cons, Harr in Hdeps;
    simpl in Harrs, Hdeps, Hwait;
    (split; [done| | | |]).
  - rewrite Hag', Hlog, times_of_snoc, arrival_times_cons. simpl.
    rewrite <- Harrs. rewrite app_assoc. by rewrite <- Permutation_cons_append.
  - rewrite (Permutation_length (departures_perm _ _ Hag')), departures_cons, Hlog,
      !times_of_snoc.
    simpl. rewrite ?length_app, ?app_nil_r. subst ws. simpl in *. lia.
  - intros x Hx. rewrite Hag' in Hx. apply elem_of_cons in Hx as [->|Hx].
    + apply Event2_length_invariant.
    + apply Hlens. rewrite <- Hag. by right.
  - rewrite Hlog, times_of_snoc, (weight_perm _ _ Hag'). simpl.
    rewrite app_nil_r. subst ws. simpl in *. lia.
  - rewrite Hag', Hlog, times_of_snoc. simpl.
    rewrite <- Harrs. rewrite app_assoc. by rewrite <- Permutation_cons_append.
  - rewrite (Permutation_length (departures_perm _ _ Hag')), Hlog, !times_of_snoc.
    simpl. rewrite ?length_app, ?app_nil_r. simpl in *. lia.
  - intros x Hx. rewrite Hag' in Hx. apply Hlens. rewrite <- Hag. by right.
  - rewrite Hlog, times_of_snoc, (weight_perm _ _ Hag'), weight_app. simpl.
    rewrite app_nil_r. lia.
  - rewrite Hag', Hlog, times_of_snoc, arrival_times_cons. simpl.
    by rewrite app_nil_r.
  - rewrite (Permutation_length (departures_perm _ _ Hag')), departures_cons, Hlog,
      !times_of_snoc.
    simpl. rewrite ?length_app, ?app_nil_r. subst ws. simpl in *. lia.
  - intros x Hx. rewrite Hag' in Hx. apply elem_of_cons in Hx as [->|Hx].
    + apply Event2_length_invariant.
    + apply Hlens. rewrite <- Hag. by right.
  - assert (Event.length (next_event s) = 0) as Hzero.
    { apply Hlens; [rewrite <- Hag; by left|]. by rewrite Htype. }
    rewrite Hlog, times_of_snoc, (weight_perm _ _ Hag'). simpl.
    rewrite sum_app. subst ws. simpl in *. lia.
  - rewrite Hag', Hlog, times_of_snoc. simpl. by rewrite app_nil_r.
  - rewrite (Permutation_length (departures_perm _ _ Hag')), Hlog, !times_of_snoc.
    simpl. rewrite ?length_app, ?app_nil_r. subst ws. simpl in *. lia.
  - intros x Hx. rewrite Hag' in Hx. apply Hlens. rewrite <- Hag. by right.
  - assert (Event.length (next_event s) = 0) as Hzero.
    { apply Hlens; [rewrite <- Hag; by left|]. by rewrite Htype. }
    rewrite Hlog, times_of_snoc, (weight_perm _ _ Hag'). simpl.
    rewrite sum_app. subst ws. simpl in *. lia.
Qed.

Lemma reachable_account input s :
  reachable input s →
  ∃ ws, shape_inv s ws ∧ teller_inv s ws ∧ account_inv input s ws.
Proof.
  induction 1 as [s Hstart|s s' _ (ws & Hshape & Hteller & Hacct) Hne Hrun].
  - pose proof (setup_spec input) as Hsetup. rewrite Hstart in Hsetup.
    destruct Hsetup as (Hshape & Hag & _ & _ & Hfree & _ & Hcum).
    pose proof (setup_cout input s Hstart) as Hcout.
    assert (log s = []) as Hlog. { unfold log. by rewrite Hcout. }
    exists []. split_and!; [done| |].
    + unfold teller_inv. rewrite Hfree. split; [done|].
      apply Permutation_nil_r. rewrite (departures_perm _ _ Hag).
      by rewrite departures_arrivals.
    + split.
      * by rewrite Hlog.
      * by rewrite Hlog, Hag, arrivals_are_arrivals, app_nil_r.
      * rewrite Hlog, (Permutation_length (departures_perm _ _ Hag)).
        by rewrite departures_arrivals.
      * intros e He. rewrite Hag in He.
        apply arrivals_elem in He as (c & _ & ->).
        apply Event3_length_invariant.
      * rewrite Hlog, Hcum, (weight_perm _ _ Hag). simpl. lia.
  - pose proof (loop_body_spec s ws Hshape (loop_body_ret_nonempty _ _ Hrun))
      as Hstep.
    rewrite Hrun in Hstep. destruct Hstep as (ws' & Hstep & Hshape' & _).
    exists ws'. split_and!; [done|by eapply step_teller_inv|].
    apply (step_account input s ws s' ws' Hacct Hstep).
    apply loop_body_cout; [|done]. by destruct Hshape.
Qed.

(** The event loop ends with an empty event queue in a state that the run
    reaches, or it stops at an iteration that overflows. *)
Lemma event_loop_run input (fuel : nat) s ws :
  reachable input s → shape_inv s ws → (remaining s ws < fuel)%nat →
  match event_loop fuel s with
  | Ret _ s' => reachable input s' ∧ BinaryHeap.elementCount (heap s') = 0
  | Undefined =>
      ∃ s1 ws1, reachable input s1 ∧ shape_inv s1 ws1 ∧ overflows s1 ws1
  | _ => False
  end.
Proof.
  revert s ws. induction fuel as [|fuel IH]; intros s ws Hreach Hshape Hfuel;
    [lia|].
  simpl. rewrite (bind_ret_step _ _ _ _ _ (on_events_isEmpty s)).
  destruct (Z.eqb_spec (BinaryHeap.elementCount (heap s)) 0) as [Hz|Hne];
    [done|].
  pose proof (loop_body_spec s ws Hshape Hne) as Hstep.
  unfold bind at 1.
  destruct (loop_body s) as [[] s1| | |] eqn:Hrun; try done.
  - destruct Hstep as (ws1 & Hstep & Hshape1 & _).
    apply (IH s1 ws1); [|done|].
    + apply (reachable_step input s s1); [done| |done].
      rewrite on_events_isEmpty. f_equal. by apply Z.eqb_neq.
    + apply remaining_step in Hstep. lia.
  - by exists s, ws.
Qed.

(** A run of [main]: it returns 0 after the report, from a state with an
    empty event queue that the event loop has reached, or it overflows. *)
Lemma main_run input :
  match main input with
  | Ret r s =>
      r = 0 ∧ ∃ s1, reachable input s1
                    ∧ BinaryHeap.elementCount (heap s1) = 0
                    ∧ report s1 = Ret 0 s
  | Undefined =>
      INT_MAX < Z.of_nat (length (arrivals input))
      ∨ ∃ s1 ws1, reachable input s1 ∧ shape_inv s1 ws1 ∧ overflows s1 ws1
  | _ => False
  end.
Proof.
  unfold main, main_from. pose proof (setup_spec input) as Hsetup.
  unfold bind at 1.
  destruct (setup input initial_state) as [[] s0| | |] eqn:Hstart; try done;
    [|by left].
  destruct Hsetup as (Hshape & Hag & Hcust & _).
  rewrite bind_gets. unfold bind at 1.
  pose proof (event_loop_run input (loop_budget s0) s0 []
                (reachable_start input s0 Hstart) Hshape) as Hloop.
  destruct (event_loop (loop_budget s0) s0) as [[] s1| | |].
  - destruct Hloop as (Hreach & Hempty).
    { unfold remaining, loop_budget.
      rewrite (departures_perm _ _ Hag), departures_arrivals, Hag,
        arrivals_are_arrivals, Hcust. simpl. lia. }
    unfold report. rewrite !bind_gets, !bind_print. simpl.
    split; [done|]. exists s1. split_and!; try done.
  - apply Hloop. unfold remaining, loop_budget.
    rewrite (departures_perm _ _ Hag), departures_arrivals, Hag,
      arrivals_are_arrivals, Hcust. simpl. lia.
  - right. apply Hloop. unfold remaining, loop_budget.
    rewrite (departures_perm _ _ Hag), departures_arrivals, Hag,
      arrivals_are_arrivals, Hcust. simpl. lia.
  - apply Hloop. unfold remaining, loop_budget.
    rewrite (departures_perm _ _ Hag), departures_arrivals, Hag,
      arrivals_are_arrivals, Hcust. simpl. lia.
Qed.

Lemma reachable_customers input s :
  reachable input s → customerCount s = Z.of_nat (length (arrivals input)).
Proof.
  induction 1 as [s Hstart|s s' Hreach IH Hne Hrun].
  - pose proof (setup_spec input) as Hsetup. rewrite Hstart in Hsetup.
    by destruct Hsetup as (_ & _ & Hcust & _).
  - destruct (reachable_shape input s Hreach) as (ws & Hshape & _).
    pose proof (loop_body_spec s ws Hshape (loop_body_ret_nonempty _ _ Hrun))
      as Hstep.
    rewrite Hrun in Hstep. destruct Hstep as (ws' & _ & _ & Hcust). congruence.
Qed.

Lemma sorted_snoc (l : list Z) (x : Z) :
  StronglySorted Z.le l → (∀ t, t ∈ l → t ≤ x) →
  StronglySorted Z.le (l ++ [x]).
Proof.
  induction 1 as [|a l Hsorted IH Hall]; intros Hle; simpl.
  - repeat constructor.
  - constructor.
    + apply IH. intros t Ht. apply Hle. by right.
    + apply Forall_app. split; [done|]. constructor; [|done]. apply Hle. by left.
Qed.

Lemma reachable_chronological input s :
  Forall (λ c, 0 ≤ c.1 ∧ 0 ≤ c.2) input → reachable input s → chronological s.
Proof.
  intros Hpos. induction 1 as [s Hstart|s s' Hreach [Hsorted Hbound] Hne Hrun].
  - unfold chronological, log. rewrite (setup_cout input s Hstart). simpl.
    split; [constructor|]. intros t Ht. by apply elem_of_nil in Ht.
  - destruct (reachable_order input s Hpos Hreach) as (ws & Hshape & Horder).
    pose proof (loop_body_spec s ws Hshape (loop_body_ret_nonempty _ _ Hrun))
      as Hstep.
    rewrite Hrun in Hstep. destruct Hstep as (ws' & Hstep & _ & _).
    destruct (step_order_inv s ws s' ws' Hshape Horder Hstep) as (_ & Hnow & _).
    pose proof (step_rel_time s ws s' ws' Hstep) as Htime.
    assert (log s' = log s ++ [(Event.type (next_event s),
                                Event.time (next_event s))]) as Hlog.
    { unfold log. rewrite (loop_body_cout s s'); [|by destruct Hshape|done].
      apply processed_snoc. }
    unfold chronological. rewrite Hlog, fmap_app. simpl. split.
    + apply sorted_snoc; [done|]. intros t Ht. specialize (Hbound t Ht). lia.
    + intros t [Ht|Ht%list_elem_of_singleton]%elem_of_app.
      * specialize (Hbound t Ht). lia.
      * lia.
Qed.

Lemma report_spec s1 s :
  report s1 = Ret 0 s →
  s = mk (bankLine s1) (eventPriorityQueue s1) (tellerAvailable s1)
         (simulationTime s1) (customerCount s1) (cumulativeWaitTime s1)
         (cout s1 ++ [SimulationEnds; TotalProcessed (customerCount s1);
                      AverageWait
                        (float_div (float_of_int (cumulativeWaitTime s1))
                                   (float_of_int (customerCount s1)))]).
Proof.
  unfold report. rewrite !bind_gets, !bind_print. simpl.
  intros [= <-]. by rewrite <- !app_assoc.
Qed.

Lemma log_report s1 s : report s1 = Ret 0 s → log s = log s1.
Proof.
  intros ->%report_spec. unfold log, processed. simpl.
  rewrite omap_app. simpl. by rewrite app_nil_r.
Qed.

(** The state in which [main] returns, and the state at the end of the
    event loop that it comes from. *)
Lemma main_final input r s :
  main input = Ret r s →
  r = 0
  ∧ ∃ s1, reachable input s1
          ∧ report s1 = Ret 0 s
          ∧ account_inv input s1 []
          ∧ agenda s1 = []
          ∧ tellerAvailable s1 = true
          ∧ bankLine s1 = Queue.Queue0.
Proof.
  intros Hmain. pose proof (main_run input) as Hrun. rewrite Hmain in Hrun.
  destruct Hrun as (-> & s1 & Hreach & Hempty & Hreport).
  split; [done|]. exists s1.
  destruct (reachable_account input s1 Hreach) as (ws & Hshape & Hteller & Hacct).
  assert (agenda s1 = []) as Hag.
  { unfold agenda, PriorityQueue.contents, BinaryHeap.contents.
    fold (heap s1). by rewrite Hempty. }
  assert (tellerAvailable s1 = true ∧ ws = []) as [Hfree ->].
  { unfold teller_inv in Hteller. rewrite Hag in Hteller.
    destruct (tellerAvailable s1); [by destruct Hteller|done]. }
  split_and!; try done.
  destruct Hshape as [_ _ [addrs Hrep] _ _].
  pose proof (Queue.rep_addrs _ _ _ Hrep) as Hlen.
  destruct addrs; [|done]. by apply represents_nil.
Qed.

Lemma length_times_of (l : list (Event.EventType * Z)) :
  length l = (length (times_of ARRIVAL l) + length (times_of DEPARTURE l))%nat.
Proof.
  unfold times_of. rewrite !length_fmap.
  induction l as [|[[] t] l IH]; [done| |]; rewrite !filter_cons; simpl;
    repeat case_decide; try done; simpl; lia.
Qed.

(** X14. Whatever the input, [main] does not end in an exception, and the
    event loop ends within its budget of two iterations for each customer:
    [main] returns 0, or its behaviour is undefined because an [int]
    overflows, the customer count while the input is read or a time in an
    iteration of the event loop. *)
Theorem main_returns_or_overflows input :
  match main input with
  | Ret r _ => r = 0
  | Undefined =>
      INT_MAX < Z.of_nat (length (arrivals input))
      ∨ ∃ s ws, reachable input s ∧ shape_inv s ws ∧ overflows s ws
  | Throw _ _ | OutOfFuel => False
  end.
Proof.
  pose proof (main_run input) as Hrun.
  destruct (main input) as [r s| | |]; try done. by destruct Hrun.
Qed.

(** X15. When [main] returns, the simulation is over: no event is pending,
    nobody waits in line (all nodes of the line are freed), the teller is
    available, and the customer count is the number of pairs that were read
    from the input. *)
Theorem run_ends_idle input r s :
  main input = Ret r s →
  agenda s = []
  ∧ bankLine s = Queue.Queue0
  ∧ tellerAvailable s = true
  ∧ customerCount s = Z.of_nat (length (arrivals input)).
Proof.
  intros (_ & s1 & Hreach & Hreport & _ & Hag & Hfree & Hline)%main_final.
  pose proof (reachable_customers input s1 Hreach) as Hcust.
  apply report_spec in Hreport as ->. unfold agenda in *. by simpl.
Qed.

(** X16. The output of a run that returns: the opening line, then one line
    for each processed event, then the closing line, the number of customers
    and the average wait, which is the total wait divided by the number of
    customers in single precision. There are two event lines for each
    customer: the times of the arrival lines are the arrival times of the
    input, each as often as it was read, and there are as many departure
    lines as customers. *)
Theorem output_of_a_run input r s :
  main input = Ret r s →
  let n := length (arrivals input) in
  cout s
  = SimulationBegins :: ((λ p, Processing p.1 p.2) <$> log s)
    ++ [SimulationEnds; TotalProcessed (Z.of_nat n);
        AverageWait (float_div (float_of_int (cumulativeWaitTime s))
                               (float_of_int (Z.of_nat n)))]
  ∧ length (log s) = (2 * n)%nat
  ∧ times_of ARRIVAL (log s) ≡ₚ Event.time <$> arrivals input
  ∧ length (times_of DEPARTURE (log s)) = n.
Proof.
  intros (_ & s1 & Hreach & Hreport & Hacct & Hag & _ & _)%main_final n.
  pose proof (reachable_customers input s1 Hreach) as Hcust.
  rewrite (log_report s1 s Hreport).
  destruct Hacct as [Hcout Harrs Hdeps _ _].
  rewrite Hag in Harrs, Hdeps. simpl in Harrs, Hdeps.
  pose proof (Permutation_length Harrs) as Hn. rewrite length_fmap in Hn.
  apply report_spec in Hreport as ->. simpl. rewrite Hcust, Hcout.
  split_and!; [done| |done|unfold n; lia].
  rewrite length_times_of. unfold n. lia.
Qed.

(** X17. When [main] returns, the total wait that it reports is the sum of
    the departure times in the output minus the arrival times and the
    service lengths of all customers: every customer waited from their
    arrival until their service began, and left when it ended. *)
Theorem total_wait_of_a_run input r s :
  main input = Ret r s →
  cumulativeWaitTime s
  = sum (times_of DEPARTURE (log s)) - weight (arrivals input).
Proof.
  intros (_ & s1 & Hreach & Hreport & Hacct & Hag & _ & _)%main_final.
  rewrite (log_report s1 s Hreport).
  destruct Hacct as [_ _ _ _ Hwait]. rewrite Hag in Hwait. simpl in Hwait.
  apply report_spec in Hreport as ->. simpl. lia.
Qed.

(** X18. On an input of non-negative arrival times and service lengths,
    when [main] returns, and so no [int] has overflowed during the run, the
    event lines of the output are in chronological order: the time of a line
    is never less than the time of a line before it. *)
Theorem output_is_chronological input r s :
  Forall (λ c, 0 ≤ c.1 ∧ 0 ≤ c.2) input →
  main input = Ret r s →
  StronglySorted Z.le (log s).*2.
Proof.
  intros Hpos (_ & s1 & Hreach & Hreport & _)%main_final.
  rewrite (log_report s1 s Hreport).
  by destruct (reachable_chronological input s1 Hpos Hreach).
Qed.

(** X19. In every state at the head of the event loop, the customers are
    all accounted for: the arrival times in the log together with those of
    the pending arrivals are the arrival times that were read; and every
    customer whose arrival is in the log is waiting in line, is in service
    (their departure is pending) or has a departure in the log. *)
Theorem customers_accounted_for input s :
  reachable input s →
  (Event.time <$> filter (λ e, Event.isArrival e = true) (agenda s))
    ++ times_of ARRIVAL (log s)
  ≡ₚ Event.time <$> arrivals input
  ∧ length (times_of ARRIVAL (log s))
    = (length (waiting s) + length (departures (agenda s))
       + length (times_of DEPARTURE (log s)))%nat
  ∧ (length (departures (agenda s)) ≤ 1)%nat.
Proof.
  intros (ws & Hshape & Hteller & Hacct)%reachable_account.
  destruct Hshape as [_ _ [addrs Hrep] _ _].
  unfold waiting. rewrite (represents_to_list _ _ _ Hrep).
  destruct Hacct as [_ Harrs Hdeps _ _].
  split_and!; [done|lia|].
  unfold teller_inv in Hteller.
  destruct (tellerAvailable s); [destruct Hteller as [_ ->]; simpl|]; lia.
Qed.

(** X20. When no customer is read, because the input is empty or its first
    pair is not a pair of [int]s, [main] prints the opening and the closing
    line, a count of 0, and an average wait that is not a number: it divides
    the total wait 0.0 by the count 0.0. *)
Theorem no_customer_average_is_nan input :
  arrivals input = [] →
  ∃ s, main input = Ret 0 s
       ∧ cout s = [SimulationBegins; SimulationEnds; TotalProcessed 0;
                   AverageWait S754_nan].
Proof.
  intros Hnone.
  assert (∀ s0, read_customers input s0 = Ret tt s0) as Hread.
  { intros s0. destruct input as [|[a p] rest]; [done|].
    simpl in *. by destruct (in_int a && in_int p). }
  assert (∃ s0, setup input initial_state = Ret tt s0
                ∧ s0 = mk Queue.Queue0 PriorityQueue.PriorityQueue0 true 0 0 0
                          [SimulationBegins]) as (s0 & Hsetup & Hs0).
  { eexists. split; [|reflexivity]. unfold setup. rewrite bind_print.
    apply Hread. }
  unfold main, main_from. rewrite (bind_ret_step _ _ _ _ _ Hsetup). subst s0.
  eexists. split; [vm_compute; reflexivity|]. reflexivity.
Qed.

End SimulationRuns.

Lemma processArrival_frame_witness :
  let s := BankSimApp.state_after [(0, 10); (2, 3)] 0 in
  let e := Event.Event3 ARRIVAL 0 10 in
  ∃ s', BankSimApp.processArrival e s = Ret tt s'
        ∧ BankSimApp.simulationTime s' = BankSimApp.simulationTime s
        ∧ BankSimApp.customerCount s' = BankSimApp.customerCount s
        ∧ BankSimApp.cumulativeWaitTime s' = BankSimApp.cumulativeWaitTime s
        ∧ BankSimApp.cout s' = BankSimApp.cout s
        ∧ (BankSimApp.tellerAvailable s' = true
           → BankSimApp.tellerAvailable s = true).
Proof.
  intros s e. eexists. split; [vm_compute; reflexivity|].
  apply (processArrival_frame e s). vm_compute. reflexivity.
Defined.

Lemma processDeparture_frame_witness :
  let s := BankSimApp.state_after [(0, 10); (2, 3)] 2 in
  let e := Event.Event2 DEPARTURE 10 in
  ∃ s', BankSimApp.processDeparture e s = Ret tt s'
        ∧ BankSimApp.simulationTime s' = BankSimApp.simulationTime s
        ∧ BankSimApp.customerCount s' = BankSimApp.customerCount s
        ∧ BankSimApp.cout s' = BankSimApp.cout s
        ∧ (BankSimApp.tellerAvailable s = true
           → BankSimApp.tellerAvailable s' = true).
Proof.
  intros s e. eexists. split; [vm_compute; reflexivity|].
  apply (processDeparture_frame e s). vm_compute. reflexivity.
Defined.

Lemma run_ends_idle_witness :
  let input := [(0, 10); (2, 3); (4, 1)] in
  ∃ s, BankSimApp.main input = Ret 0 s
       ∧ BankSimApp.agenda s = []
       ∧ BankSimApp.bankLine s = Queue.Queue0
       ∧ BankSimApp.tellerAvailable s = true
       ∧ BankSimApp.customerCount s
         = Z.of_nat (length (BankSimApp.arrivals input)).
Proof.
  intros input. eexists. split; [vm_compute; reflexivity|].
  apply (run_ends_idle input 0). vm_compute. reflexivity.
Defined.

Lemma output_of_a_run_witness :
  let input := [(0, 10); (2, 3); (4, 1)] in
  ∃ s, BankSimApp.main input = Ret 0 s
       ∧ let n := length (BankSimApp.arrivals input) in
         BankSimApp.cout s
         = BankSimApp.SimulationBegins
           :: ((λ p, BankSimApp.Processing p.1 p.2) <$> BankSimApp.log s)
           ++ [BankSimApp.SimulationEnds;
               BankSimApp.TotalProcessed (Z.of_nat n);
               BankSimApp.AverageWait
                 (float_div (float_of_int (BankSimApp.cumulativeWaitTime s))
                            (float_of_int (Z.of_nat n)))]
         ∧ length (BankSimApp.log s) = (2 * n)%nat
         ∧ BankSimApp.times_of ARRIVAL (BankSimApp.log s)
           ≡ₚ Event.time <$> BankSimApp.arrivals input
         ∧ length (BankSimApp.times_of DEPARTURE (BankSimApp.log s)) = n.
Proof.
  intros input. eexists. split; [vm_compute; reflexivity|].
  apply (output_of_a_run input 0). vm_compute. reflexivity.
Defined.

Lemma total_wait_of_a_run_witness :
  let input := [(0, 10); (2, 3); (4, 1)] in
  ∃ s, BankSimApp.main input = Ret 0 s
       ∧ BankSimApp.cumulativeWaitTime s
         = BankSimApp.sum (BankSimApp.times_of DEPARTURE (BankSimApp.log s))
           - BankSimApp.weight (BankSimApp.arrivals input).
Proof.
  intros input. eexists. split; [vm_compute; reflexivity|].
  apply (total_wait_of_a_run input 0). vm_compute. reflexivity.
Defined.

Lemma output_is_chronological_witness :
  let input := [(4, 1); (0, 10); (2, 3)] in
  ∃ s, BankSimApp.main input = Ret 0 s
       ∧ StronglySorted Z.le (BankSimApp.log s).*2.
Proof.
  intros input. eexists. split; [vm_compute; reflexivity|].
  apply (output_is_chronological input 0).
  - repeat constructor; simpl; lia.
  - vm_compute. reflexivity.
Defined.

Lemma customers_accounted_for_witness :
  let input := [(0, 10); (2, 3)] in
  let s := BankSimApp.state_after input 2 in
  (Event.time
     <$> filter (λ e, Event.isArrival e = true) (BankSimApp.agenda s))
    ++ BankSimApp.times_of ARRIVAL (BankSimApp.log s)
  ≡ₚ Event.time <$> BankSimApp.arrivals input
  ∧ length (BankSimApp.times_of ARRIVAL (BankSimApp.log s))
    = (length (BankSimApp.waiting s)
       + length (BankSimApp.departures (BankSimApp.agenda s))
       + length (BankSimApp.times_of DEPARTURE (BankSimApp.log s)))%nat
  ∧ (length (BankSimApp.departures (BankSimApp.agenda s)) ≤ 1)%nat.
Proof.
  apply (customers_accounted_for [(0, 10); (2, 3)]).
  apply (BankSimApp.reachable_step _ (BankSimApp.state_after [(0, 10); (2, 3)] 1));
    [|vm_compute; reflexivity|vm_compute; reflexivity].
  apply (BankSimApp.reachable_step _ (BankSimApp.state_after [(0, 10); (2, 3)] 0));
    [|vm_compute; reflexivity|vm_compute; reflexivity].
  apply BankSimApp.reachable_start. vm_compute. reflexivity.
Defined.

Lemma no_customer_average_is_nan_witness :
  ∃ s, BankSimApp.main [(2147483648, 5); (1, 1)] = Ret 0 s
       ∧ BankSimApp.cout s
         = [BankSimApp.SimulationBegins; BankSimApp.SimulationEnds;
            BankSimApp.TotalProcessed 0; BankSimApp.AverageWait S754_nan].
Proof. apply no_customer_average_is_nan. reflexivity. Defined.

(** ** The results of [insert] and [enqueue] *)

Lemma returns_bind {S A B} (P : B → Prop) (m : M S A) (f : A → M S B) :
  (∀ a, returns P (f a)) → returns P (bind m f).
Proof.
  intros Hf s b s' (a & s1 & _ & Hrun)%bind_ret_inv. by eapply Hf.
Qed.

Lemma returns_ret {S A} (P : A → Prop) (a : A) : P a → returns (S := S) P (ret a).
Proof. by intros Ha s b s' [= <- _]. Qed.

Lemma returns_zoom {S U A} (P : A → Prop) (proj : S → U) (upd : U → S → S)
  (m : M U A) :
  returns P m → returns P (zoom proj upd m).
Proof.
  intros Hm s a s' Hrun. unfold zoom in Hrun.
  destruct (m (proj s)) as [a1 u| | |] eqn:Hms; try done.
  injection Hrun as <- _. by eapply Hm.
Qed.

(** X21. [insert] of the heap and [enqueue] of the priority queue and of the
    linked queue are documented to return true if successful and false
    otherwise; the result [false] does not occur: whenever one of them
    returns, it returns true. *)
Theorem insert_and_enqueue_return_true {T U : Type} `{!ElementType T} :
  (∀ x : T, returns (λ b, b = true) (BinaryHeap.insert x))
  ∧ (∀ x : T, returns (λ b, b = true) (PriorityQueue.enqueue x))
  ∧ (∀ x : U, returns (λ b, b = true) (Queue.enqueue x)).
Proof.
  assert (∀ x : T, returns (λ b, b = true) (BinaryHeap.insert x)) as Hinsert.
  { intros x. unfold BinaryHeap.insert.
    do 7 (apply returns_bind; intros ?). by apply returns_ret. }
  split_and!.
  - done.
  - intros x. unfold PriorityQueue.enqueue, PriorityQueue.on_minheap.
    apply returns_zoom, Hinsert.
  - intros x. unfold Queue.enqueue.
    do 6 (apply returns_bind; intros ?). by apply returns_ret.
Qed.

(** ** BankSimApp: reading the customers *)

Lemma arrivals_prefix input :
  ∃ k : nat,
    BankSimApp.arrivals input
    = (λ c, Event.Event3 ARRIVAL c.1 c.2) <$> take k input
    ∧ Forall (λ c, in_int c.1 && in_int c.2 = true) (take k input)
    ∧ ∀ c, input !! k = Some c → in_int c.1 && in_int c.2 = false.
Proof.
  induction input as [|[a p] input (k & Heq & Hall & Hstop)].
  - exists 0%nat. by split_and!.
  - simpl. destruct (in_int a && in_int p) eqn:Hin.
    + exists (S k). simpl. split_and!; [by rewrite Heq|by constructor|done].
    + exists 0%nat. simpl. split_and!; [done|constructor|].
      by intros c [= <-].
Qed.

(** X22. The part of [main] before the event loop prints the opening line
    and reads pairs from the input up to the first one that is not a pair of
    [int]s. For each pair read it enqueues one arrival event with the time
    and the length of the pair, and it counts the pair; the line stays
    empty, the teller available, and the clock and the total wait 0. Its
    behaviour is undefined only if the count leaves the range of [int]. *)
Theorem setup_reads_customers input :
  ∃ k : nat,
    Forall (λ c, in_int c.1 && in_int c.2 = true) (take k input)
    ∧ (∀ c, input !! k = Some c → in_int c.1 && in_int c.2 = false)
    ∧ match BankSimApp.setup input BankSimApp.initial_state with
      | Ret _ s =>
          BankSimApp.agenda s
          ≡ₚ (λ c, Event.Event3 ARRIVAL c.1 c.2) <$> take k input
          ∧ BankSimApp.customerCount s = Z.of_nat (length (take k input))
          ∧ BankSimApp.cout s = [BankSimApp.SimulationBegins]
          ∧ BankSimApp.bankLine s = Queue.Queue0
          ∧ BankSimApp.tellerAvailable s = true
          ∧ BankSimApp.simulationTime s = 0
          ∧ BankSimApp.cumulativeWaitTime s = 0
      | Undefined => INT_MAX < Z.of_nat (length (take k input))
      | Throw _ _ | OutOfFuel => False
      end.
Proof.
  destruct (arrivals_prefix input) as (k & Heq & Hall & Hstop).
  exists k. split; [done|]. split; [done|].
  pose proof (setup_spec input) as Hsetup.
  pose proof (setup_cout input) as Hcout.
  rewrite Heq, length_fmap in Hsetup.
  destruct (BankSimApp.setup input BankSimApp.initial_state)
    as [[] s| | |]; try done.
  destruct Hsetup as (Hshape & Hag & Hcust & _ & Hfree & Hnow & Hcum).
  split_and!; try done; [by apply Hcout|].
  destruct Hshape as [_ _ [addrs Hrep] _ _].
  pose proof (Queue.rep_addrs _ _ _ Hrep) as Hlen.
  destruct addrs; [|done]. by apply represents_nil.
Qed.
